(** * link_fix.py: a verification development

    The script .github/workflows/link_fix.py makes three passes over the
    Markdown/Quarto sources of a site: it annotates external links with
    [{target=_blank}] (dropping the tracking parameter
    [utm_source=chatgpt.com]), it checks internal links against plausible
    source files and writes [broken_links.md], and it sorts the lychee ignore
    list.

    The functions of the script are embedded below under their own names.
    The Python runtime they call (str methods, [re], [urllib.parse],
    [pathlib]) is modelled after CPython 3.11 on POSIX:
    - a [str] is a list of Unicode code points ([N]);
    - exceptions are an error monad ([result]);
    - the three Unicode/library tables that are too large to write down
      ([str.lower], NFKC normalisation, [ipaddress.ip_address]) are the fields
      of the class [Unicode]; every theorem holds for all of them;
    - the file system is a finite map from absolute paths to nodes. *)

From Stdlib Require Import NArith Ascii String List Bool Lia.
From stdpp Require Import base option list sorting gmap.

Local Open Scope N_scope.
Local Open Scope list_scope.

(** ** Python strings *)

Abbreviation str := (list N).

(** [py "abc"] is the Python literal ['abc'] (an ASCII literal). *)
Definition py (s : string) : str := map N_of_ascii (list_ascii_of_string s).

(** [ch "a"] is the code point of a one-character literal. *)
Definition ch (a : ascii) : N := N_of_ascii a.

Arguments py : simpl never.
Arguments ch : simpl never.

Definition str_eqb (a b : str) : bool := bool_decide (a = b).

(** [s.startswith(p)] *)
Fixpoint startswith (p s : str) : bool :=
  match p, s with
  | [], _ => true
  | _ :: _, [] => false
  | a :: p', b :: s' => (a =? b) && startswith p' s'
  end.

(** [s.endswith(p)] *)
Definition endswith (p s : str) : bool := startswith (rev p) (rev s).

(** [needle in hay] *)
Fixpoint contains (needle hay : str) : bool :=
  startswith needle hay ||
  match hay with
  | [] => false
  | _ :: hay' => contains needle hay'
  end.

(** [c in s] for a single character. *)
Definition has_char (c : N) (s : str) : bool := existsb (N.eqb c) s.

(** The part of [s] before the first [c], and the part after it if [c]
    occurs: [s.partition(c)] without the separator. *)
Fixpoint partition_char (c : N) (s : str) : str * option str :=
  match s with
  | [] => ([], None)
  | x :: s' =>
      if x =? c then ([], Some s')
      else let '(a, b) := partition_char c s' in (x :: a, b)
  end.

(** [s.split(c, 1)[0]] *)
Definition split1_head (c : N) (s : str) : str := fst (partition_char c s).

(** [s.split(c)] for a one-character separator. *)
Fixpoint split_char (c : N) (s : str) : list str :=
  match s with
  | [] => [[]]
  | x :: s' =>
      if x =? c then [] :: split_char c s'
      else match split_char c s' with
           | [] => [[x]]
           | l :: ls => (x :: l) :: ls
           end
  end.

(** [s.replace(a, b)] for one-character [a] and [b]. *)
Definition replace_char (a b : N) (s : str) : str :=
  map (fun x => if x =? a then b else x) s.

(** [s.replace(a, "")] for a one-character [a]. *)
Definition remove_char (a : N) (s : str) : str :=
  filter (fun x => x ≠ a) s.

(** [sep.join(ls)] *)
Fixpoint join (sep : str) (ls : list str) : str :=
  match ls with
  | [] => []
  | [l] => l
  | l :: ls' => l ++ sep ++ join sep ls'
  end.

(** [str.isspace] on one code point: the characters Python strips and the
    ones [\s] matches in a str pattern. *)
Definition isspace (c : N) : bool :=
  ((9 <=? c) && (c <=? 13)) || ((28 <=? c) && (c <=? 32)) ||
  (c =? 133) || (c =? 160) || (c =? 5760) ||
  ((8192 <=? c) && (c <=? 8202)) || (c =? 8232) || (c =? 8233) ||
  (c =? 8239) || (c =? 8287) || (c =? 12288).

Fixpoint lstrip_of (f : N -> bool) (s : str) : str :=
  match s with
  | [] => []
  | c :: s' => if f c then lstrip_of f s' else s
  end.

Definition rstrip_of (f : N -> bool) (s : str) : str :=
  rev (lstrip_of f (rev s)).

(** [s.lstrip()], [s.rstrip()], [s.strip()] *)
Definition str_lstrip : str -> str := lstrip_of isspace.
Definition str_rstrip : str -> str := rstrip_of isspace.
Definition str_strip (s : str) : str := str_rstrip (str_lstrip s).

(** Line boundaries of [str.splitlines]. *)
Definition is_linebreak (c : N) : bool :=
  ((10 <=? c) && (c <=? 13)) || ((28 <=? c) && (c <=? 30)) ||
  (c =? 133) || (c =? 8232) || (c =? 8233).

(** [s.splitlines()]: a carriage return followed by a line feed is one
    boundary; a final boundary does not open a last empty line. *)
Fixpoint splitlines (s : str) : list str :=
  match s with
  | [] => []
  | c :: s' =>
      if c =? 13 then
        [] :: match s' with
              | d :: s'' => if d =? 10 then splitlines s'' else splitlines s'
              | [] => []
              end
      else if is_linebreak c then [] :: splitlines s'
      else match splitlines s' with
           | [] => [[c]]
           | l :: ls => (c :: l) :: ls
           end
  end.

(** Code-point order of [str], as used by [<] and [sorted]. *)
Fixpoint str_ltb (a b : str) : bool :=
  match a, b with
  | _, [] => false
  | [], _ :: _ => true
  | x :: a', y :: b' => (x <? y) || ((x =? y) && str_ltb a' b')
  end.

Definition str_leb (a b : str) : bool := negb (str_ltb b a).

Definition is_ascii (c : N) : bool := c <? 128.

(** [str.lower] on ASCII letters. *)
Definition ascii_lower_char (c : N) : N :=
  if (65 <=? c) && (c <=? 90) then c + 32 else c.

(** ** Tables taken as parameters *)

Inductive ip_version := IPv4 | IPv6.

Class Unicode := {
  (** [str.lower()] *)
  str_lower : str -> str;
  (** [unicodedata.normalize('NFKC', s)] *)
  nfkc : str -> str;
  (** [ipaddress.ip_address(s)]: the version of the address, or [None] where
      Python raises ValueError *)
  ip_address : str -> option ip_version
}.

(** ** Exceptions *)

Inductive exn := ValueError | UnicodeEncodeError | OSError.

Inductive result (A : Type) := Ok (a : A) | Raise (e : exn).
Arguments Ok {A} a.
Arguments Raise {A} e.

Global Instance result_ret : MRet result := fun A a => Ok a.

Global Instance result_bind : MBind result := fun A B k r =>
  match r with
  | Ok a => k a
  | Raise e => Raise e
  end.

(** A [for] loop whose body may raise. *)
Fixpoint for_each {A B} (f : A -> result B) (l : list A) : result (list B) :=
  match l with
  | [] => Ok []
  | a :: l' => b ← f a; bs ← for_each f l'; Ok (b :: bs)
  end.

(** The longest prefix whose characters satisfy [f], and the rest. *)
Fixpoint span (f : N -> bool) (s : str) : str * str :=
  match s with
  | [] => ([], [])
  | c :: s' =>
      if f c then let '(a, b) := span f s' in (c :: a, b) else ([], s)
  end.

(** [s.rpartition(c)[2]] *)
Definition rpartition_tail (c : N) (s : str) : str :=
  rev (split1_head c (rev s)).

(** ** UTF-8 *)

(** Bytes are numbers below 256. *)
Abbreviation bytes := (list N) (only parsing).

Definition is_surrogate (c : N) : bool := (55296 <=? c) && (c <=? 57343).

(** A code point a str read from a UTF-8 file can hold. *)
Definition is_scalar (c : N) : bool := (c <? 1114112) && negb (is_surrogate c).

(** [chr(c).encode('utf-8')], strict: surrogates raise. *)
Definition utf8_encode_char (c : N) : result bytes :=
  if c <? 128 then Ok [c]
  else if c <? 2048 then Ok [192 + c / 64; 128 + c mod 64]
  else if c <? 65536 then
    if is_surrogate c then Raise UnicodeEncodeError
    else Ok [224 + c / 4096; 128 + (c / 64) mod 64; 128 + c mod 64]
  else if c <? 1114112 then
    Ok [240 + c / 262144; 128 + (c / 4096) mod 64; 128 + (c / 64) mod 64;
        128 + c mod 64]
  else Raise UnicodeEncodeError.

(** [s.encode('utf-8')] *)
Fixpoint utf8_encode (s : str) : result bytes :=
  match s with
  | [] => Ok []
  | c :: s' => b ← utf8_encode_char c; bs ← utf8_encode s'; Ok (b ++ bs)
  end.

Definition is_cont (b : N) : bool := (128 <=? b) && (b <=? 191).

(** Second bytes the decoder accepts after the lead byte [b0] of a three- or
    four-byte sequence (no overlong forms, no surrogates, nothing above
    U+10FFFF). *)
Definition second_ok (b0 b1 : N) : bool :=
  is_cont b1 &&
  (if b0 =? 224 then 160 <=? b1
   else if b0 =? 237 then b1 <? 160
   else if b0 =? 240 then 144 <=? b1
   else if b0 =? 244 then b1 <? 144
   else true).

Definition replacement : N := 65533.

(** [bs.decode('utf-8', 'replace')]: every maximal ill-formed piece (a byte
    that cannot start a sequence, or the valid start of a sequence that is
    cut short) becomes one U+FFFD. *)
Fixpoint utf8_decode (bs : bytes) : str :=
  match bs with
  | [] => []
  | b0 :: r0 =>
    if b0 <? 128 then b0 :: utf8_decode r0
    else if b0 <? 194 then replacement :: utf8_decode r0
    else if b0 <? 224 then
      match r0 with
      | [] => [replacement]
      | b1 :: r1 =>
        if is_cont b1 then ((b0 - 192) * 64 + (b1 - 128)) :: utf8_decode r1
        else replacement :: utf8_decode r0
      end
    else if b0 <? 240 then
      match r0 with
      | [] => [replacement]
      | b1 :: r1 =>
        if second_ok b0 b1 then
          match r1 with
          | [] => [replacement]
          | b2 :: r2 =>
            if is_cont b2 then
              ((b0 - 224) * 4096 + (b1 - 128) * 64 + (b2 - 128))
                :: utf8_decode r2
            else replacement :: utf8_decode r1
          end
        else replacement :: utf8_decode r0
      end
    else if b0 <? 245 then
      match r0 with
      | [] => [replacement]
      | b1 :: r1 =>
        if second_ok b0 b1 then
          match r1 with
          | [] => [replacement]
          | b2 :: r2 =>
            if is_cont b2 then
              match r2 with
              | [] => [replacement]
              | b3 :: r3 =>
                if is_cont b3 then
                  ((b0 - 240) * 262144 + (b1 - 128) * 4096 + (b2 - 128) * 64
                   + (b3 - 128)) :: utf8_decode r3
                else replacement :: utf8_decode r2
              end
            else replacement :: utf8_decode r1
          end
        else replacement :: utf8_decode r0
      end
    else replacement :: utf8_decode r0
  end.

(** ** urllib.parse *)

Definition is_upper (c : N) : bool := (65 <=? c) && (c <=? 90).
Definition is_lower (c : N) : bool := (97 <=? c) && (c <=? 122).
Definition is_digit (c : N) : bool := (48 <=? c) && (c <=? 57).

(** [_ALWAYS_SAFE]: letters, digits and [_.-~]. *)
Definition always_safe (b : N) : bool :=
  is_upper b || is_lower b || is_digit b ||
  (b =? ch "_") || (b =? ch ".") || (b =? ch "-") || (b =? ch "~").

Definition hex_digit (n : N) : N := if n <? 10 then 48 + n else 55 + n.

(** [_Quoter.__missing__]: the byte itself when safe, else ['%{:02X}']. *)
Definition quoter (safe : N -> bool) (b : N) : str :=
  if always_safe b || safe b then [b]
  else [ch "%"; hex_digit (b / 16); hex_digit (b mod 16)].

(** [quote_from_bytes(bs, safe)] *)
Definition quote_from_bytes (safe : N -> bool) (bs : bytes) : str :=
  match bs with
  | [] => []
  | _ =>
      if forallb (fun b => always_safe b || safe b) bs then bs
      else flat_map (quoter safe) bs
  end.

(** [quote(string, safe)] with the default encoding and error handler. *)
Definition quote (safe : N -> bool) (s : str) : result str :=
  match s with
  | [] => Ok []
  | _ => bs ← utf8_encode s; Ok (quote_from_bytes safe bs)
  end.

(** [quote_plus(string)] with [safe=''] *)
Definition quote_plus (s : str) : result str :=
  if negb (has_char (ch " ") s) then quote (fun _ => false) s
  else
    q ← quote (fun b => b =? ch " ") s;
    Ok (replace_char (ch " ") (ch "+") q).

Definition hex_value (c : N) : option N :=
  if is_digit c then Some (c - 48)
  else if (65 <=? c) && (c <=? 70) then Some (c - 55)
  else if (97 <=? c) && (c <=? 102) then Some (c - 87)
  else None.

(** One piece after a ['%'] in [unquote_to_bytes]: two hex digits become a
    byte, anything else keeps its ['%']. *)
Definition unquote_item (item : bytes) : bytes :=
  match item with
  | a :: b :: rest =>
      match hex_value a, hex_value b with
      | Some x, Some y => (16 * x + y) :: rest
      | _, _ => ch "%" :: item
      end
  | _ => ch "%" :: item
  end.

(** [unquote_to_bytes(string)] on an ASCII string. *)
Definition unquote_to_bytes (s : str) : bytes :=
  match split_char (ch "%") s with
  | [] => []
  | bit0 :: items => bit0 ++ flat_map unquote_item items
  end.

(** The maximal runs of ASCII and of non-ASCII characters of [s], in order:
    what [_asciire.split] returns, each run tagged. *)
Fixpoint ascii_runs (s : str) : list (bool * str) :=
  match s with
  | [] => []
  | c :: s' =>
      match ascii_runs s' with
      | (a, r) :: rs =>
          if eqb a (is_ascii c) then (a, c :: r) :: rs
          else (is_ascii c, [c]) :: (a, r) :: rs
      | [] => [(is_ascii c, [c])]
      end
  end.

(** [unquote(string)] with [encoding='utf-8', errors='replace'] *)
Definition unquote (s : str) : str :=
  if negb (has_char (ch "%") s) then s
  else
    flat_map (fun '(a, r) => if (a : bool) then utf8_decode (unquote_to_bytes r)
                             else r)
             (ascii_runs s).

(** [parse_qsl(qs, keep_blank_values=True)] *)
Definition parse_qsl (qs : str) : list (str * str) :=
  let query_args := match qs with [] => [] | _ => split_char (ch "&") qs end in
  flat_map
    (fun name_value =>
       match name_value with
       | [] => []
       | _ =>
           let '(n, v) := partition_char (ch "=") name_value in
           let v := default [] v in
           [(unquote (replace_char (ch "+") (ch " ") n),
             unquote (replace_char (ch "+") (ch " ") v))]
       end)
    query_args.

(** [urlencode(query, doseq=True)] for a list of pairs of str. *)
Definition urlencode (query : list (str * str)) : result str :=
  l ← for_each (fun '(k, v) =>
                  k' ← quote_plus k;
                  v' ← quote_plus v;
                  Ok (k' ++ py "=" ++ v'))
               query;
  Ok (join (py "&") l).

Definition uses_netloc : list str :=
  map py [""; "ftp"; "http"; "gopher"; "nntp"; "telnet"; "imap"; "wais";
          "file"; "mms"; "https"; "shttp"; "snews"; "prospero"; "rtsp";
          "rtspu"; "rsync"; "svn"; "svn+ssh"; "sftp"; "nfs"; "git";
          "git+ssh"; "ws"; "wss"]%string.

Definition scheme_chars (c : N) : bool :=
  is_lower c || is_upper c || is_digit c ||
  (c =? ch "+") || (c =? ch "-") || (c =? ch ".").

(** [_WHATWG_C0_CONTROL_OR_SPACE] *)
Definition c0_control_or_space (c : N) : bool := c <=? 32.

(** [_splitnetloc(url, 2)] on a [url] that starts with ['//']: the text up to
    the first of ['/?#'], and the rest. *)
Definition splitnetloc (url : str) : str * str :=
  span (fun c => negb ((c =? ch "/") || (c =? ch "?") || (c =? ch "#")))
       (drop 2 url).

(** [re.match(r"\Av[a-fA-F0-9]+\..+\Z", hostname)] *)
Definition is_ipvfuture (hostname : str) : bool :=
  match hostname with
  | v :: rest =>
      (v =? ch "v") &&
      let '(hex, r) := span (fun c => bool_decide (is_Some (hex_value c))) rest in
      negb (str_eqb hex []) &&
      match r with
      | dot :: tail =>
          (dot =? ch ".") && negb (str_eqb tail []) && negb (has_char 10 tail)
      | [] => false
      end
  | [] => false
  end.

Section urllib.
Context {U : Unicode}.

Definition check_bracketed_host (hostname : str) : result unit :=
  if startswith (py "v") hostname then
    if is_ipvfuture hostname then Ok tt else Raise ValueError
  else
    match ip_address hostname with
    | None => Raise ValueError
    | Some IPv4 => Raise ValueError
    | Some IPv6 => Ok tt
    end.

Definition check_bracketed_netloc (netloc : str) : result unit :=
  let hostname_and_port := rpartition_tail (ch "@") netloc in
  match partition_char (ch "[") hostname_and_port with
  | (before_bracket, Some bracketed) =>
      match before_bracket with
      | _ :: _ => Raise ValueError
      | [] =>
          let '(hostname, port) := partition_char (ch "]") bracketed in
          let port := default [] port in
          if negb (str_eqb port []) && negb (startswith (py ":") port)
          then Raise ValueError
          else check_bracketed_host hostname
      end
  | (_, None) =>
      check_bracketed_host (split1_head (ch ":") hostname_and_port)
  end.

Definition checknetloc (netloc : str) : result unit :=
  if str_eqb netloc [] || forallb is_ascii netloc then Ok tt
  else
    let n := remove_char (ch "?") (remove_char (ch "#")
               (remove_char (ch ":") (remove_char (ch "@") netloc))) in
    let netloc2 := nfkc n in
    if str_eqb n netloc2 then Ok tt
    else if existsb (fun c => has_char c netloc2) (py "/?#@:")
    then Raise ValueError
    else Ok tt.

(** [urlsplit(url)]: scheme, netloc, path, query, fragment. The scheme is
    lowered with [ascii_lower_char]: it consists of [scheme_chars], on
    which [str.lower] is the ASCII mapping. *)
Definition urlsplit (url : str) : result (str * str * str * str * str) :=
  let url := lstrip_of c0_control_or_space url in
  let url := remove_char 10 (remove_char 13 (remove_char 9 url)) in
  let '(scheme, url) :=
    match partition_char (ch ":") url with
    | (c0 :: before, Some after) =>
        if (is_upper c0 || is_lower c0) && forallb scheme_chars (c0 :: before)
        then (map ascii_lower_char (c0 :: before), after)
        else ([], url)
    | _ => ([], url)
    end in
  '(netloc, url) ←
    (if startswith (py "//") url then
       let '(netloc, rest) := splitnetloc url in
       let lb := has_char (ch "[") netloc in
       let rb := has_char (ch "]") netloc in
       if (lb && negb rb) || (rb && negb lb) then Raise ValueError
       else
         _ ← (if lb && rb then check_bracketed_netloc netloc else Ok tt);
         Ok (netloc, rest)
     else Ok ([], url));
  let '(url, fragment) := partition_char (ch "#") url in
  let fragment := default [] fragment in
  let '(url, query) := partition_char (ch "?") url in
  let query := default [] query in
  _ ← checknetloc netloc;
  Ok (scheme, netloc, url, query, fragment).

End urllib.

(** [urlunsplit((scheme, netloc, url, query, fragment))] *)
Definition urlunsplit (parts : str * str * str * str * str) : str :=
  let '(scheme, netloc, url, query, fragment) := parts in
  let url :=
    if negb (str_eqb netloc []) ||
       (negb (str_eqb scheme []) && existsb (str_eqb scheme) uses_netloc &&
        negb (startswith (py "//") url))
    then
      let url := if negb (str_eqb url []) && negb (startswith (py "/") url)
                 then py "/" ++ url else url in
      py "//" ++ netloc ++ url
    else url in
  let url := if negb (str_eqb scheme []) then scheme ++ py ":" ++ url else url in
  let url := if negb (str_eqb query []) then url ++ py "?" ++ query else url in
  let url := if negb (str_eqb fragment []) then url ++ py "#" ++ fragment
             else url in
  url.

(** ** link_fix.py: the tracking parameter *)

Section strip.
Context {U : Unicode}.

Definition strip_chatgpt_utm (url : str) : result str :=
  if negb (contains (py "utm_source=chatgpt.com") url) then Ok url
  else
    '(scheme, netloc, path, query, fragment) ← urlsplit url;
    let query_pairs := parse_qsl query in
    let filtered :=
      List.filter
        (fun '(k, v) =>
           negb (str_eqb k (py "utm_source") && str_eqb v (py "chatgpt.com")))
        query_pairs in
    new_query ← urlencode filtered;
    Ok (urlunsplit (scheme, netloc, path, new_query, fragment)).

End strip.

(** ** re: the two link patterns *)

(** A scan of the subject, as [sub] and [finditer] make it: characters
    outside every match, and the matches, from left to right. *)
Inductive piece (M : Type) := Lit (c : N) | Found (m : M).
Arguments Lit {M} c.
Arguments Found {M} m.

(** [try_match prev s] tries the pattern at the start of [s], [prev] being
    the character before it in the subject (for the lookbehind); it returns
    the match and its length. [skip] counts the characters of the current
    match still to pass: the next attempt starts where the match ended. *)
Fixpoint re_scan {M} (try_match : option N -> str -> option (M * nat))
    (skip : nat) (prev : option N) (s : str) : list (piece M) :=
  match s with
  | [] => []
  | c :: s' =>
      match skip with
      | S k => re_scan try_match k (Some c) s'
      | O =>
          match try_match prev s with
          | Some (m, len) => Found m :: re_scan try_match (len - 1)%nat (Some c) s'
          | None => Lit c :: re_scan try_match O (Some c) s'
          end
      end
  end.

(** [pattern.finditer(s)] *)
Definition re_finditer {M} (try_match : option N -> str -> option (M * nat))
    (s : str) : list M :=
  omap (fun p => match p with Found m => Some m | Lit _ => None end)
       (re_scan try_match O None s).

(** [pattern.sub(repl, s)] for a function [repl] that may raise. *)
Definition re_sub {M} (try_match : option N -> str -> option (M * nat))
    (repl : M -> result str) (s : str) : result str :=
  l ← for_each (fun p => match p with
                         | Found m => repl m
                         | Lit c => Ok [c]
                         end)
               (re_scan try_match O None s);
  Ok (concat l).

(** The lookbehind [(?<!\!)]. *)
Definition not_after_bang (prev : option N) : bool :=
  match prev with
  | Some c => negb (c =? ch "!")
  | None => true
  end.

(** The optional group [(\{[^}]*\})?] at the start of [s]: the text from an
    opening brace to the first closing brace. *)
Definition match_attrs (s : str) : option str :=
  match s with
  | c :: s1 =>
      if c =? ch "{" then
        let '(a, s2) := span (fun x => negb (x =? ch "}")) s1 in
        match s2 with
        | _ :: _ => Some (py "{" ++ a ++ py "}")
        | [] => None
        end
      else None
  | [] => None
  end.

Record http_link := {
  hl_text : str;
  hl_url : str;
  hl_attrs : option str
}.

(** [MARKDOWN_HTTP_LINK_PATTERN] tried at one position. Each negated class
    stops at the first occurrence of its delimiter, which the pattern
    requires next, so there is one way to match at most. *)
Definition match_http_link (prev : option N) (s : str)
    : option (http_link * nat) :=
  if not_after_bang prev then
    match s with
    | c :: s1 =>
        if c =? ch "[" then
          let '(text, s2) := span (fun x => negb (x =? ch "]")) s1 in
          match text, s2 with
          | _ :: _, _ :: s3 =>
              if startswith (py "(http") s3 then
                let '(u, s4) := span (fun x => negb (x =? ch ")")) (drop 5 s3) in
                match u, s4 with
                | _ :: _, _ :: s5 =>
                    let attrs := match_attrs s5 in
                    Some ({| hl_text := text; hl_url := py "http" ++ u;
                             hl_attrs := attrs |},
                          (length text + length u + 8
                           + length (default [] attrs))%nat)
                | _, _ => None
                end
              else None
          | _, _ => None
          end
        else None
    | [] => None
    end
  else None.

Record md_link := {
  ml_text : str;
  ml_dest : str
}.

(** [MARKDOWN_LINK_PATTERN] tried at one position. *)
Definition match_md_link (prev : option N) (s : str)
    : option (md_link * nat) :=
  if not_after_bang prev then
    match s with
    | c :: s1 =>
        if c =? ch "[" then
          let '(text, s2) := span (fun x => negb (x =? ch "]")) s1 in
          match text, s2 with
          | _ :: _, _ :: s3 =>
              if startswith (py "(") s3 then
                let '(d, s4) := span (fun x => negb (x =? ch ")")) (drop 1 s3) in
                match d, s4 with
                | _ :: _, _ :: _ =>
                    Some ({| ml_text := text; ml_dest := d |},
                          (length text + length d + 4)%nat)
                | _, _ => None
                end
              else None
          | _, _ => None
          end
        else None
    | [] => None
    end
  else None.

(** [target\s*=\s*("_blank"|_blank)] tried at the start of [s]. *)
Definition match_target_blank (s : str) : bool :=
  startswith (py "target") s &&
  match str_lstrip (drop 6 s) with
  | c :: s1 =>
      (c =? ch "=") &&
      (let s2 := str_lstrip s1 in
       startswith (34 :: py "_blank" ++ [34]) s2 || startswith (py "_blank") s2)
  | [] => false
  end.

(** [re.search]: the pattern tried at every position. *)
Fixpoint re_search (m : str -> bool) (s : str) : bool :=
  m s ||
  match s with
  | [] => false
  | _ :: s' => re_search m s'
  end.

(** [sorted(l, key=key)] for keys that are str: a stable sort. An element is
    placed before the first one whose key is not smaller, so equal keys keep
    their order. *)
Fixpoint insert_by {A} (key : A -> str) (x : A) (l : list A) : list A :=
  match l with
  | [] => [x]
  | y :: l' =>
      if str_leb (key x) (key y) then x :: l else y :: insert_by key x l'
  end.

Fixpoint sorted {A} (key : A -> str) (l : list A) : list A :=
  match l with
  | [] => []
  | x :: l' => insert_by key x (sorted key l')
  end.

(** ** pathlib (PurePosixPath) *)

(** A parsed path: the root (empty, one slash or two slashes) and the
    components after it. *)
Record Path := {
  p_root : str;
  p_parts : list str
}.

Global Instance Path_eq_dec : EqDecision Path.
Proof. solve_decision. Defined.

Definition is_slash (c : N) : bool := c =? ch "/".

(** [Path(s)]: repeated slashes and ['.'] components vanish, ['..'] stays;
    exactly two leading slashes are kept as a root of their own. *)
Definition parse_path (s : str) : Path :=
  let stripped := lstrip_of is_slash s in
  let n := (length s - length stripped)%nat in
  {| p_root := match n with
               | O => []
               | 2%nat => py "//"
               | _ => py "/"
               end;
     p_parts := filter (fun x => x ≠ [] ∧ x ≠ py ".")
                       (split_char (ch "/") stripped) |}.

(** [str(p)] *)
Definition path_str (p : Path) : str :=
  match p_root p, p_parts p with
  | [], [] => py "."
  | r, ps => r ++ join (py "/") ps
  end.

(** [p / s] *)
Definition path_join (p : Path) (s : str) : Path :=
  let q := parse_path s in
  match p_root q with
  | [] => {| p_root := p_root p; p_parts := p_parts p ++ p_parts q |}
  | _ => q
  end.

(** [p.parent] *)
Definition path_parent (p : Path) : Path :=
  {| p_root := p_root p; p_parts := removelast (p_parts p) |}.

(** [p.relative_to(other).as_posix()] *)
Definition relative_to_posix (p other : Path) : result str :=
  let abs_parts (q : Path) :=
    match p_root q with
    | [] => p_parts q
    | r => [] :: r :: p_parts q
    end in
  let n := length (abs_parts other) in
  if match n with
     | O => negb (str_eqb (p_root p) [])
     | _ => negb (bool_decide (take n (abs_parts p) = abs_parts other))
     end
  then Raise ValueError
  else Ok (path_str {| p_root := match n with 1%nat => p_root p | _ => [] end;
                       p_parts := drop n (abs_parts p) |}).

(** ** The file system and the console *)

(** Files hold text (they are taken to be valid UTF-8); there are no symbolic
    links. Nodes are keyed by their absolute path, the root [[]] is a
    directory. *)
Inductive node := File (content : str) | Dir.

Record world := {
  fs : gmap (list str) node;
  cwd : list str;
  stdout : list str
}.

Definition node_at (t : gmap (list str) node) (q : list str) : option node :=
  match q with
  | [] => Some Dir
  | _ => t !! q
  end.

Definition is_dir (t : gmap (list str) node) (q : list str) : bool :=
  match node_at t q with Some Dir => true | _ => false end.

Definition is_node (t : gmap (list str) node) (q : list str) : bool :=
  match node_at t q with Some _ => true | None => false end.

(** Path resolution from the directory [cur]: every step is taken in an
    existing directory, ['..'] goes to its parent (the root is its own
    parent). *)
Fixpoint walk (t : gmap (list str) node) (cur : list str) (parts : list str)
    : option (list str) :=
  match parts with
  | [] => Some cur
  | c :: rest =>
      if is_dir t cur then
        if str_eqb c (py "..") then walk t (removelast cur) rest
        else walk t (cur ++ [c]) rest
      else None
  end.

Definition resolve (w : world) (p : Path) : option (list str) :=
  walk (fs w) (match p_root p with [] => cwd w | _ => [] end) (p_parts p).

(** [p.exists()] *)
Definition path_exists (w : world) (p : Path) : bool :=
  match resolve w p with
  | Some q => is_node (fs w) q
  | None => false
  end.

(** Newline translation of text mode on reading. *)
Fixpoint universal_newlines (s : str) : str :=
  match s with
  | [] => []
  | c :: s' =>
      if c =? 13 then
        10 :: match s' with
              | d :: s'' => if d =? 10 then universal_newlines s''
                            else universal_newlines s'
              | [] => []
              end
      else c :: universal_newlines s'
  end.

(** [p.read_text(encoding="utf-8")] *)
Definition read_text (w : world) (p : Path) : result str :=
  match resolve w p with
  | Some q =>
      match node_at (fs w) q with
      | Some (File c) => Ok (universal_newlines c)
      | _ => Raise OSError
      end
  | None => Raise OSError
  end.

Definition set_fs (w : world) (t : gmap (list str) node) : world :=
  {| fs := t; cwd := cwd w; stdout := stdout w |}.

(** [p.write_text(text, encoding="utf-8")] *)
Definition write_text (w : world) (p : Path) (text : str)
    : world * result unit :=
  match resolve w p with
  | Some q =>
      if is_dir (fs w) q then (w, Raise OSError)
      else (set_fs w (<[q := File text]> (fs w)), Ok tt)
  | None => (w, Raise OSError)
  end.

(** [p.unlink()] *)
Definition unlink (w : world) (p : Path) : world * result unit :=
  match resolve w p with
  | Some q =>
      match node_at (fs w) q with
      | Some (File _) => (set_fs w (delete q (fs w)), Ok tt)
      | _ => (w, Raise OSError)
      end
  | None => (w, Raise OSError)
  end.

(** [print(line)] *)
Definition print (w : world) (line : str) : world :=
  {| fs := fs w; cwd := cwd w; stdout := stdout w ++ [line] |}.

(** ** link_fix.py *)

Definition SKIP_URL_SUBSTRINGS : list str := [py "img.shields.io"].

Definition ASSET_SUFFIXES : list str :=
  map py [".png"; ".svg"; ".jpg"; ".jpeg"; ".gif"; ".webp"; ".pdf"]%string.

Definition strip_fragment_and_query (url : str) : str :=
  str_strip (split1_head (ch "?") (split1_head (ch "#") url)).

(** [s[1:-1]] *)
Definition slice_1_m1 (s : str) : str := removelast (tail s).

(** [s[:-n]] for a positive [n] *)
Definition drop_last (n : nat) (s : str) : str := take (length s - n) s.

Definition attrs_already_have_target_blank (attrs : str) : bool :=
  re_search match_target_blank attrs.

Definition normalize_to_brace_attrs (existing_attrs : str) : str :=
  let inner := str_strip (slice_1_m1 (str_strip existing_attrs)) in
  if startswith (py ":") inner then str_strip (drop 1 inner) else inner.

Definition is_templated_link (dest : str) : bool :=
  let d := str_strip dest in
  existsb (fun p => startswith p d) [py "{{<"; py "{{%"].

Section link_fix.
Context {U : Unicode}.

(** The module-level [repo] and [server], read from the environment. *)
Variable repo : option str.
Variable server : str.

Definition is_asset_link (url : str) : bool :=
  let clean := str_lower (strip_fragment_and_query url) in
  existsb (fun suffix => endswith suffix clean) ASSET_SUFFIXES.

Definition should_skip_external (url : str) : bool :=
  existsb (fun s => contains s url) SKIP_URL_SUBSTRINGS || is_asset_link url.

(** The replacement function of [append_target_blank_to_http_links]. *)
Definition add_target_blank (m : http_link) : result str :=
  let text := hl_text m in
  let url := hl_url m in
  let existing_attrs := hl_attrs m in
  url ← strip_chatgpt_utm url;
  let link := py "[" ++ text ++ py "](" ++ url ++ py ")" in
  if should_skip_external url then Ok (link ++ default [] existing_attrs)
  else
    match existing_attrs with
    | Some ((_ :: _) as existing_attrs) =>
        if attrs_already_have_target_blank existing_attrs
        then Ok (link ++ existing_attrs)
        else
          let inner := normalize_to_brace_attrs existing_attrs in
          match inner with
          | _ :: _ => Ok (link ++ py "{ " ++ inner ++ py " target=_blank }")
          | [] => Ok (link ++ py "{ target=_blank }")
          end
    | _ => Ok (link ++ py "{target=_blank}")
    end.

Definition append_target_blank_to_http_links (w : world) (file_path : Path)
    : world * result bool :=
  match read_text w file_path with
  | Raise e => (w, Raise e)
  | Ok content =>
      match re_sub match_http_link add_target_blank content with
      | Raise e => (w, Raise e)
      | Ok updated =>
          if negb (str_eqb updated content) then
            match write_text w file_path updated with
            | (w, Raise e) => (w, Raise e)
            | (w, Ok _) =>
                (print w (py "Updated external links in "
                          ++ path_str file_path), Ok true)
            end
          else
            (print w (py "No changes needed in " ++ path_str file_path),
             Ok false)
      end
  end.

(** The target of a link without fragment, query, surrounding blanks and a
    final [.html]: the first steps of [candidates_for_quarto_source]. *)
Definition clean_target (link : str) : str :=
  let clean := str_strip (split1_head (ch "?") (split1_head (ch "#") link)) in
  if endswith (py ".html") clean then drop_last 5 clean else clean.

(** [is_dir] and [base] as [candidates_for_quarto_source] computes them. *)
Definition target_is_dir (link : str) : bool :=
  endswith (py "/") (clean_target link).

Definition target_base (file_path : Path) (link : str) (repo_root : Path)
    : Path :=
  let clean := clean_target link in
  let clean := if target_is_dir link then rstrip_of is_slash clean
               else clean in
  if startswith (py "/") clean
  then path_join repo_root (lstrip_of is_slash clean)
  else path_join (path_parent file_path) clean.

Definition candidates_for_quarto_source (file_path : Path) (link : str)
    (repo_root : Path) : list Path :=
  let is_dir := target_is_dir link in
  let base := target_base file_path link repo_root in
  if is_dir then
    [path_join base (py "index.qmd"); path_join base (py "index.md")]
  else
    [parse_path (path_str base ++ py ".qmd");
     parse_path (path_str base ++ py ".md");
     path_join base (py "index.qmd");
     path_join base (py "index.md")].

(** The tests of the loop of [check_internal_links] that skip a link. *)
Definition is_skipped (link : str) : bool :=
  is_templated_link link ||
  existsb (fun p => startswith p link)
          (map py ["http://"; "https://"; "mailto:"; "#"; "tel:"]%string) ||
  existsb (str_eqb link) [py "{nc[k]}"] ||
  existsb (fun s => contains s link) SKIP_URL_SUBSTRINGS ||
  is_asset_link link ||
  contains (py "_news") link.

(** One turn of the loop of [check_internal_links]: what the match adds to
    [broken], if anything. *)
Definition check_link (w : world) (file_path repo_root : Path) (m : md_link)
    : result (option (str * list Path)) :=
  link ← strip_chatgpt_utm (str_strip (ml_dest m));
  if is_skipped link then Ok None
  else
    let cands := candidates_for_quarto_source file_path link repo_root in
    if negb (existsb (path_exists w) cands) then Ok (Some (link, cands))
    else Ok None.

Definition check_internal_links (w : world) (file_path repo_root : Path)
    : result (list (str * list Path)) :=
  content ← read_text w file_path;
  found ← for_each (check_link w file_path repo_root)
                   (re_finditer match_md_link content);
  Ok (omap id (found : list (option (str * list Path)))).

(** The text [write_broken_links_report] writes for the sorted groups, and
    the exception that stopped it, if any. *)
Fixpoint report_text (repo_root : Path)
    (groups : list (Path * list (str * list Path))) : str * option exn :=
  match groups with
  | [] => ([], None)
  | (src_file, items) :: rest =>
      match relative_to_posix src_file repo_root with
      | Raise e => ([], Some e)
      | Ok rel =>
          let heading :=
            match repo with
            | Some ((_ :: _) as repo) =>
                let edit_url :=
                  server ++ py "/" ++ repo ++ py "/edit/main/" ++ rel in
                py "## In [" ++ rel ++ py "](" ++ edit_url ++ [41; 10; 10]
            | _ => py "## In `" ++ rel ++ [96; 10; 10]
            end in
          let listing :=
            flat_map (fun '(link, _) =>
                        [10] ++ py "```sh" ++ [10] ++ link ++ [10]
                        ++ py "```" ++ [10])
                     items in
          let '(t, e) := report_text repo_root rest in
          (heading ++ py "The following links are broken:" ++ listing
           ++ [10] ++ t, e)
      end
  end.

Definition report_path : Path := parse_path (py "broken_links.md").

(** [broken] is a dict: its items, in insertion order. *)
Definition write_broken_links_report (w : world)
    (broken : list (Path * list (str * list Path))) (repo_root : Path)
    : world * result unit :=
  match broken with
  | [] =>
      let '(w, r) :=
        if path_exists w report_path then unlink w report_path
        else (w, Ok tt) in
      match r with
      | Raise e => (w, Raise e)
      | Ok _ => (print w (py "No broken internal links found."), Ok tt)
      end
  | _ =>
      let '(text, e) :=
        report_text repo_root (sorted (fun x => path_str (fst x)) broken) in
      match write_text w report_path text with
      | (w, Raise e) => (w, Raise e)
      | (w, Ok _) =>
          (w, match e with Some e => Raise e | None => Ok tt end)
      end
  end.

(** The loop that removes duplicates, [seen_lower] being the keys met. *)
Fixpoint dedupe (seen_lower : gset str) (entries : list str) : list str :=
  match entries with
  | [] => []
  | e :: entries' =>
      let key := str_lower e in
      if bool_decide (key ∈ seen_lower) then dedupe seen_lower entries'
      else e :: dedupe ({[key]} ∪ seen_lower) entries'
  end.

(** The first loop of [sort_lycheeignore_file]: the comment lines and the
    entries among the lines of the file. *)
Fixpoint collect (original : list str) : list str * list str :=
  match original with
  | [] => ([], [])
  | line :: rest =>
      let s := str_strip line in
      let '(comments, entries) := collect rest in
      match s with
      | [] => (comments, entries)
      | _ =>
          if startswith (py "#") s then (str_rstrip line :: comments, entries)
          else (comments, s :: entries)
      end
  end.

(** The text [sort_lycheeignore_file] computes from the text of the file
    (the file is read twice, to the same text). *)
Definition out_text (content : str) : str :=
  let original := splitlines content in
  let '(comments, entries) := collect original in
  let deduped := dedupe ∅ entries in
  let deduped_sorted := sorted str_lower deduped in
  let out_lines :=
    (match comments with
     | [] => []
     | _ => comments ++ [[]]
     end) ++ deduped_sorted in
  str_rstrip (join [10] out_lines) ++ [10].

Definition sort_lycheeignore_file (w : world) (path : Path)
    : world * result bool :=
  if negb (path_exists w path) then (w, Ok false)
  else
    match read_text w path with
    | Raise e => (w, Raise e)
    | Ok content =>
        let out := out_text content in
        if negb (str_eqb content out) then
          match write_text w path out with
          | (w, Raise e) => (w, Raise e)
          | (w, Ok _) => (print w (py "Sorted " ++ path_str path), Ok true)
          end
        else (print w (py "No changes needed in " ++ path_str path), Ok false)
    end.

End link_fix.

(** Tables that are exact on ASCII text without bracketed IP literals; the
    examples below are run with them. *)
Definition ascii_tables : Unicode :=
  {| str_lower := map ascii_lower_char;
     nfkc := fun s => s;
     ip_address := fun _ => None |}.

(** A path as pathlib builds it: a root of no, one or two slashes, and
    components that are not empty, not ['.'] and hold no slash. *)
Definition wf_part (x : str) : bool :=
  negb (str_eqb x []) && negb (str_eqb x (py ".")) && negb (has_char (ch "/") x).

Definition wf_path (p : Path) : bool :=
  existsb (str_eqb (p_root p)) [[]; py "/"; py "//"] &&
  forallb wf_part (p_parts p).

(** The two kinds of lines the first loop of [sort_lycheeignore_file]
    keeps. *)
Definition is_comment_line (line : str) : bool :=
  startswith (py "#") (str_strip line).

Definition is_entry_line (line : str) : bool :=
  negb (str_eqb (str_strip line) []) && negb (is_comment_line line).

(** [e] is an entry, and the first one with its key. *)
Definition first_seen {U : Unicode} (e : str) (entries : list str) : Prop :=
  exists pre post,
    entries = pre ++ e :: post /\ ~ In (str_lower e) (map str_lower pre).

(** A text without blanks at either end, as [strip] returns it. *)
Definition trimmed (s : str) : Prop :=
  exists c t, s = c :: t /\ isspace c = false /\
              exists t' d, s = t' ++ [d] /\ isspace d = false.

(** A line holds no line boundary. *)
Definition break_free (l : str) : Prop :=
  forallb (fun c => negb (is_linebreak c)) l = true.

(** The order [sorted] establishes. *)
Definition by_key {A} (key : A -> str) (x y : A) : Prop :=
  str_leb (key x) (key y) = true.

(** The lines of a normalised ignore list: the comments, one empty line when
    there are both comments and entries, the entries. *)
Definition normal_lines (comments sorted_entries : list str) : list str :=
  comments ++
  match comments, sorted_entries with
  | _ :: _, _ :: _ => [[]]
  | _, _ => []
  end ++ sorted_entries.

(** The last steps of [out_text], from the comments and the sorted entries. *)
Definition render (comments deduped_sorted : list str) : str :=
  str_rstrip (join [10] (match comments with
                         | [] => []
                         | _ => comments ++ [[]]
                         end ++ deduped_sorted)) ++ [10].

(** What [quote_plus] writes for one byte, and what [parse_qsl] sees of it
    once plus signs are spaces again. *)
Definition plus_quoter (b : N) : str :=
  if b =? 32 then [43] else quoter (fun _ => false) b.

Definition space_quoter (b : N) : str :=
  if b =? 32 then [32] else quoter (fun _ => false) b.

(** A str that a UTF-8 file can hold: no surrogate, nothing above U+10FFFF. *)
Abbreviation valid_str := (Forall (fun c : N => is_scalar c = true)).

(** The pairs [parse_qsl] reads from one field of the query. *)
Definition parse_field (name_value : str) : list (str * str) :=
  match name_value with
  | [] => []
  | _ =>
      let '(n, v) := partition_char (ch "=") name_value in
      let v := default [] v in
      [(unquote (replace_char (ch "+") (ch " ") n),
        unquote (replace_char (ch "+") (ch " ") v))]
  end.

(** The parameter [strip_chatgpt_utm] drops, as a decoded pair. *)
Definition is_chatgpt_utm (p : str * str) : bool :=
  str_eqb (fst p) (py "utm_source") && str_eqb (snd p) (py "chatgpt.com").

(** A text made of characters that no step of the rewriting touches, with
    one that no scheme holds, and not starting with a hex digit. *)
Definition plain_needle (needle : str) : Prop :=
  forallb always_safe needle = true /\
  existsb (fun c => negb (scheme_chars c)) needle = true /\
  match needle with
  | c :: _ => hex_value c = None
  | [] => False
  end.

(** The marker of the annotator, unquoted and quoted. *)
Definition marker : str := py "target=_blank".
Definition quoted_marker : str := py "target=" ++ [34] ++ py "_blank" ++ [34].

(** ** Data for the examples *)

(** A tree with an old report in the working directory. *)
Definition world_with_report : world :=
  {| fs := {[ [py "repo"] := Dir;
              [py "repo"; py "broken_links.md"] := File (py "old") ]};
     cwd := [py "repo"];
     stdout := [] |}.

(** A site with one page whose text is an image inside a link. *)
Definition world_with_linked_image : world :=
  {| fs := {[ [py "site"] := Dir;
              [py "site"; py "docs"] := Dir;
              [py "site"; py "docs"; py "page.md"] :=
                File (py "[![a](img/foo)](page)") ]};
     cwd := [py "site"];
     stdout := [] |}.

(** A site whose page [docs/guide/page.md] links to [../other], which has no
    source. *)
Definition world_with_dangling_link : world :=
  {| fs := {[ [py "site"] := Dir;
              [py "site"; py "docs"] := Dir;
              [py "site"; py "docs"; py "guide"] := Dir;
              [py "site"; py "docs"; py "guide"; py "page.md"] :=
                File (py "[x](../other) [n](../old_news)") ]};
     cwd := [py "site"];
     stdout := [] |}.


(** An ignore list with a comment that ends in a blank, and entries out of
    order, one of them twice up to case. *)
Definition unsorted_ignore_list : str :=
  py "# c " ++ [10] ++ py "b" ++ [10] ++ py "A" ++ [10] ++ py "a" ++ [10].

Definition world_with_ignore_list : world :=
  {| fs := {[ [py "site"] := Dir;
              [py "site"; py ".lycheeignore"] := File unsorted_ignore_list ]};
     cwd := [py "site"];
     stdout := [] |}.

(** ** Definitions for the further properties *)

(** Two files with a broken link each, as [main] collects them. *)
Definition two_broken_files : list (Path * list (str * list Path)) :=
  [(parse_path (py "/repo/docs/b.md"), [(py "../x", [])]);
   (parse_path (py "/repo/docs/a.md"), [(py "y", []); (py "z/", [])])].

(** The character before the text that follows [pre], [prev] being the one
    before [pre]. *)
Definition prev_after (prev : option N) (pre : str) : option N :=
  match last pre with
  | Some c => Some c
  | None => prev
  end.

(** The block [add_target_blank] writes around the attributes [inner] of a
    block without marker. *)
Definition marked_block (inner : str) : str :=
  match inner with
  | [] => py "{ target=_blank }"
  | _ => py "{ " ++ inner ++ py " target=_blank }"
  end.

(** [pattern.sub(repl, s)] from a place inside the subject, [prev] being
    the character before [s]. *)
Definition re_sub_from {M} (try_match : option N -> str -> option (M * nat))
    (repl : M -> result str) (prev : option N) (s : str) : result str :=
  l ← for_each (fun p => match p with
                         | Found m => repl m
                         | Lit c => Ok [c]
                         end)
               (re_scan try_match O prev s);
  Ok (concat l).

(** The link [add_target_blank] rebuilds when the url is left as it is, and
    what it puts after it. *)
Definition link_text (m : http_link) : str :=
  py "[" ++ hl_text m ++ py "](" ++ hl_url m ++ py ")".

Section new_block.
Context {U : Unicode}.

Definition new_block (m : http_link) : str :=
  if should_skip_external (hl_url m) then default [] (hl_attrs m)
  else
    match hl_attrs m with
    | Some ((_ :: _) as existing_attrs) =>
        if attrs_already_have_target_blank existing_attrs then existing_attrs
        else marked_block (normalize_to_brace_attrs existing_attrs)
    | _ => py "{target=_blank}"
    end.

End new_block.

Abbreviation sub_from := (re_sub_from match_http_link add_target_blank).

(** A text that goes on as a link does after its opening bracket. *)
Definition link_ahead (s : str) : Prop :=
  exists text u rest,
    s = text ++ py "](http" ++ u ++ py ")" ++ rest /\
    text <> [] /\ has_char (ch "]") text = false /\
    u <> [] /\ has_char (ch ")") u = false.

(** ** pathlib and os: what [iter_content_files] and [main] call *)

(** [p.name] *)
Definition path_name (p : Path) : str := default [] (last (p_parts p)).

(** [p.suffix]: the name from its last dot on, when that dot is neither the
    first nor the last character of the name. *)
Definition path_suffix (p : Path) : str :=
  let name := path_name p in
  let tail := rpartition_tail (ch ".") name in
  if has_char (ch ".") name && (0 <? length tail)%nat
     && (length tail + 1 <? length name)%nat
  then ch "." :: tail
  else [].

(** [p.is_file()] *)
Definition is_file (w : world) (p : Path) : bool :=
  match resolve w p with
  | Some q => match node_at (fs w) q with
              | Some (File _) => true
              | _ => false
              end
  | None => false
  end.

(** [p.relative_to(other).parts] *)
Definition relative_to_parts (p other : Path) : result (list str) :=
  let abs_parts (q : Path) :=
    match p_root q with
    | [] => p_parts q
    | r => [] :: r :: p_parts q
    end in
  let n := length (abs_parts other) in
  if match n with
     | O => negb (str_eqb (p_root p) [])
     | _ => negb (bool_decide (take n (abs_parts p) = abs_parts other))
     end
  then Raise ValueError
  else Ok (drop n (abs_parts p)).

(** [Path.cwd()] *)
Definition path_cwd (w : world) : Path :=
  {| p_root := py "/"; p_parts := cwd w |}.

(** The path of an entry [rel] below [root], as [rglob] builds it. *)
Definition make_child (root : Path) (rel : list str) : Path :=
  {| p_root := p_root root; p_parts := p_parts root ++ rel |}.

(** A name an entry of a directory can have. *)
Definition entry_name (n : str) : bool :=
  wf_part n && negb (str_eqb n (py "..")).

(** [os.scandir]: the names of the entries of a directory, in the order in
    which the file system lists them. The order is the file system's own;
    it is taken to depend on the names in the tree only, not on what the
    files hold. *)
Class Scandir := {
  scandir : gset (list str) -> list str -> list str
}.

(** What is asked of a listing: it gives the entries of the directory. *)
Definition lists_entries (L : Scandir) : Prop :=
  forall names d n,
    In n (scandir names d) <-> d ++ [n] ∈ names /\ entry_name n = true.

(** Every step of [rel] from [cur] down is a step in a directory to an
    entry of it. *)
Fixpoint dirs_along (t : gmap (list str) node) (cur rel : list str) : bool :=
  match rel with
  | [] => true
  | n :: rel' =>
      is_dir t cur && entry_name n && dirs_along t (cur ++ [n]) rel'
  end.

(** A length no path of the tree exceeds. *)
Definition depth (t : gmap (list str) node) : nat :=
  foldr (fun kv acc => max (length kv.1) acc) 0%nat (map_to_list t).

(** The set [yielded] of [rglob]: a path is yielded once. *)
Fixpoint first_occurrences (yielded : list Path) (l : list Path) : list Path :=
  match l with
  | [] => []
  | p :: l' =>
      if bool_decide (p ∈ yielded) then first_occurrences yielded l'
      else p :: first_occurrences (p :: yielded) l'
  end.

Section rglob.
Context {L : Scandir}.

(** [_iterate_directories]: the directory [r/rel] and the directories
    below it, each before its subdirectories. The recursion of the source
    ends with the tree; here it is cut at [fuel] levels, and [rglob] gives
    it as many as the longest path of the tree has. *)
Fixpoint iterate_directories (fuel : nat) (t : gmap (list str) node)
    (r rel : list str) : list (list str) :=
  rel ::
  match fuel with
  | O => []
  | S fuel' =>
      flat_map (fun name =>
                  if is_dir t (r ++ rel ++ [name])
                  then iterate_directories fuel' t r (rel ++ [name])
                  else [])
               (scandir (dom t) (r ++ rel))
  end.

(** [root.rglob("*")]: every entry of every directory from [root] down. *)
Definition rglob (w : world) (root : Path) : list Path :=
  match resolve w root with
  | Some r =>
      if is_dir (fs w) r then
        first_occurrences []
          (flat_map (fun rel =>
                       map (fun name => make_child root (rel ++ [name]))
                           (scandir (dom (fs w)) (r ++ rel)))
                    (iterate_directories (depth (fs w)) (fs w) r []))
      else []
  | None => []
  end.

(** One turn of the loop of [iter_content_files]: the path, if it is
    yielded. *)
Definition content_file (w : world) (root p : Path) : result (option Path) :=
  if negb (is_file w p) then Ok None
  else if negb (bool_decide (path_suffix p ∈ [py ".md"; py ".qmd"]))
  then Ok None
  else
    parts ← relative_to_parts p root;
    if (length parts =? 1)%nat then Ok None else Ok (Some p).

(** [iter_content_files(root)], as the list of what it yields. *)
Definition iter_content_files (w : world) (root : Path)
    : result (list Path) :=
  found ← for_each (content_file w root) (rglob w root);
  Ok (omap id (found : list (option Path))).

End rglob.


Section main.
Context {U : Unicode} {L : Scandir}.
Variable repo : option str.
Variable server : str.

(** The second loop of [main]: the files that have broken links, each with
    its list. The dict is the list of its items in the order of insertion;
    [rglob] yields a path once, so no key is assigned twice. *)
Definition collect_broken (w : world) (root : Path) (files : list Path)
    : result (list (Path * list (str * list Path))) :=
  found ← for_each (fun fp =>
                      b ← check_internal_links w fp root;
                      Ok (match b with
                          | [] => None
                          | _ => Some (fp, b)
                          end))
                   files;
  Ok (omap id (found : list (option (Path * list (str * list Path))))).


End main.

(** A listing for the examples: the entries with a proper name, in the
    order of the set of names. *)
Definition names_in (names : gset (list str)) (d : list str) : list str :=
  omap (fun k =>
          if bool_decide (take (length d) k = d /\ length k = S (length d))
          then match last k with
               | Some n => if entry_name n then Some n else None
               | None => None
               end
          else None)
       (elements names).

Definition listing_by_name : Scandir := {| scandir := names_in |}.

(** A site with a page that has a link to annotate and a link that is
    broken, a top-level README, an old report and an ignore list. *)
Definition small_site : world :=
  {| fs := {[ [py "site"] := Dir;
              [py "site"; py "README.md"] := File (py "[r](http://r.org)");
              [py "site"; py "broken_links.md"] := File (py "old");
              [py "site"; py ".lycheeignore"] := File (py "b" ++ [10] ++ py "a" ++ [10]);
              [py "site"; py "docs"] := Dir;
              [py "site"; py "docs"; py "notes.txt"] := File (py "[t](http://t.org)");
              [py "site"; py "docs"; py "a.md"] :=
                File (py "[x](http://x.org) [y](missing)");
              [py "site"; py "docs"; py "b.qmd"] := File (py "[a](a.html)") ]};
     cwd := [py "site"];
     stdout := [] |}.


(** * Properties *)

(** Closed literals are computed before they are compared. *)
Ltac eval_py :=
  repeat match goal with
         | |- context [py ?s] =>
             let v := eval vm_compute in (py s) in change (py s) with v
         | |- context [ch ?a] =>
             let v := eval vm_compute in (ch a) in change (ch a) with v
         end.

Lemma str_eqb_true a b : str_eqb a b = true <-> a = b.
Proof. unfold str_eqb. apply bool_decide_eq_true. Qed.

Lemma str_eqb_false a b : str_eqb a b = false <-> a <> b.
Proof. unfold str_eqb. apply bool_decide_eq_false. Qed.

Lemma startswith_app p s : startswith p (p ++ s) = true.
Proof.
  induction p as [|a p IH]; simpl; [reflexivity|].
  now rewrite N.eqb_refl, IH.
Qed.

Lemma startswith_spec p s :
  startswith p s = true <-> exists t, s = p ++ t.
Proof.
  split.
  - revert s. induction p as [|a p IH]; intros s Hs.
    + now exists s.
    + destruct s as [|b s]; simpl in Hs; [discriminate|].
      apply andb_true_iff in Hs as [Hab Hs]. apply N.eqb_eq in Hab as ->.
      destruct (IH _ Hs) as [t ->]. now exists t.
  - intros [t ->]. apply startswith_app.
Qed.

Lemma contains_spec needle hay :
  contains needle hay = true <-> exists pre post, hay = pre ++ needle ++ post.
Proof.
  split.
  - induction hay as [|c hay IH]; simpl; intros Hc.
    + rewrite orb_false_r in Hc. apply startswith_spec in Hc as [t Ht].
      exists [], t. exact Ht.
    + apply orb_true_iff in Hc as [Hc|Hc].
      * apply startswith_spec in Hc as [t Ht]. exists [], t. exact Ht.
      * destruct (IH Hc) as (pre & post & ->). now exists (c :: pre), post.
  - intros (pre & post & ->).
    induction pre as [|c pre IH]; simpl.
    + assert (Hsw := startswith_app needle post).
      destruct (needle ++ post); simpl; now rewrite Hsw.
    + rewrite IH. apply orb_true_r.
Qed.

Lemma re_search_app m pre s : m s = true -> re_search m (pre ++ s) = true.
Proof.
  intros Hm. induction pre as [|c pre IH]; simpl.
  - destruct s; simpl; now rewrite Hm.
  - rewrite IH. apply orb_true_r.
Qed.

Lemma for_each_Ok {A B} (f : A -> result B) l :
  (forall a, In a l -> exists b, f a = Ok b) ->
  exists bs, for_each f l = Ok bs.
Proof.
  induction l as [|a l IH]; intros Hl; simpl; [now eexists|].
  destruct (Hl a (or_introl eq_refl)) as [b ->].
  destruct IH as [bs ->]; [intros; apply Hl; now right|].
  now eexists.
Qed.

Lemma for_each_Forall2 {A B} (f : A -> result B) l bs :
  for_each f l = Ok bs -> Forall2 (fun a b => f a = Ok b) l bs.
Proof.
  revert bs. induction l as [|a l IH]; simpl; intros bs Hbs.
  - injection Hbs as <-. constructor.
  - destruct (f a) as [b|] eqn:Ea; simpl in Hbs; [|discriminate].
    destruct (for_each f l) as [bs'|]; simpl in Hbs; [|discriminate].
    injection Hbs as <-. constructor; [exact Ea | now apply IH].
Qed.

(** ** The report writer (C8) *)

Section report.
Context (repo : option str) (server : str).

(** C8. With an empty map of broken links, [write_broken_links_report]
    removes the report when it is a file, creates or changes no node, and
    leaves every other node as it was; when there is no report it changes
    nothing at all. *)
Theorem empty_report_deletes_old_report (w : world) (repo_root : Path) :
  let w' := fst (write_broken_links_report repo server w [] repo_root) in
  let r := snd (write_broken_links_report repo server w [] repo_root) in
  (forall q c, resolve w report_path = Some q ->
               node_at (fs w) q = Some (File c) ->
               fs w' = delete q (fs w) /\ r = Ok tt) /\
  (path_exists w report_path = false -> fs w' = fs w /\ r = Ok tt) /\
  (forall q, resolve w report_path <> Some q -> fs w' !! q = fs w !! q) /\
  fs w' ⊆ fs w /\
  cwd w' = cwd w.
Proof.
  unfold write_broken_links_report, path_exists, unlink, is_node.
  destruct (resolve w report_path) as [q|] eqn:Eq.
  - destruct (node_at (fs w) q) as [[c|]|] eqn:Ef; cbn [fst snd];
      (split; [|split; [|split; [|split]]]); try reflexivity;
      try discriminate.
    + intros q0 c0 [= <-] _. split; reflexivity.
    + intros q0 Hq0. apply lookup_delete_ne. congruence.
    + apply delete_subseteq.
    + intros q0 c0 [= <-] Hf. rewrite Ef in Hf. discriminate.
    + intros q0 c0 [= <-] Hf. rewrite Ef in Hf. discriminate.
    + intros _. split; reflexivity.
  - cbn [fst snd]. (split; [|split; [|split; [|split]]]); try reflexivity.
    + discriminate.
    + intros _. split; reflexivity.
Qed.

End report.

Lemma empty_report_deletes_old_report_witness :
  fs (fst (write_broken_links_report None [] world_with_report []
             (parse_path (py "/repo"))))
  = delete [py "repo"; py "broken_links.md"] (fs world_with_report).
Proof.
  pose proof (empty_report_deletes_old_report None [] world_with_report
                (parse_path (py "/repo"))) as (Hdel & _).
  destruct (Hdel [py "repo"; py "broken_links.md"] (py "old")) as [Hfs _].
  - vm_compute. reflexivity.
  - vm_compute. reflexivity.
  - exact Hfs.
Defined.

(** ** Paths *)

Lemma split_char_no c s : has_char c s = false -> split_char c s = [s].
Proof.
  induction s as [|x s IH]; simpl; [reflexivity|].
  intros Hx. apply orb_false_iff in Hx as [Hx Hs].
  rewrite N.eqb_sym, Hx, (IH Hs). reflexivity.
Qed.

Lemma split_char_cons_sep c a b :
  has_char c a = false -> split_char c (a ++ c :: b) = a :: split_char c b.
Proof.
  induction a as [|x a IH]; simpl; intros Ha.
  - now rewrite N.eqb_refl.
  - apply orb_false_iff in Ha as [Hx Ha].
    rewrite N.eqb_sym, Hx, (IH Ha). reflexivity.
Qed.

Lemma has_char_app c a b : has_char c (a ++ b) = has_char c a || has_char c b.
Proof. unfold has_char. apply existsb_app. Qed.

Lemma join_cons sep (l : str) (ls : list str) :
  ls <> [] -> join sep (l :: ls) = l ++ sep ++ join sep ls.
Proof. destruct ls; [congruence | reflexivity]. Qed.

(** Splitting a joined list of slash-free parts, the last one extended. *)
Lemma split_join_suffix c (ps : list str) (x sfx : str) :
  forallb (fun y => negb (has_char c y)) (ps ++ [x]) = true ->
  has_char c sfx = false ->
  split_char c (join [c] (ps ++ [x]) ++ sfx) = ps ++ [x ++ sfx].
Proof.
  intros Hps Hsfx. induction ps as [|y ps IH].
  - simpl in *. rewrite andb_true_r in Hps. apply negb_true_iff in Hps.
    apply split_char_no. now rewrite has_char_app, Hps, Hsfx.
  - change ((y :: ps) ++ [x]) with (y :: (ps ++ [x])) in *.
    simpl in Hps. apply andb_true_iff in Hps as [Hy Hps].
    apply negb_true_iff in Hy.
    rewrite join_cons by (destruct ps; discriminate).
    rewrite <- !app_assoc. simpl ([c] ++ _).
    rewrite split_char_cons_sep by exact Hy.
    now rewrite (IH Hps).
Qed.

Lemma lstrip_of_app_stop f a b :
  forallb f a = true ->
  match b with [] => True | c :: _ => f c = false end ->
  lstrip_of f (a ++ b) = b.
Proof.
  intros Ha Hb. induction a as [|x a IH]; simpl in *.
  - destruct b as [|c b]; [reflexivity|]. simpl. now rewrite Hb.
  - apply andb_true_iff in Ha as [Hx Ha]. rewrite Hx. now apply IH.
Qed.

Lemma wf_part_spec x :
  wf_part x = true <-> x <> [] /\ x <> py "." /\ has_char (ch "/") x = false.
Proof.
  unfold wf_part. rewrite !andb_true_iff, !negb_true_iff, !str_eqb_false.
  tauto.
Qed.

Lemma filter_wf_parts (ps : list str) :
  forallb wf_part ps = true ->
  filter (fun x => x <> [] /\ x <> py ".") ps = ps.
Proof.
  induction ps as [|x ps IH]; intros Hps; [reflexivity|].
  simpl in Hps. apply andb_true_iff in Hps as [Hx Hps].
  apply wf_part_spec in Hx as (H1 & H2 & _).
  rewrite filter_cons_True by tauto. now rewrite IH.
Qed.

Lemma root_of_length (r t : str) :
  existsb (str_eqb r) [[]; py "/"; py "//"] = true ->
  match (length (r ++ t) - length t)%nat with
  | O => []
  | 2%nat => py "//"
  | _ => py "/"
  end = r.
Proof.
  intros Hr. simpl in Hr. rewrite orb_false_r in Hr.
  rewrite length_app.
  apply orb_true_iff in Hr as [Hr|Hr];
    [|apply orb_true_iff in Hr as [Hr|Hr]];
    apply str_eqb_true in Hr; subst r.
  - simpl. now rewrite Nat.sub_diag.
  - replace (length (py "/") + length t - length t)%nat with 1%nat
      by (change (length (py "/")) with 1%nat; lia).
    reflexivity.
  - replace (length (py "//") + length t - length t)%nat with 2%nat
      by (change (length (py "//")) with 2%nat; lia).
    reflexivity.
Qed.

(** [Path(str(p) + sfx)] for a path with at least one component: the suffix
    extends the last component. *)
Lemma parse_path_str_suffix (p : Path) (ps : list str) (x sfx : str) :
  wf_path p = true -> p_parts p = ps ++ [x] ->
  sfx <> [] -> has_char (ch "/") sfx = false ->
  parse_path (path_str p ++ sfx)
  = {| p_root := p_root p; p_parts := ps ++ [x ++ sfx] |}.
Proof.
  intros Hwf Hparts Hne Hsfx. destruct p as [r parts]. simpl in *. subst parts.
  unfold wf_path in Hwf. simpl in Hwf.
  apply andb_true_iff in Hwf as [Hr Hps].
  assert (Hstr : path_str {| p_root := r; p_parts := ps ++ [x] |}
                 = r ++ join (py "/") (ps ++ [x])).
  { unfold path_str. simpl. destruct r; [|reflexivity].
    destruct (ps ++ [x]) eqn:E; [destruct ps; discriminate|reflexivity]. }
  rewrite Hstr. clear Hstr.
  assert (Hall : forallb (fun y => negb (has_char (ch "/") y)) (ps ++ [x]) = true).
  { apply forallb_forall. intros y Hy.
    rewrite forallb_forall in Hps. specialize (Hps y Hy).
    apply wf_part_spec in Hps as (_ & _ & ->). reflexivity. }
  assert (Hhead : match join (py "/") (ps ++ [x]) ++ sfx with
                  | [] => True
                  | c :: _ => is_slash c = false
                  end).
  { rewrite forallb_forall in Hps.
    destruct ps as [|y ps]; simpl.
    - assert (Hx : wf_part x = true) by (apply Hps; now left).
      apply wf_part_spec in Hx as (Hx1 & _ & Hx3).
      destruct x as [|c x]; [congruence|]. simpl.
      simpl in Hx3. apply orb_false_iff in Hx3 as [Hc _].
      unfold is_slash. now rewrite N.eqb_sym.
    - assert (Hy : wf_part y = true) by (apply Hps; now left).
      apply wf_part_spec in Hy as (Hy1 & _ & Hy3).
      destruct y as [|c y]; [congruence|].
      destruct (ps ++ [x]) eqn:E; [destruct ps; discriminate|]. simpl.
      simpl in Hy3. apply orb_false_iff in Hy3 as [Hc _].
      unfold is_slash. now rewrite N.eqb_sym. }
  unfold parse_path.
  assert (Hstrip : lstrip_of is_slash ((r ++ join (py "/") (ps ++ [x])) ++ sfx)
                   = join (py "/") (ps ++ [x]) ++ sfx).
  { rewrite <- app_assoc. apply lstrip_of_app_stop; [|exact Hhead].
    simpl in Hr. rewrite orb_false_r in Hr.
    apply orb_true_iff in Hr as [Hr|Hr];
      [|apply orb_true_iff in Hr as [Hr|Hr]];
      apply str_eqb_true in Hr; subst r; reflexivity. }
  rewrite Hstrip. f_equal.
  - rewrite <- app_assoc. apply root_of_length. exact Hr.
  - change (py "/") with [ch "/"].
    rewrite split_join_suffix by assumption.
    apply filter_wf_parts. rewrite forallb_app in *.
    apply andb_true_iff in Hps as [Hps Hx]. rewrite Hps. simpl. simpl in Hx.
    rewrite andb_true_r in *. apply wf_part_spec in Hx as (Hx1 & Hx2 & Hx3).
    apply wf_part_spec. repeat split.
    + destruct x; [congruence | discriminate].
    + destruct x as [|c [|d x]]; [congruence | | discriminate].
      destruct sfx; [congruence | discriminate].
    + now rewrite has_char_app, Hx3, Hsfx.
Qed.

Lemma split_char_parts c s y : In y (split_char c s) -> has_char c y = false.
Proof.
  revert y. induction s as [|x s IH]; simpl; intros y Hy.
  - destruct Hy as [<-|[]]. reflexivity.
  - destruct (x =? c) eqn:Exc.
    + destruct Hy as [<-|Hy]; [reflexivity | now apply IH].
    + destruct (split_char c s) as [|l ls] eqn:E.
      * destruct Hy as [<-|[]]. simpl. now rewrite N.eqb_sym, Exc.
      * destruct Hy as [<-|Hy].
        -- simpl. rewrite N.eqb_sym, Exc. apply IH. now left.
        -- apply IH. now right.
Qed.

Lemma wf_parse_path s : wf_path (parse_path s) = true.
Proof.
  unfold wf_path, parse_path. simpl p_root. simpl p_parts.
  apply andb_true_iff. split.
  - destruct (length s - length (lstrip_of is_slash s))%nat as [|[|[|n]]];
      reflexivity.
  - apply forallb_forall. intros y Hy.
    apply list_elem_of_In, list_elem_of_filter in Hy as [[Hy1 Hy2] Hy].
    apply wf_part_spec. repeat split; try assumption.
    eapply split_char_parts. apply list_elem_of_In. exact Hy.
Qed.

Lemma wf_path_join p s : wf_path p = true -> wf_path (path_join p s) = true.
Proof.
  intros Hp. unfold path_join.
  pose proof (wf_parse_path s) as Hq.
  destruct (p_root (parse_path s)) eqn:Er; [|exact Hq].
  unfold wf_path in *. cbn [p_root p_parts].
  apply andb_true_iff in Hp as [Hr Hps]. apply andb_true_iff in Hq as [_ Hqs].
  apply andb_true_iff. split; [exact Hr|].
  rewrite forallb_app. now rewrite Hps, Hqs.
Qed.

Lemma wf_path_parent p : wf_path p = true -> wf_path (path_parent p) = true.
Proof.
  unfold wf_path, path_parent. simpl. intros Hp.
  apply andb_true_iff in Hp as [Hr Hps]. rewrite Hr. simpl.
  apply forallb_forall. intros y Hy. rewrite forallb_forall in Hps.
  apply Hps. destruct (p_parts p) as [|z zs] using rev_ind; [destruct Hy|].
  rewrite removelast_last in Hy. apply in_or_app. now left.
Qed.

Lemma path_join_index base name :
  parse_path name = {| p_root := []; p_parts := [name] |} ->
  path_join base name
  = {| p_root := p_root base; p_parts := p_parts base ++ [name] |}.
Proof. intros Hn. unfold path_join. now rewrite Hn. Qed.

Lemma singleton_inj {A} (a b : A) : [a] = [b] -> a = b.
Proof. now intros [= ->]. Qed.

(** The three paths without components. *)
Lemma wf_path_no_parts (p : Path) :
  wf_path p = true -> p_parts p = [] ->
  p = {| p_root := []; p_parts := [] |} \/
  p = {| p_root := py "/"; p_parts := [] |} \/
  p = {| p_root := py "//"; p_parts := [] |}.
Proof.
  destruct p as [r ps]. unfold wf_path. simpl. intros Hwf ->.
  rewrite orb_false_r, andb_true_r in Hwf.
  apply orb_true_iff in Hwf as [Hr|Hr];
    [|apply orb_true_iff in Hr as [Hr|Hr]];
    apply str_eqb_true in Hr; subst r; auto.
Qed.

(** [Path(str(base) + sfx)] is never [base / name] when [base] has
    components: the two differ in length. *)
Lemma sibling_is_not_child (base : Path) (sfx name : str) :
  wf_path base = true -> p_parts base <> [] ->
  sfx <> [] -> has_char (ch "/") sfx = false ->
  parse_path (path_str base ++ sfx)
  <> {| p_root := p_root base; p_parts := p_parts base ++ [name] |}.
Proof.
  intros Hwf Hparts Hne Hsfx.
  destruct (p_parts base) as [|x ps _] eqn:Eparts using rev_ind; [congruence|].
  rewrite (parse_path_str_suffix base ps x sfx) by assumption.
  intros [= E]. apply (f_equal (@length str)) in E.
  rewrite !length_app in E. simpl in E. lia.
Qed.

(** ** Candidates of a directory target (C5) *)

Lemma split1_head_absent c s : has_char c s = false -> split1_head c s = s.
Proof.
  unfold split1_head. induction s as [|x s IH]; simpl; [reflexivity|].
  intros Hx. apply orb_false_iff in Hx as [Hx Hs].
  rewrite N.eqb_sym, Hx. specialize (IH Hs).
  destruct (partition_char c s). simpl in *. now rewrite IH.
Qed.

Lemma lstrip_of_keeps_last f (l : str) c :
  f c = false -> exists t, lstrip_of f (l ++ [c]) = t ++ [c].
Proof.
  intros Hc. induction l as [|x l IH]; simpl.
  - rewrite Hc. now exists [].
  - destruct (f x); [exact IH | now exists (x :: l)].
Qed.

Lemma rstrip_of_stop f (t : str) c : f c = false -> rstrip_of f (t ++ [c]) = t ++ [c].
Proof.
  intros Hc. unfold rstrip_of. rewrite rev_app_distr. simpl. rewrite Hc.
  simpl. now rewrite rev_involutive.
Qed.

Lemma str_strip_keeps_last (l : str) c :
  isspace c = false -> exists t, str_strip (l ++ [c]) = t ++ [c].
Proof.
  intros Hc. unfold str_strip, str_lstrip, str_rstrip.
  destruct (lstrip_of_keeps_last isspace l c Hc) as [t ->].
  exists t. now apply rstrip_of_stop.
Qed.

Lemma endswith_last p (t : str) c :
  endswith p (t ++ [c]) = startswith (rev p) (c :: rev t).
Proof. unfold endswith. now rewrite rev_app_distr. Qed.

Lemma endswith_spec p s : endswith p s = true <-> exists t, s = t ++ p.
Proof.
  unfold endswith. rewrite startswith_spec. split.
  - intros [t Ht]. exists (rev t).
    rewrite <- (rev_involutive s), Ht, rev_app_distr, rev_involutive.
    reflexivity.
  - intros [t ->]. exists (rev t). now rewrite rev_app_distr.
Qed.

(** ** Candidates of a directory target (C5) *)

(** A link that ends with a slash and has neither fragment nor query is a
    directory target. *)
Lemma trailing_slash_is_dir (link : str) :
  endswith (py "/") link = true ->
  has_char (ch "#") link = false -> has_char (ch "?") link = false ->
  target_is_dir link = true.
Proof.
  intros Hend Hfrag Hquery. apply endswith_spec in Hend as [l ->].
  unfold target_is_dir, clean_target.
  rewrite (split1_head_absent _ _ Hfrag), (split1_head_absent _ _ Hquery).
  change (py "/") with [ch "/"].
  destruct (str_strip_keeps_last l (ch "/") eq_refl) as [t ->].
  rewrite endswith_last.
  change (startswith (rev (py ".html")) (ch "/" :: rev t)) with false.
  cbv iota. rewrite endswith_last. reflexivity.
Qed.

(** C5. For a directory target (the target, without fragment, query and a
    final [.html], ends with a slash) [candidates_for_quarto_source] returns
    [base/index.qmd] and [base/index.md] and nothing else; neither is
    [base.qmd] or [base.md]. For [foo/bar/] they are [foo/bar/index.qmd] and
    [foo/bar/index.md] under the directory of the referencing file. *)
Theorem directory_target_candidates (file_path repo_root : Path) (link : str) :
  wf_path file_path = true -> wf_path repo_root = true ->
  target_is_dir link = true ->
  let base := target_base file_path link repo_root in
  let cands := candidates_for_quarto_source file_path link repo_root in
  cands = [path_join base (py "index.qmd"); path_join base (py "index.md")] /\
  ~ In (parse_path (path_str base ++ py ".qmd")) cands /\
  ~ In (parse_path (path_str base ++ py ".md")) cands /\
  candidates_for_quarto_source (parse_path (py "page.md")) (py "foo/bar/")
    repo_root
  = [parse_path (py "foo/bar/index.qmd"); parse_path (py "foo/bar/index.md")].
Proof.
  intros Hfile Hroot Hdir base cands.
  assert (Hcands : cands = [path_join base (py "index.qmd");
                            path_join base (py "index.md")]).
  { unfold cands, candidates_for_quarto_source. now rewrite Hdir. }
  assert (Hwf : wf_path base = true).
  { unfold base, target_base.
    destruct (startswith _ _); apply wf_path_join;
      [exact Hroot | now apply wf_path_parent]. }
  assert (Hnot : forall sfx name,
             (sfx = py ".qmd" \/ sfx = py ".md") ->
             (name = py "index.qmd" \/ name = py "index.md") ->
             parse_path (path_str base ++ sfx) <> path_join base name).
  { intros sfx name Hsfx Hname.
    rewrite path_join_index by (destruct Hname as [-> | ->]; reflexivity).
    destruct (p_parts base) as [|x ps] eqn:Eparts.
    - destruct (wf_path_no_parts base Hwf Eparts) as [-> | [-> | ->]];
        destruct Hsfx as [-> | ->]; destruct Hname as [-> | ->];
        vm_compute; discriminate.
    - rewrite <- Eparts. apply sibling_is_not_child; try assumption.
      + now rewrite Eparts.
      + destruct Hsfx as [-> | ->]; discriminate.
      + destruct Hsfx as [-> | ->]; reflexivity. }
  rewrite Hcands. split; [reflexivity|]. split; [|split].
  - intros [Hin | [Hin | []]]; symmetry in Hin; revert Hin; apply Hnot; auto.
  - intros [Hin | [Hin | []]]; symmetry in Hin; revert Hin; apply Hnot; auto.
  - reflexivity.
Qed.

Lemma directory_target_candidates_witness :
  candidates_for_quarto_source (parse_path (py "docs/guide/page.md"))
    (py "foo/bar/") (parse_path (py "/site"))
  = [parse_path (py "docs/guide/foo/bar/index.qmd");
     parse_path (py "docs/guide/foo/bar/index.md")].
Proof.
  destruct (directory_target_candidates
              (parse_path (py "docs/guide/page.md")) (parse_path (py "/site"))
              (py "foo/bar/")) as [Hc _].
  - reflexivity.
  - reflexivity.
  - reflexivity.
  - rewrite Hc. reflexivity.
Defined.

(** ** The annotator (C3, C4, C9) *)

Lemma marker_found (attrs : str) :
  contains marker attrs = true \/ contains quoted_marker attrs = true ->
  attrs_already_have_target_blank attrs = true /\ attrs <> [].
Proof.
  intros [Hc | Hc]; apply contains_spec in Hc as (pre & post & ->).
  - split; [apply re_search_app; reflexivity|].
    destruct pre; discriminate.
  - split; [apply re_search_app; reflexivity|].
    destruct pre; discriminate.
Qed.

Section annotator.
Context {U : Unicode}.

(** C3. When the attribute block of a matched link holds the marker,
    quoted or not, [add_target_blank] returns the link, with its url
    cleaned of the tracking parameter, followed by the very same block (and
    raises only if cleaning the url raises). *)
Theorem marked_attrs_unchanged (text url attrs : str) :
  contains marker attrs = true \/ contains quoted_marker attrs = true ->
  add_target_blank {| hl_text := text; hl_url := url; hl_attrs := Some attrs |}
  = (u ← strip_chatgpt_utm url;
     Ok (py "[" ++ text ++ py "](" ++ u ++ py ")" ++ attrs)).
Proof.
  intros Hm. destruct (marker_found attrs Hm) as [Hhas Hne].
  unfold add_target_blank. cbn [hl_text hl_url hl_attrs].
  destruct (strip_chatgpt_utm url) as [u|e]; [|reflexivity].
  cbn [mbind result_bind default].
  destruct (should_skip_external u).
  - now rewrite <- !app_assoc.
  - destruct attrs as [|c attrs]; [congruence|].
    rewrite Hhas. now rewrite <- !app_assoc.
Qed.


End annotator.

Lemma marked_attrs_unchanged_witness :
  add_target_blank (U := ascii_tables)
    {| hl_text := py "a"; hl_url := py "https://a.org/";
       hl_attrs := Some (py "{.btn target=_blank}") |}
  = Ok (py "[a](https://a.org/){.btn target=_blank}").
Proof.
  rewrite (marked_attrs_unchanged (U := ascii_tables)).
  - reflexivity.
  - left. reflexivity.
Defined.



(** C9: the code does not do what its comment says for an image inside the
    text of a link. The annotator matches from the outer bracket, takes the
    image for a link and gives it the block; the checker takes the
    destination of the image for an internal link. *)
Theorem image_in_link_text_is_processed :
  re_sub match_http_link (add_target_blank (U := ascii_tables))
    (py "[![a](http://x/y)](http://z)")
  = Ok (py "[![a](http://x/y){target=_blank}](http://z)") /\
  re_finditer match_md_link (py "[![a](img/foo)](page)")
  = [{| ml_text := py "![a"; ml_dest := py "img/foo" |}] /\
  check_internal_links (U := ascii_tables) world_with_linked_image
    (parse_path (py "/site/docs/page.md")) (parse_path (py "/site"))
  = Ok [(py "img/foo",
         [parse_path (py "/site/docs/img/foo.qmd");
          parse_path (py "/site/docs/img/foo.md");
          parse_path (py "/site/docs/img/foo/index.qmd");
          parse_path (py "/site/docs/img/foo/index.md")])].
Proof. repeat split. Qed.

(** ** The checker (C2, C10) *)

Lemma lstrip_of_keeps_from f (pre : str) c (rest : str) :
  f c = false -> exists pre', lstrip_of f (pre ++ c :: rest) = pre' ++ c :: rest.
Proof.
  intros Hc. induction pre as [|x pre IH]; simpl.
  - rewrite Hc. now exists [].
  - destruct (f x); [exact IH | now exists (x :: pre)].
Qed.

Lemma rstrip_of_keeps_to f (pre : str) c (rest : str) :
  f c = false -> exists rest', rstrip_of f (pre ++ c :: rest) = pre ++ c :: rest'.
Proof.
  intros Hc. unfold rstrip_of. rewrite rev_app_distr. simpl.
  rewrite <- app_assoc. simpl.
  destruct (lstrip_of_keeps_from f (rev rest) c (rev pre) Hc) as [r ->].
  exists (rev r). rewrite rev_app_distr. simpl.
  now rewrite rev_involutive, <- app_assoc.
Qed.

(** Stripping keeps an occurrence of a text that neither starts nor ends
    with a blank. *)
Lemma contains_str_strip (needle : str) a b (mid s : str) :
  needle = a :: mid ++ [b] -> isspace a = false -> isspace b = false ->
  contains needle s = true -> contains needle (str_strip s) = true.
Proof.
  intros -> Ha Hb Hc. apply contains_spec in Hc as (pre & post & ->).
  unfold str_strip, str_lstrip, str_rstrip. simpl.
  destruct (lstrip_of_keeps_from isspace pre a ((mid ++ [b]) ++ post) Ha)
    as [pre' ->].
  rewrite <- app_assoc. simpl.
  replace (pre' ++ a :: mid ++ b :: post) with ((pre' ++ a :: mid) ++ b :: post)
    by (now rewrite <- app_assoc).
  destruct (rstrip_of_keeps_to isspace (pre' ++ a :: mid) b post Hb)
    as [post' ->].
  apply contains_spec. exists pre', post'.
  rewrite <- !app_assoc. simpl. now rewrite <- app_assoc.
Qed.

Section checker.
Context {U : Unicode}.

Lemma check_link_Some w file_path repo_root m link cands :
  check_link w file_path repo_root m = Ok (Some (link, cands)) <->
  strip_chatgpt_utm (str_strip (ml_dest m)) = Ok link /\
  is_skipped link = false /\
  cands = candidates_for_quarto_source file_path link repo_root /\
  existsb (path_exists w) cands = false.
Proof.
  unfold check_link.
  destruct (strip_chatgpt_utm (str_strip (ml_dest m))) as [l|e];
    cbn [mbind result_bind].
  - destruct (is_skipped l) eqn:Eskip.
    + split; [discriminate|]. intros ([= ->] & Hs & _). congruence.
    + destruct (existsb (path_exists w) _) eqn:Eex; cbn [negb].
      * split; [discriminate|]. intros ([= ->] & _ & -> & He). congruence.
      * split.
        -- intros [= -> <-]. auto.
        -- intros ([= ->] & _ & -> & _). reflexivity.
  - split; [discriminate|]. intros (Hs & _). discriminate.
Qed.

Lemma for_each_In_r {A B} (f : A -> result B) l bs b :
  for_each f l = Ok bs -> In b bs -> exists a, In a l /\ f a = Ok b.
Proof.
  intros Hfe. apply for_each_Forall2 in Hfe.
  induction Hfe as [|a b' l bs Hab _ IH]; intros Hin; [destruct Hin|].
  destruct Hin as [<-|Hin].
  - exists a. split; [now left | exact Hab].
  - destruct (IH Hin) as (a' & Ha' & Hf). exists a'. split; [now right|exact Hf].
Qed.

Lemma for_each_In_l {A B} (f : A -> result B) l bs a :
  for_each f l = Ok bs -> In a l -> exists b, In b bs /\ f a = Ok b.
Proof.
  intros Hfe. apply for_each_Forall2 in Hfe.
  induction Hfe as [|a' b l bs Hab _ IH]; intros Hin; [destruct Hin|].
  destruct Hin as [<-|Hin].
  - exists b. split; [now left | exact Hab].
  - destruct (IH Hin) as (b' & Hb' & Hf). exists b'. split; [now right|exact Hf].
Qed.

(** What [check_internal_links] returns, link by link. *)
Lemma check_internal_links_spec w file_path repo_root content broken :
  read_text w file_path = Ok content ->
  check_internal_links w file_path repo_root = Ok broken ->
  forall link cands,
    In (link, cands) broken <->
    exists m, In m (re_finditer match_md_link content) /\
              check_link w file_path repo_root m = Ok (Some (link, cands)).
Proof.
  intros Hread Hcheck link cands. unfold check_internal_links in Hcheck.
  rewrite Hread in Hcheck. cbn [mbind result_bind] in Hcheck.
  destruct (for_each _ _) as [found|] eqn:Efound;
    cbn [mbind result_bind] in Hcheck; [|discriminate].
  injection Hcheck as <-.
  rewrite <- list_elem_of_In, list_elem_of_omap. split.
  - intros (o & Ho & Hid). simpl in Hid. subst o.
    apply list_elem_of_In in Ho.
    exact (for_each_In_r _ _ _ _ Efound Ho).
  - intros (m & Hm & Hcl).
    destruct (for_each_In_l _ _ _ _ Efound Hm) as (o & Ho & Hfo).
    exists o. split; [now apply list_elem_of_In|]. simpl. congruence.
Qed.

End checker.

Lemma lstrip_of_suffix f (s : str) : exists a, s = a ++ lstrip_of f s.
Proof.
  induction s as [|x s [a IH]]; simpl; [now exists []|].
  destruct (f x); [|now exists []].
  exists (x :: a). simpl. now rewrite <- IH.
Qed.

Lemma str_strip_infix (s : str) : exists a b, s = a ++ str_strip s ++ b.
Proof.
  unfold str_strip, str_lstrip, str_rstrip, rstrip_of.
  destruct (lstrip_of_suffix isspace s) as [a Ha].
  destruct (lstrip_of_suffix isspace (rev (lstrip_of isspace s))) as [b Hb].
  exists a, (rev b). rewrite <- rev_app_distr, <- Hb, rev_involutive.
  exact Ha.
Qed.

Lemma contains_infix (needle a s b : str) :
  contains needle s = true -> contains needle (a ++ s ++ b) = true.
Proof.
  intros Hc. apply contains_spec in Hc as (pre & post & ->).
  apply contains_spec. exists (a ++ pre), (post ++ b).
  now rewrite <- !app_assoc.
Qed.

Lemma not_contains_str_strip (needle s : str) :
  contains needle s = false -> contains needle (str_strip s) = false.
Proof.
  intros Hc. destruct (contains needle (str_strip s)) eqn:E; [|reflexivity].
  destruct (str_strip_infix s) as (a & b & Hs).
  rewrite Hs, (contains_infix _ a _ b E) in Hc. discriminate.
Qed.

Lemma walk_into t cur c rest :
  is_dir t cur = true -> c <> py ".." ->
  walk t cur (c :: rest) = walk t (cur ++ [c]) rest.
Proof.
  intros Hd Hc. simpl. rewrite Hd.
  apply str_eqb_false in Hc. now rewrite Hc.
Qed.




Section checker_claims.
Context {U : Unicode}.


End checker_claims.


(** ** Stripping *)

Lemma lstrip_of_head f (s : str) :
  match lstrip_of f s with [] => True | c :: _ => f c = false end.
Proof.
  induction s as [|x s IH]; simpl; [exact I|].
  destruct (f x) eqn:E; [exact IH | exact E].
Qed.

Lemma lstrip_of_split f (s : str) :
  exists a, s = a ++ lstrip_of f s /\ forallb f a = true.
Proof.
  induction s as [|x s (a & IH & Ha)]; simpl; [now exists []|].
  destruct (f x) eqn:E; [|now exists []].
  exists (x :: a). simpl. now rewrite <- IH, E, Ha.
Qed.

Lemma lstrip_of_id f (s : str) :
  match s with [] => True | c :: _ => f c = false end -> lstrip_of f s = s.
Proof. destruct s as [|c s]; simpl; [reflexivity|]. now intros ->. Qed.

Lemma lstrip_of_app_keep f (a b : str) :
  lstrip_of f a <> [] -> lstrip_of f (a ++ b) = lstrip_of f a ++ b.
Proof.
  induction a as [|x a IH]; simpl; [congruence|].
  destruct (f x); [exact IH | reflexivity].
Qed.

Lemma rstrip_of_last f (s : str) :
  rstrip_of f s = [] \/ exists t c, rstrip_of f s = t ++ [c] /\ f c = false.
Proof.
  unfold rstrip_of. pose proof (lstrip_of_head f (rev s)) as Hh.
  destruct (lstrip_of f (rev s)) as [|c t]; [now left|].
  right. exists (rev t), c. now split.
Qed.

Lemma rstrip_of_split f (s : str) :
  exists b, s = rstrip_of f s ++ b /\ forallb f b = true.
Proof.
  unfold rstrip_of. destruct (lstrip_of_split f (rev s)) as (a & Ha & Hf).
  exists (rev a). split.
  - rewrite <- rev_app_distr, <- Ha. now rewrite rev_involutive.
  - rewrite forallb_forall in *. intros x Hx. apply Hf. now apply in_rev.
Qed.

Lemma rstrip_of_app_keep f (pre s : str) :
  rstrip_of f s <> [] -> rstrip_of f (pre ++ s) = pre ++ rstrip_of f s.
Proof.
  unfold rstrip_of. intros Hne. rewrite rev_app_distr.
  rewrite lstrip_of_app_keep.
  - now rewrite rev_app_distr, rev_involutive.
  - intros E. apply Hne. now rewrite E.
Qed.

Lemma rstrip_of_app_stop f (t : str) c (b : str) :
  f c = false -> forallb f b = true -> rstrip_of f ((t ++ [c]) ++ b) = t ++ [c].
Proof.
  intros Hc Hb. unfold rstrip_of. rewrite !rev_app_distr. simpl.
  rewrite lstrip_of_app_stop.
  - simpl. now rewrite rev_involutive.
  - rewrite forallb_forall in *. intros x Hx. apply Hb. now apply in_rev.
  - exact Hc.
Qed.

Lemma rstrip_of_idem f (s : str) : rstrip_of f (rstrip_of f s) = rstrip_of f s.
Proof.
  destruct (rstrip_of_last f s) as [-> | (t & c & -> & Hc)]; [reflexivity|].
  now apply rstrip_of_stop.
Qed.

Lemma rstrip_of_nil_iff f (s : str) : rstrip_of f s = [] <-> forallb f s = true.
Proof.
  split.
  - intros E. destruct (rstrip_of_split f s) as (b & Hs & Hb).
    rewrite E in Hs. simpl in Hs. now subst b.
  - intros Hs. unfold rstrip_of.
    assert (Hr : forallb f (rev s) = true).
    { rewrite forallb_forall in *. intros x Hx. apply Hs. now apply in_rev. }
    replace (rev s) with (rev s ++ []) by apply app_nil_r.
    rewrite lstrip_of_app_stop; [reflexivity | exact Hr | exact I].
Qed.

Lemma str_strip_trimmed (s : str) : str_strip s <> [] -> trimmed (str_strip s).
Proof.
  unfold str_strip, str_lstrip, str_rstrip. intros Hne.
  pose proof (lstrip_of_head isspace s) as Hh.
  destruct (lstrip_of isspace s) as [|c t] eqn:El; [now destruct Hne|].
  destruct (rstrip_of_keeps_to isspace [] c t Hh) as [t' Ht']. simpl in Ht'.
  exists c, t'. split; [exact Ht'|]. split; [exact Hh|].
  destruct (rstrip_of_last isspace (c :: t)) as [E | (t2 & d & E & Hd)];
    [congruence|].
  now exists t2, d.
Qed.

Lemma str_strip_of_trimmed (s : str) : trimmed s -> str_strip s = s.
Proof.
  intros (c & t & Hs & Hc & t' & d & Hs' & Hd).
  unfold str_strip, str_lstrip, str_rstrip.
  rewrite lstrip_of_id by (now rewrite Hs).
  rewrite Hs'. now apply rstrip_of_stop.
Qed.

Lemma str_rstrip_of_trimmed (s : str) : trimmed s -> str_rstrip s = s.
Proof.
  intros (c & t & Hs & Hc & t' & d & Hs' & Hd).
  unfold str_rstrip. rewrite Hs'. now apply rstrip_of_stop.
Qed.

(** Stripping after stripping on the right is stripping. *)
Lemma str_strip_rstrip (s : str) : str_strip (str_rstrip s) = str_strip s.
Proof.
  unfold str_strip, str_lstrip, str_rstrip.
  destruct (lstrip_of_split isspace s) as (a & Hs & Ha).
  pose proof (lstrip_of_head isspace s) as Hh.
  destruct (lstrip_of isspace s) as [|c t] eqn:El.
  - rewrite app_nil_r in Hs. subst a.
    assert (E : rstrip_of isspace s = []) by now apply rstrip_of_nil_iff.
    rewrite E. reflexivity.
  - assert (Hne : rstrip_of isspace (c :: t) <> []).
    { destruct (rstrip_of_keeps_to isspace [] c t Hh) as [t' Ht'].
      simpl in Ht'. rewrite Ht'. discriminate. }
    rewrite Hs at 1. rewrite rstrip_of_app_keep by exact Hne.
    destruct (rstrip_of_keeps_to isspace [] c t Hh) as [t' Ht'].
    simpl in Ht'. rewrite Ht'.
    rewrite lstrip_of_app_stop by (exact Ha || exact Hh).
    rewrite <- Ht'. apply rstrip_of_idem.
Qed.

(** ** Lines *)

Lemma splitlines_line (x rest : str) :
  break_free x -> splitlines (x ++ 10 :: rest) = x :: splitlines rest.
Proof.
  unfold break_free. induction x as [|c x IH]; intros Hx.
  - reflexivity.
  - simpl in Hx. apply andb_true_iff in Hx as [Hc Hx].
    apply negb_true_iff in Hc.
    assert (H13 : (c =? 13) = false).
    { destruct (c =? 13) eqn:E; [|reflexivity].
      apply N.eqb_eq in E. subst c. discriminate. }
    change ((c :: x) ++ 10 :: rest) with (c :: (x ++ 10 :: rest)).
    cbn [splitlines]. rewrite H13, Hc, (IH Hx). reflexivity.
Qed.

Lemma splitlines_join (ls : list str) :
  ls <> [] -> Forall break_free ls ->
  splitlines (join [10] ls ++ [10]) = ls.
Proof.
  induction ls as [|x ls IH]; [congruence|]. intros _ Hall.
  apply Forall_cons_iff in Hall as [Hx Hls].
  destruct ls as [|y ls].
  - simpl join. rewrite (splitlines_line x [] Hx). reflexivity.
  - rewrite join_cons by discriminate. rewrite <- !app_assoc.
    change ([10] ++ join [10] (y :: ls) ++ [10])
      with (10 :: (join [10] (y :: ls) ++ [10])).
    rewrite (splitlines_line x _ Hx). f_equal. apply IH; [discriminate|exact Hls].
Qed.

Lemma splitlines_break_free_aux (n : nat) (s : str) :
  (length s <= n)%nat -> Forall break_free (splitlines s).
Proof.
  revert s. induction n as [|n IH]; intros s Hlen.
  - destruct s; [constructor | simpl in Hlen; lia].
  - destruct s as [|c s]; [constructor|]. simpl in Hlen.
    cbn [splitlines]. destruct (c =? 13) eqn:E13.
    + constructor; [reflexivity|].
      destruct s as [|d s]; [constructor|].
      destruct (d =? 10); apply IH; simpl in *; lia.
    + destruct (is_linebreak c) eqn:Eb.
      * constructor; [reflexivity | apply IH; lia].
      * assert (Hs : Forall break_free (splitlines s)) by (apply IH; lia).
        destruct (splitlines s) as [|l ls].
        -- constructor; [|constructor]. unfold break_free. simpl.
           now rewrite Eb.
        -- apply Forall_cons_iff in Hs as [Hl Hls].
           constructor; [|exact Hls]. unfold break_free in *. simpl.
           now rewrite Eb, Hl.
Qed.

Lemma splitlines_break_free (s : str) : Forall break_free (splitlines s).
Proof. apply (splitlines_break_free_aux (length s)). lia. Qed.

Lemma break_free_lstrip f (l : str) : break_free l -> break_free (lstrip_of f l).
Proof.
  unfold break_free. induction l as [|c l IH]; simpl; [auto|].
  intros Hl. destruct (f c); [|exact Hl].
  apply andb_true_iff in Hl as [_ Hl]. now apply IH.
Qed.

Lemma break_free_rev (l : str) : break_free l -> break_free (rev l).
Proof.
  unfold break_free. rewrite !forallb_forall. intros Hl x Hx.
  apply Hl. now apply in_rev.
Qed.

Lemma break_free_rstrip f (l : str) : break_free l -> break_free (rstrip_of f l).
Proof.
  intros Hl. unfold rstrip_of.
  now apply break_free_rev, break_free_lstrip, break_free_rev.
Qed.

Lemma break_free_strip (l : str) : break_free l -> break_free (str_strip l).
Proof.
  intros Hl. unfold str_strip, str_rstrip, str_lstrip.
  now apply break_free_rstrip, break_free_lstrip.
Qed.

Lemma universal_newlines_id (s : str) :
  has_char 13 s = false -> universal_newlines s = s.
Proof.
  unfold has_char.
  induction s as [|c s IH]; cbn [existsb universal_newlines]; [reflexivity|].
  intros Hc. apply orb_false_iff in Hc as [Hc Hs].
  rewrite N.eqb_sym, Hc. now rewrite IH.
Qed.

Lemma break_free_no_cr (l : str) : break_free l -> has_char 13 l = false.
Proof.
  unfold break_free, has_char.
  induction l as [|c l IH]; cbn [forallb existsb]; [reflexivity|].
  intros Hl. apply andb_true_iff in Hl as [Hc Hl]. rewrite (IH Hl).
  destruct (13 =? c) eqn:E; [|reflexivity].
  apply N.eqb_eq in E. subst c. discriminate.
Qed.

Lemma join_snoc sep (ls : list str) (x : str) :
  ls <> [] -> join sep (ls ++ [x]) = join sep ls ++ sep ++ x.
Proof.
  induction ls as [|y ls IH]; [congruence|]. intros _.
  destruct ls as [|z ls]; [reflexivity|].
  change ((y :: z :: ls) ++ [x]) with (y :: ((z :: ls) ++ [x])).
  rewrite join_cons by (simpl; discriminate).
  rewrite IH by discriminate.
  rewrite (join_cons sep y (z :: ls)) by discriminate.
  now rewrite <- !app_assoc.
Qed.

Lemma join_last sep (ls : list str) (x : str) :
  exists pre, join sep (ls ++ [x]) = pre ++ x.
Proof.
  destruct ls as [|y ls].
  - now exists [].
  - rewrite join_snoc by discriminate. exists (join sep (y :: ls) ++ sep).
    now rewrite <- app_assoc.
Qed.

Lemma has_char_join c sep (ls : list str) :
  has_char c sep = false -> Forall (fun l => has_char c l = false) ls ->
  has_char c (join sep ls) = false.
Proof.
  intros Hsep. induction ls as [|x ls IH]; intros Hall; [reflexivity|].
  apply Forall_cons_iff in Hall as [Hx Hls].
  destruct ls as [|y ls]; [exact Hx|].
  rewrite join_cons by discriminate.
  now rewrite !has_char_app, Hx, Hsep, IH.
Qed.

(** ** The first loop of the normaliser *)

Lemma collect_spec (original : list str) :
  collect original
  = (map str_rstrip (List.filter is_comment_line original),
     map str_strip (List.filter is_entry_line original)).
Proof.
  induction original as [|line rest IH]; [reflexivity|].
  assert (Hc : is_comment_line line = startswith (py "#") (str_strip line))
    by reflexivity.
  assert (He : is_entry_line line
               = negb (str_eqb (str_strip line) []) && negb (is_comment_line line))
    by reflexivity.
  cbn [collect List.filter]. rewrite IH, He, Hc.
  destruct (str_strip line) as [|c s] eqn:Es.
  - reflexivity.
  - replace (str_eqb (c :: s) []) with false by reflexivity.
    destruct (startswith (py "#") (c :: s));
      cbn [negb andb map]; rewrite ?Es; reflexivity.
Qed.

(** ** The order of str and [sorted] *)

Lemma str_ltb_asym (a b : str) : str_ltb a b = true -> str_ltb b a = false.
Proof.
  revert b. induction a as [|x a IH]; intros [|y b]; simpl;
    try reflexivity; try discriminate.
  intros Hab. apply orb_true_iff in Hab as [Hxy | Hxy].
  - apply N.ltb_lt in Hxy. apply orb_false_iff. split.
    + apply N.ltb_ge. lia.
    + apply andb_false_iff. left. apply N.eqb_neq. lia.
  - apply andb_true_iff in Hxy as [Hxy Hab]. apply N.eqb_eq in Hxy. subst y.
    rewrite N.ltb_irrefl, N.eqb_refl. simpl. now apply IH.
Qed.

Lemma str_ltb_cotrans (c a b : str) :
  str_ltb c a = true -> str_ltb c b = true \/ str_ltb b a = true.
Proof.
  revert a b. induction c as [|z c IH]; intros [|x a] [|y b]; simpl;
    try discriminate; auto.
  intros Hca.
  destruct (N.ltb_spec z y) as [Hzy | Hzy]; [now left|].
  destruct (N.ltb_spec y x) as [Hyx | Hyx]; [now right|].
  simpl. apply orb_true_iff in Hca as [Hzx | Hzx].
  - apply N.ltb_lt in Hzx. lia.
  - apply andb_true_iff in Hzx as [Hzx Hca]. apply N.eqb_eq in Hzx. subst x.
    assert (y = z) by lia. subst y. rewrite N.eqb_refl. simpl.
    now apply IH.
Qed.

Lemma str_leb_total (a b : str) : str_leb a b = false -> str_leb b a = true.
Proof.
  unfold str_leb. intros Hab. apply negb_false_iff in Hab.
  apply negb_true_iff. now apply str_ltb_asym.
Qed.

Lemma str_leb_trans (a b c : str) :
  str_leb a b = true -> str_leb b c = true -> str_leb a c = true.
Proof.
  unfold str_leb. rewrite !negb_true_iff. intros Hab Hbc.
  destruct (str_ltb c a) eqn:Hca; [|reflexivity].
  destruct (str_ltb_cotrans c a b Hca); congruence.
Qed.

Section sorting.
Context {A : Type} (key : A -> str).

Lemma insert_by_perm (x : A) (l : list A) : Permutation (insert_by key x l) (x :: l).
Proof.
  induction l as [|y l IH]; simpl; [reflexivity|].
  destruct (str_leb (key x) (key y)); [reflexivity|].
  rewrite IH. apply perm_swap.
Qed.

Lemma sorted_perm (l : list A) : Permutation (sorted key l) l.
Proof.
  induction l as [|x l IH]; simpl; [reflexivity|].
  rewrite insert_by_perm. now constructor.
Qed.

Lemma insert_by_sorted (x : A) (l : list A) :
  StronglySorted (by_key key) l -> StronglySorted (by_key key) (insert_by key x l).
Proof.
  induction l as [|y l IH]; intros Hl; simpl.
  - repeat constructor.
  - destruct (str_leb (key x) (key y)) eqn:Exy.
    + constructor; [exact Hl|]. constructor; [exact Exy|].
      apply StronglySorted_inv in Hl as [_ Hy].
      eapply Forall_impl; [exact Hy|]. intros z Hz.
      unfold by_key in *. eapply str_leb_trans; eassumption.
    + apply StronglySorted_inv in Hl as [Hl Hy].
      constructor; [now apply IH|].
      rewrite insert_by_perm. constructor; [|exact Hy].
      now apply str_leb_total.
Qed.

Lemma sorted_sorted (l : list A) : StronglySorted (by_key key) (sorted key l).
Proof.
  induction l as [|x l IH]; simpl; [constructor | now apply insert_by_sorted].
Qed.

(** Sorting a sorted list changes nothing. *)
Lemma sorted_id (l : list A) :
  StronglySorted (by_key key) l -> sorted key l = l.
Proof.
  induction l as [|x l IH]; intros Hl; simpl; [reflexivity|].
  apply StronglySorted_inv in Hl as [Hl Hx]. rewrite (IH Hl).
  destruct l as [|y l]; [reflexivity|]. simpl.
  apply Forall_cons_iff in Hx as [Hxy _]. unfold by_key in Hxy.
  now rewrite Hxy.
Qed.

End sorting.

(** ** Removing duplicates *)

Section dedupe_facts.
Context {U : Unicode}.

Lemma dedupe_In (seen : gset str) (entries : list str) (e : str) :
  In e (dedupe seen entries) <->
  exists pre post, entries = pre ++ e :: post /\
                   (str_lower e ∉ seen) /\
                   ~ In (str_lower e) (map str_lower pre).
Proof.
  revert seen. induction entries as [|x entries IH]; intros seen.
  - simpl. split; [intros [] | intros (pre & post & Hp & _)].
    destruct pre; discriminate.
  - cbn [dedupe]. destruct (bool_decide (str_lower x ∈ seen)) eqn:Ex.
    + apply bool_decide_eq_true in Ex. rewrite IH. split.
      * intros (pre & post & -> & Hs & Hpre). exists (x :: pre), post.
        repeat split; [exact Hs|]. simpl. intros [Hx | Hx]; [|tauto].
        rewrite Hx in Ex. tauto.
      * intros (pre & post & Hp & Hs & Hpre). destruct pre as [|y pre].
        -- injection Hp as <- <-. tauto.
        -- injection Hp as <- ->. exists pre, post. repeat split; [exact Hs|].
           intros Hin. apply Hpre. now right.
    + apply bool_decide_eq_false in Ex. simpl. rewrite IH. split.
      * intros [<- | (pre & post & -> & Hs & Hpre)].
        -- exists [], entries. repeat split; [exact Ex | intros []].
        -- exists (x :: pre), post. repeat split.
           ++ set_solver.
           ++ simpl. intros [Hx | Hx]; [|tauto]. set_solver.
      * intros (pre & post & Hp & Hs & Hpre). destruct pre as [|y pre].
        -- injection Hp as <- <-. now left.
        -- injection Hp as <- ->. right. exists pre, post. repeat split.
           ++ simpl in Hpre. set_solver.
           ++ intros Hin. apply Hpre. now right.
Qed.

Lemma dedupe_keys (seen : gset str) (entries : list str) :
  NoDup (map str_lower (dedupe seen entries)) /\
  forall e, In e (dedupe seen entries) -> str_lower e ∉ seen.
Proof.
  revert seen. induction entries as [|x entries IH]; intros seen.
  - split; [constructor | intros e []].
  - cbn [dedupe]. destruct (bool_decide (str_lower x ∈ seen)) eqn:Ex.
    + apply IH.
    + apply bool_decide_eq_false in Ex.
      destruct (IH ({[str_lower x]} ∪ seen)) as [Hnd Hout]. split.
      * simpl. apply NoDup_cons. split; [|exact Hnd].
        rewrite list_elem_of_In, in_map_iff. intros (e & He & Hin).
        apply Hout in Hin. set_solver.
      * intros e [<- | Hin]; [exact Ex|]. apply Hout in Hin. set_solver.
Qed.

Lemma dedupe_covers (seen : gset str) (entries : list str) (e : str) :
  In e entries ->
  str_lower e ∈ seen \/ In (str_lower e) (map str_lower (dedupe seen entries)).
Proof.
  revert seen. induction entries as [|x entries IH]; intros seen; [intros []|].
  cbn [dedupe]. intros [<- | Hin].
  - destruct (bool_decide (str_lower x ∈ seen)) eqn:Ex.
    + apply bool_decide_eq_true in Ex. now left.
    + right. now left.
  - destruct (bool_decide (str_lower x ∈ seen)) eqn:Ex.
    + now apply IH.
    + destruct (IH ({[str_lower x]} ∪ seen) Hin) as [Hs | Hs].
      * apply elem_of_union in Hs as [Hs | Hs]; [|now left].
        apply elem_of_singleton in Hs. right. left. now symmetry.
      * right. now right.
Qed.

(** A list without two entries of one key is left as it is. *)
Lemma dedupe_id (seen : gset str) (entries : list str) :
  NoDup (map str_lower entries) ->
  (forall e, In e entries -> str_lower e ∉ seen) ->
  dedupe seen entries = entries.
Proof.
  revert seen. induction entries as [|x entries IH]; intros seen Hnd Hout;
    [reflexivity|].
  cbn [dedupe]. simpl in Hnd. apply NoDup_cons in Hnd as [Hx Hnd].
  rewrite bool_decide_eq_false_2 by (apply Hout; now left).
  f_equal. apply IH; [exact Hnd|]. intros e He.
  assert (str_lower e <> str_lower x).
  { intros E. apply Hx. rewrite <- E. apply list_elem_of_In, in_map, He. }
  assert (str_lower e ∉ seen) by (apply Hout; now right).
  set_solver.
Qed.

End dedupe_facts.

(** ** The normaliser (C6, C7) *)

Lemma filter_all {A} (f : A -> bool) (l : list A) :
  (forall x, In x l -> f x = true) -> List.filter f l = l.
Proof.
  induction l as [|x l IH]; intros Hl; [reflexivity|]. simpl.
  rewrite (Hl x (or_introl eq_refl)). f_equal. apply IH. intros y Hy.
  apply Hl. now right.
Qed.

Lemma filter_none {A} (f : A -> bool) (l : list A) :
  (forall x, In x l -> f x = false) -> List.filter f l = [].
Proof.
  induction l as [|x l IH]; intros Hl; [reflexivity|]. simpl.
  rewrite (Hl x (or_introl eq_refl)). apply IH. intros y Hy.
  apply Hl. now right.
Qed.

Lemma map_fixed {A} (f : A -> A) (l : list A) :
  (forall x, In x l -> f x = x) -> map f l = l.
Proof.
  induction l as [|x l IH]; intros Hl; [reflexivity|]. simpl.
  rewrite (Hl x (or_introl eq_refl)). f_equal. apply IH. intros y Hy.
  apply Hl. now right.
Qed.

Lemma str_strip_blank (s : str) : forallb isspace s = true -> str_strip s = [].
Proof.
  intros Hs. unfold str_strip, str_lstrip.
  replace s with (s ++ []) by apply app_nil_r.
  rewrite lstrip_of_app_stop; [reflexivity | exact Hs | exact I].
Qed.

(** A comment, as the loop keeps it, is again a comment and is kept as it
    is. *)
Lemma comment_facts (line : str) :
  is_comment_line line = true ->
  is_comment_line (str_rstrip line) = true /\
  is_entry_line (str_rstrip line) = false /\
  str_rstrip (str_rstrip line) = str_rstrip line /\
  exists t x, str_rstrip line = t ++ [x] /\ isspace x = false.
Proof.
  intros Hc. unfold is_entry_line, is_comment_line in *.
  rewrite str_strip_rstrip, Hc. repeat split.
  - apply andb_false_r.
  - apply rstrip_of_idem.
  - destruct (rstrip_of_last isspace line) as [E | (t & x & E & Hx)];
      [|now exists t, x].
    apply rstrip_of_nil_iff, str_strip_blank in E. rewrite E in Hc.
    discriminate.
Qed.

(** An entry, as the loop keeps it, is again an entry and is kept as it
    is. *)
Lemma entry_facts (line : str) :
  is_entry_line line = true ->
  is_comment_line (str_strip line) = false /\
  is_entry_line (str_strip line) = true /\
  str_strip (str_strip line) = str_strip line /\
  trimmed (str_strip line).
Proof.
  intros He. unfold is_entry_line, is_comment_line in *.
  apply andb_true_iff in He as [Hne Hc].
  apply negb_true_iff in Hne, Hc. apply str_eqb_false in Hne.
  pose proof (str_strip_trimmed line Hne) as Ht.
  rewrite (str_strip_of_trimmed _ Ht). repeat split; try assumption.
  rewrite Hc. apply andb_true_iff. split; [|reflexivity].
  apply negb_true_iff. now apply str_eqb_false.
Qed.

Lemma render_normal (comments sorted_entries : list str) :
  (forall c, In c comments -> exists t x, c = t ++ [x] /\ isspace x = false) ->
  (forall e, In e sorted_entries -> trimmed e) ->
  render comments sorted_entries
  = join [10] (normal_lines comments sorted_entries) ++ [10].
Proof.
  intros Hcs Hes. unfold render, normal_lines, str_rstrip. f_equal.
  destruct sorted_entries as [|e0 es0] using rev_ind.
  - destruct comments as [|c cs]; [reflexivity|].
    cbv iota. rewrite !app_nil_r.
    rewrite join_snoc by discriminate. rewrite app_nil_r.
    destruct (exists_last (l := c :: cs)) as (cs0 & c0 & E); [discriminate|].
    rewrite E in *.
    destruct (Hcs c0) as (t & x & -> & Hx);
      [apply in_or_app; right; now left|].
    destruct (join_last [10] cs0 (t ++ [x])) as [pre ->].
    rewrite (app_assoc pre t [x]).
    now apply rstrip_of_app_stop.
  - clear IHes0.
    destruct (Hes e0) as (_ & _ & _ & _ & t & x & -> & Hx);
      [apply in_or_app; right; now left|].
    assert (Hshape : exists ls,
               match comments with [] => [] | _ :: _ => comments ++ [[]] end
               ++ es0 ++ [t ++ [x]] = ls ++ [t ++ [x]] /\
               comments ++
               match comments, es0 ++ [t ++ [x]] with
               | _ :: _, _ :: _ => [[]]
               | _, _ => []
               end ++ es0 ++ [t ++ [x]] = ls ++ [t ++ [x]]).
    { destruct comments as [|c cs].
      - exists es0. split; reflexivity.
      - exists ((c :: cs) ++ [[]] ++ es0).
        destruct (es0 ++ [t ++ [x]]) eqn:E; [destruct es0; discriminate|].
        rewrite <- E. split; now rewrite <- !app_assoc. }
    destruct Hshape as (ls & -> & ->).
    destruct (join_last [10] ls (t ++ [x])) as [pre ->].
    rewrite (app_assoc pre t [x]).
    now apply rstrip_of_stop.
Qed.

Section normaliser.
Context {U : Unicode}.

Lemma out_text_render (content : str) :
  out_text content
  = render (map str_rstrip (List.filter is_comment_line (splitlines content)))
           (sorted str_lower
              (dedupe ∅ (map str_strip
                           (List.filter is_entry_line (splitlines content))))).
Proof. unfold out_text. now rewrite collect_spec. Qed.

Lemma sorted_entries_facts (lines : list str) :
  let entries := map str_strip (List.filter is_entry_line lines) in
  let sorted_entries := sorted str_lower (dedupe ∅ entries) in
  StronglySorted (by_key str_lower) sorted_entries /\
  NoDup (map str_lower sorted_entries) /\
  (forall e, In e sorted_entries <-> first_seen e entries) /\
  (forall e, In e sorted_entries ->
             exists line, In line lines /\ is_entry_line line = true /\
                          e = str_strip line).
Proof.
  intros entries sorted_entries.
  assert (Hperm : Permutation sorted_entries (dedupe ∅ entries))
    by apply sorted_perm.
  assert (Hin : forall e, In e sorted_entries <-> In e (dedupe ∅ entries)).
  { intros e. split; apply Permutation_in; [exact Hperm | now symmetry]. }
  split; [apply sorted_sorted|]. split; [|split].
  - destruct (dedupe_keys ∅ entries) as [Hnd _].
    assert (Hp : map str_lower sorted_entries
                 ≡ₚ map str_lower (dedupe ∅ entries))
      by now apply Permutation_map.
    now rewrite Hp.
  - intros e. rewrite Hin, dedupe_In. unfold first_seen. split.
    + intros (pre & post & Hp & _ & Hpre). now exists pre, post.
    + intros (pre & post & Hp & Hpre). exists pre, post.
      repeat split; [exact Hp | set_solver | exact Hpre].
  - intros e He. apply Hin, dedupe_In in He as (pre & post & Hp & _).
    assert (Hmem : In e entries) by (rewrite Hp; apply in_elt).
    apply in_map_iff in Hmem as (line & <- & Hline).
    apply filter_In in Hline as [Hl He]. now exists line.
Qed.

(** What a run of [sort_lycheeignore_file] does to a file it can read. *)
Lemma sort_lycheeignore_file_run (w : world) (path : Path) (content : str) :
  read_text w path = Ok content ->
  exists q,
    resolve w path = Some q /\ q <> [] /\
    sort_lycheeignore_file w path
    = if str_eqb content (out_text content)
      then (print w (py "No changes needed in " ++ path_str path), Ok false)
      else (print (set_fs w (<[q := File (out_text content)]> (fs w)))
                  (py "Sorted " ++ path_str path), Ok true).
Proof.
  intros Hread. unfold sort_lycheeignore_file, path_exists.
  rewrite Hread. unfold read_text in Hread. unfold write_text, is_node, is_dir.
  destruct (resolve w path) as [q|]; [|discriminate].
  destruct (node_at (fs w) q) as [[c|]|] eqn:En; try discriminate.
  exists q. split; [reflexivity|]. split.
  { intros ->. discriminate. }
  cbn [negb]. destruct (str_eqb content (out_text content)); reflexivity.
Qed.

(** C6, as amended. [sort_lycheeignore_file] computes this text from the
    lines of the file: every comment line (a line whose first non-blank
    character is [#], wherever it stands) without its trailing blanks, in the
    original order; then one empty line if there are both comments and
    entries; then the other non-blank lines, each without surrounding blanks,
    only the first of those that are equal when case is ignored, sorted
    with case ignored; and a final newline. The file is written exactly when
    this text differs from the text read. *)
Theorem ignore_list_normal_form (content : str) :
  let lines := splitlines content in
  let comments := map str_rstrip (List.filter is_comment_line lines) in
  let entries := map str_strip (List.filter is_entry_line lines) in
  (exists sorted_entries,
      out_text content
      = join [10] (normal_lines comments sorted_entries) ++ [10] /\
      StronglySorted (by_key str_lower) sorted_entries /\
      NoDup (map str_lower sorted_entries) /\
      (forall e, In e sorted_entries <-> first_seen e entries)) /\
  (forall w path,
      read_text w path = Ok content ->
      exists q,
        resolve w path = Some q /\
        sort_lycheeignore_file w path
        = if str_eqb content (out_text content)
          then (print w (py "No changes needed in " ++ path_str path), Ok false)
          else (print (set_fs w (<[q := File (out_text content)]> (fs w)))
                      (py "Sorted " ++ path_str path), Ok true)).
Proof.
  intros lines comments entries. split.
  - exists (sorted str_lower (dedupe ∅ entries)).
    destruct (sorted_entries_facts lines) as (Hsorted & Hnd & Hfirst & Hfrom).
    split; [|split; [exact Hsorted | split; [exact Hnd | exact Hfirst]]].
    rewrite out_text_render. apply render_normal.
    + intros c Hc. apply in_map_iff in Hc as (line & <- & Hline).
      apply filter_In in Hline as [_ Hline].
      now destruct (comment_facts line Hline) as (_ & _ & _ & Hlast).
    + intros e He. destruct (Hfrom e He) as (line & _ & Hline & ->).
      now destruct (entry_facts line Hline) as (_ & _ & _ & Ht).
  - intros w path Hread.
    destruct (sort_lycheeignore_file_run w path content Hread)
      as (q & Hq & _ & Hrun).
    now exists q.
Qed.

End normaliser.

Lemma is_dir_insert_file t q c c' x :
  node_at t q = Some (File c) ->
  is_dir (<[q := File c']> t) x = is_dir t x.
Proof.
  intros Hq. unfold is_dir, node_at in *.
  destruct x as [|y x]; [reflexivity|].
  destruct q as [|z q]; [discriminate|].
  destruct (decide (z :: q = y :: x)) as [E | E].
  - rewrite <- E, lookup_insert_eq, Hq. reflexivity.
  - now rewrite lookup_insert_ne.
Qed.

Lemma walk_insert_file t q c c' cur parts :
  node_at t q = Some (File c) ->
  walk (<[q := File c']> t) cur parts = walk t cur parts.
Proof.
  intros Hq. revert cur. induction parts as [|p parts IH]; intros cur;
    [reflexivity|].
  cbn [walk]. rewrite (is_dir_insert_file t q c c' cur Hq).
  destruct (is_dir t cur); [|reflexivity].
  destruct (str_eqb p (py "..")); apply IH.
Qed.

(** Reading back a text without carriage return that was just written. *)
Lemma read_text_after_write (w : world) (path : Path) (q : list str)
    (c text line : str) :
  resolve w path = Some q -> node_at (fs w) q = Some (File c) ->
  has_char 13 text = false ->
  read_text (print (set_fs w (<[q := File text]> (fs w))) line) path = Ok text.
Proof.
  intros Hq Hn Hcr. unfold read_text, resolve in *. cbn [fs cwd print set_fs].
  rewrite (walk_insert_file _ q c text _ _ Hn), Hq.
  unfold node_at in *. destruct q as [|z q]; [discriminate|].
  rewrite lookup_insert_eq. now rewrite universal_newlines_id.
Qed.

Section idempotence.
Context {U : Unicode}.

Lemma normal_lines_break_free (lines : list str) :
  Forall break_free lines ->
  Forall break_free
    (normal_lines
       (map str_rstrip (List.filter is_comment_line lines))
       (sorted str_lower
          (dedupe ∅ (map str_strip (List.filter is_entry_line lines))))).
Proof.
  intros Hlines. rewrite Forall_forall in Hlines.
  destruct (sorted_entries_facts lines) as (_ & _ & _ & Hfrom).
  unfold normal_lines. rewrite !Forall_app. repeat split.
  - apply Forall_forall. intros c Hc. apply list_elem_of_In in Hc.
    apply in_map_iff in Hc as (line & <- & Hline).
    apply filter_In in Hline as [Hline _].
    apply break_free_rstrip, Hlines. now apply list_elem_of_In.
  - destruct (map str_rstrip _), (sorted _ _); repeat constructor.
  - apply Forall_forall. intros e He. apply list_elem_of_In in He.
    destruct (Hfrom e He) as (line & Hline & _ & ->).
    apply break_free_strip, Hlines. now apply list_elem_of_In.
Qed.

(** The lines of a normalised text are sorted into the same comments and
    entries. *)
Lemma collect_normal_lines (lines : list str) :
  let comments := map str_rstrip (List.filter is_comment_line lines) in
  let sorted_entries :=
    sorted str_lower
      (dedupe ∅ (map str_strip (List.filter is_entry_line lines))) in
  let normal := normal_lines comments sorted_entries in
  map str_rstrip (List.filter is_comment_line normal) = comments /\
  map str_strip (List.filter is_entry_line normal) = sorted_entries.
Proof.
  intros comments sorted_entries normal.
  destruct (sorted_entries_facts lines) as (_ & _ & _ & Hfrom).
  fold sorted_entries in Hfrom.
  assert (Hc : forall c, In c comments ->
                 is_comment_line c = true /\ is_entry_line c = false /\
                 str_rstrip c = c).
  { intros c Hc. apply in_map_iff in Hc as (line & <- & Hline).
    apply filter_In in Hline as [_ Hline].
    destruct (comment_facts line Hline) as (H1 & H2 & H3 & _). auto. }
  assert (He : forall e, In e sorted_entries ->
                 is_comment_line e = false /\ is_entry_line e = true /\
                 str_strip e = e).
  { intros e He. destruct (Hfrom e He) as (line & _ & Hline & ->).
    destruct (entry_facts line Hline) as (H1 & H2 & H3 & _). auto. }
  set (sep := match comments, sorted_entries with
              | _ :: _, _ :: _ => [[]]
              | _, _ => []
              end : list str).
  assert (Hsep : List.filter is_comment_line sep = [] /\
                 List.filter is_entry_line sep = []).
  { unfold sep. destruct comments, sorted_entries; split; reflexivity. }
  destruct Hsep as [Hs1 Hs2].
  unfold normal, normal_lines. fold sep.
  rewrite !List.filter_app, Hs1, Hs2.
  rewrite (filter_all is_comment_line comments) by (intros c H; now apply Hc).
  rewrite (filter_none is_comment_line sorted_entries)
    by (intros e H; now apply He).
  rewrite (filter_none is_entry_line comments) by (intros c H; now apply Hc).
  rewrite (filter_all is_entry_line sorted_entries)
    by (intros e H; now apply He).
  rewrite !app_nil_r. simpl app. split; apply map_fixed.
  - intros c H. now apply Hc.
  - intros e H. now apply He.
Qed.

Lemma out_text_idempotent (content : str) :
  out_text (out_text content) = out_text content.
Proof.
  set (lines := splitlines content).
  set (comments := map str_rstrip (List.filter is_comment_line lines)).
  set (sorted_entries :=
         sorted str_lower
           (dedupe ∅ (map str_strip (List.filter is_entry_line lines)))).
  assert (Hout : out_text content
                 = join [10] (normal_lines comments sorted_entries) ++ [10]).
  { rewrite out_text_render. apply render_normal.
    - intros c Hc. apply in_map_iff in Hc as (line & <- & Hline).
      apply filter_In in Hline as [_ Hline].
      now destruct (comment_facts line Hline) as (_ & _ & _ & Hlast).
    - intros e He.
      destruct (sorted_entries_facts lines) as (_ & _ & _ & Hfrom).
      destruct (Hfrom e He) as (line & _ & Hline & ->).
      now destruct (entry_facts line Hline) as (_ & _ & _ & Ht). }
  destruct (normal_lines comments sorted_entries) as [|l ls] eqn:En.
  - rewrite Hout. reflexivity.
  - rewrite (out_text_render (out_text content)). rewrite Hout at 1 2.
    rewrite splitlines_join;
      [|discriminate
       |rewrite <- En; apply normal_lines_break_free, splitlines_break_free].
    rewrite <- En.
    destruct (collect_normal_lines lines) as [Hc He].
    fold comments sorted_entries in Hc, He. rewrite Hc, He.
    destruct (sorted_entries_facts lines) as (Hsorted & Hnd & _ & _).
    fold sorted_entries in Hsorted, Hnd.
    rewrite dedupe_id; [|exact Hnd | intros; set_solver].
    rewrite sorted_id by exact Hsorted.
    now rewrite out_text_render.
Qed.

Lemma out_text_no_cr (content : str) : has_char 13 (out_text content) = false.
Proof.
  set (lines := splitlines content).
  assert (Hout : out_text content
                 = join [10]
                     (normal_lines
                        (map str_rstrip (List.filter is_comment_line lines))
                        (sorted str_lower
                           (dedupe ∅ (map str_strip
                                        (List.filter is_entry_line lines)))))
                   ++ [10]).
  { rewrite out_text_render. apply render_normal.
    - intros c Hc. apply in_map_iff in Hc as (line & <- & Hline).
      apply filter_In in Hline as [_ Hline].
      now destruct (comment_facts line Hline) as (_ & _ & _ & Hlast).
    - intros e He.
      destruct (sorted_entries_facts lines) as (_ & _ & _ & Hfrom).
      destruct (Hfrom e He) as (line & _ & Hline & ->).
      now destruct (entry_facts line Hline) as (_ & _ & _ & Ht). }
  rewrite Hout, has_char_app. apply orb_false_iff. split; [|reflexivity].
  apply has_char_join; [reflexivity|].
  eapply Forall_impl; [apply normal_lines_break_free, splitlines_break_free|].
  intros l. apply break_free_no_cr.
Qed.

(** C7. The text [sort_lycheeignore_file] computes is a fixed point of the
    computation. On a file that reads as such a text the function writes
    nothing, prints that no change is needed and returns False; so does a
    second run on a file the function has just handled. *)
Theorem normaliser_idempotent (content : str) :
  out_text (out_text content) = out_text content /\
  (forall w path,
      read_text w path = Ok (out_text content) ->
      sort_lycheeignore_file w path
      = (print w (py "No changes needed in " ++ path_str path), Ok false)) /\
  (forall w path w1 changed,
      read_text w path = Ok content ->
      sort_lycheeignore_file w path = (w1, Ok changed) ->
      sort_lycheeignore_file w1 path
      = (print w1 (py "No changes needed in " ++ path_str path), Ok false)).
Proof.
  assert (Hnormal : forall c w path,
             read_text w path = Ok (out_text c) ->
             sort_lycheeignore_file w path
             = (print w (py "No changes needed in " ++ path_str path),
                Ok false)).
  { intros c w path Hread.
    destruct (sort_lycheeignore_file_run w path _ Hread) as (q & _ & _ & ->).
    rewrite out_text_idempotent.
    replace (str_eqb (out_text c) (out_text c)) with true
      by (symmetry; now apply str_eqb_true).
    reflexivity. }
  split; [apply out_text_idempotent|]. split; [apply Hnormal|].
  intros w path w1 changed Hread Hrun.
  destruct (sort_lycheeignore_file_run w path content Hread)
    as (q & Hq & Hne & Hrun').
  rewrite Hrun' in Hrun. clear Hrun'.
  destruct (str_eqb content (out_text content)) eqn:Esame.
  - apply (f_equal fst) in Hrun. cbn [fst] in Hrun. subst w1.
    apply str_eqb_true in Esame. apply (Hnormal content).
    rewrite <- Esame. exact Hread.
  - apply (f_equal fst) in Hrun. cbn [fst] in Hrun. subst w1.
    assert (Hn : exists c, node_at (fs w) q = Some (File c)).
    { unfold read_text in Hread. rewrite Hq in Hread.
      destruct (node_at (fs w) q) as [[c|]|]; try discriminate. now exists c. }
    destruct Hn as [c Hn].
    apply (Hnormal content).
    exact (read_text_after_write w path q c (out_text content)
             (py "Sorted " ++ path_str path) Hq Hn (out_text_no_cr content)).
Qed.

End idempotence.

Lemma ignore_list_normal_form_witness :
  sort_lycheeignore_file (U := ascii_tables) world_with_ignore_list
    (parse_path (py ".lycheeignore"))
  = (print (set_fs world_with_ignore_list
              (<[ [py "site"; py ".lycheeignore"] :=
                    File (py "# c" ++ [10; 10] ++ py "A" ++ [10] ++ py "b"
                          ++ [10]) ]> (fs world_with_ignore_list)))
           (py "Sorted .lycheeignore"),
     Ok true).
Proof.
  destruct (ignore_list_normal_form (U := ascii_tables) unsorted_ignore_list)
    as [_ Hrun].
  destruct (Hrun world_with_ignore_list (parse_path (py ".lycheeignore")))
    as (q & Hq & ->).
  - reflexivity.
  - injection Hq as <-. reflexivity.
Defined.

(** C6 as stated fails: a comment line that ends in a blank is not kept
    verbatim, and comments without entries are followed by no empty line. *)
Lemma comment_line_not_kept_verbatim :
  splitlines (py "# c " ++ [10] ++ py "a" ++ [10]) = [py "# c "; py "a"] /\
  out_text (U := ascii_tables) (py "# c " ++ [10] ++ py "a" ++ [10])
  = py "# c" ++ [10; 10] ++ py "a" ++ [10] /\
  out_text (U := ascii_tables) (py "# c" ++ [10]) = py "# c" ++ [10].
Proof. repeat split. Qed.

Lemma normaliser_idempotent_witness :
  sort_lycheeignore_file (U := ascii_tables)
    (fst (sort_lycheeignore_file (U := ascii_tables) world_with_ignore_list
            (parse_path (py ".lycheeignore"))))
    (parse_path (py ".lycheeignore"))
  = (print (fst (sort_lycheeignore_file (U := ascii_tables)
                   world_with_ignore_list (parse_path (py ".lycheeignore"))))
           (py "No changes needed in .lycheeignore"),
     Ok false).
Proof.
  destruct (normaliser_idempotent (U := ascii_tables) unsorted_ignore_list)
    as (_ & _ & Hagain).
  apply (Hagain world_with_ignore_list (parse_path (py ".lycheeignore")) _ true).
  - reflexivity.
  - reflexivity.
Defined.

(** ** UTF-8: decoding what was encoded *)

(** Case analysis on the comparisons of the goal; impossible cases are
    closed by arithmetic. *)
Ltac split_tests :=
  repeat match goal with
         | |- context [?x <? ?y] => destruct (N.ltb_spec x y); try lia
         | |- context [?x <=? ?y] => destruct (N.leb_spec x y); try lia
         | |- context [?x =? ?y] => destruct (N.eqb_spec x y); try lia
         end.

Lemma utf8_decode_1 b r : b < 128 -> utf8_decode (b :: r) = b :: utf8_decode r.
Proof. intros Hb. cbn [utf8_decode]. split_tests. reflexivity. Qed.

Lemma utf8_decode_2 b0 b1 r :
  194 <= b0 < 224 -> 128 <= b1 <= 191 ->
  utf8_decode (b0 :: b1 :: r) = ((b0 - 192) * 64 + (b1 - 128)) :: utf8_decode r.
Proof.
  intros H0 H1. cbn [utf8_decode]. unfold is_cont. split_tests. reflexivity.
Qed.

Lemma utf8_decode_3 b0 b1 b2 r :
  224 <= b0 < 240 -> 128 <= b1 <= 191 -> 128 <= b2 <= 191 ->
  (b0 = 224 -> 160 <= b1) -> (b0 = 237 -> b1 < 160) ->
  utf8_decode (b0 :: b1 :: b2 :: r)
  = ((b0 - 224) * 4096 + (b1 - 128) * 64 + (b2 - 128)) :: utf8_decode r.
Proof.
  intros H0 H1 H2 Hlow Hsur. cbn [utf8_decode]. unfold second_ok, is_cont.
  split_tests; reflexivity.
Qed.

Lemma utf8_decode_4 b0 b1 b2 b3 r :
  240 <= b0 < 245 -> 128 <= b1 <= 191 -> 128 <= b2 <= 191 ->
  128 <= b3 <= 191 ->
  (b0 = 240 -> 144 <= b1) -> (b0 = 244 -> b1 < 144) ->
  utf8_decode (b0 :: b1 :: b2 :: b3 :: r)
  = ((b0 - 240) * 262144 + (b1 - 128) * 4096 + (b2 - 128) * 64 + (b3 - 128))
      :: utf8_decode r.
Proof.
  intros H0 H1 H2 H3 Hlow Hhigh. cbn [utf8_decode]. unfold second_ok, is_cont.
  split_tests; reflexivity.
Qed.

(** The base-64 digits of a code point. *)
Lemma digits64 (c : N) :
  exists q1 r1 q2 r2 q3 r3,
    c = 64 * q1 + r1 /\ r1 < 64 /\ q1 = 64 * q2 + r2 /\ r2 < 64 /\
    q2 = 64 * q3 + r3 /\ r3 < 64 /\
    c / 64 = q1 /\ c mod 64 = r1 /\ (c / 64) mod 64 = r2 /\ c / 4096 = q2 /\
    (c / 4096) mod 64 = r3 /\ c / 262144 = q3.
Proof.
  exists (c / 64), (c mod 64), (c / 64 / 64), ((c / 64) mod 64),
         (c / 64 / 64 / 64), ((c / 64 / 64) mod 64).
  assert (E2 : c / 64 / 64 = c / 4096) by (now rewrite N.Div0.div_div).
  assert (E3 : c / 64 / 64 / 64 = c / 262144) by (now rewrite !N.Div0.div_div).
  repeat split; try (apply N.div_mod; discriminate);
    try (apply N.mod_lt; discriminate); try (symmetry; assumption);
    now rewrite ?E2.
Qed.

Lemma is_scalar_spec c :
  is_scalar c = true <-> c < 1114112 /\ ~ (55296 <= c <= 57343).
Proof.
  unfold is_scalar, is_surrogate.
  rewrite andb_true_iff, negb_true_iff, andb_false_iff, N.ltb_lt,
    N.leb_gt, N.leb_gt.
  lia.
Qed.

(** One encoded character is decoded to itself, whatever follows; its bytes
    are below 256, and 32 is among them only for a space. *)
Lemma utf8_encode_char_spec c bs :
  utf8_encode_char c = Ok bs ->
  (forall r, utf8_decode (bs ++ r) = c :: utf8_decode r) /\
  Forall (fun b => b < 256) bs /\
  bs <> [] /\
  (c < 128 -> bs = [c]) /\ (128 <= c -> Forall (fun b => 128 <= b) bs).
Proof.
  unfold utf8_encode_char, is_surrogate.
  destruct (digits64 c)
    as (q1 & r1 & q2 & r2 & q3 & r3 & Hc & Hr1 & Hq1 & Hr2 & Hq2 & Hr3
        & -> & -> & -> & -> & -> & ->).
  destruct (N.ltb_spec c 128) as [H1|H1].
  { intros [= <-]. repeat split; try discriminate.
    - intros r. now apply utf8_decode_1.
    - repeat constructor. lia.
    - lia. }
  destruct (N.ltb_spec c 2048) as [H2|H2].
  { intros [= <-]. repeat split; try discriminate; try lia.
    - intros r. cbn [app]. rewrite utf8_decode_2 by lia. f_equal. lia.
    - repeat constructor; lia.
    - intros _. repeat constructor; lia. }
  destruct (N.ltb_spec c 65536) as [H3|H3].
  { destruct (N.leb_spec 55296 c) as [H4|H4];
      [destruct (N.leb_spec c 57343) as [H5|H5]|]; cbn [andb];
      try discriminate; intros [= <-]; repeat split; try discriminate;
      try lia;
      try (intros r; cbn [app]; rewrite utf8_decode_3 by lia; f_equal; lia);
      try (repeat constructor; lia);
      try (intros _; repeat constructor; lia). }
  destruct (N.ltb_spec c 1114112) as [H4|H4]; [|discriminate].
  intros [= <-]. repeat split; try discriminate; try lia.
  - intros r. cbn [app]. rewrite utf8_decode_4 by lia. f_equal. lia.
  - repeat constructor; lia.
  - intros _. repeat constructor; lia.
Qed.

Lemma utf8_encode_spec s bs :
  utf8_encode s = Ok bs ->
  utf8_decode bs = s /\
  Forall (fun b => b < 256) bs /\
  has_char 32 bs = has_char 32 s /\
  (forallb is_ascii bs = true -> bs = s) /\
  (s <> [] -> bs <> []).
Proof.
  revert bs. induction s as [|c s IH]; intros bs; cbn [utf8_encode].
  - intros [= <-]. repeat split; auto.
  - destruct (utf8_encode_char c) as [b|] eqn:Ec; [|discriminate].
    cbn [mbind result_bind].
    destruct (utf8_encode s) as [bs'|]; [|discriminate].
    cbn [mbind result_bind]. intros [= <-].
    destruct (utf8_encode_char_spec c b Ec) as (Hdec & Hb & Hne & Hlow & Hhigh).
    destruct (IH bs' eq_refl) as (IH1 & IH2 & IH3 & IH4 & _).
    repeat split.
    + now rewrite Hdec, IH1.
    + apply Forall_app. now split.
    + rewrite has_char_app, IH3. unfold has_char at 3. cbn [existsb].
      fold (has_char 32 s). f_equal.
      destruct (N.ltb_spec c 128) as [Hc|Hc].
      * rewrite (Hlow Hc). unfold has_char. cbn [existsb].
        now rewrite orb_false_r.
      * specialize (Hhigh Hc).
        replace (32 =? c) with false by (symmetry; apply N.eqb_neq; lia).
        unfold has_char. apply not_true_is_false. intros Hex.
        apply existsb_exists in Hex as (x & Hx & Ex).
        apply N.eqb_eq in Ex. subst x.
        rewrite Forall_forall in Hhigh.
        apply list_elem_of_In, Hhigh in Hx. lia.
    + intros Hascii. rewrite forallb_app in Hascii.
      apply andb_true_iff in Hascii as [Hb1 Hb2]. rewrite (IH4 Hb2).
      destruct (N.ltb_spec c 128) as [Hc|Hc]; [now rewrite (Hlow Hc)|].
      specialize (Hhigh Hc). destruct b as [|x b]; [congruence|].
      apply Forall_cons_iff in Hhigh as [Hx _]. cbn [forallb] in Hb1.
      apply andb_true_iff in Hb1 as [Hx1 _]. unfold is_ascii in Hx1.
      apply N.ltb_lt in Hx1. lia.
    + intros _. destruct b; [congruence | discriminate].
Qed.

Lemma utf8_encode_Ok s :
  Forall (fun c => is_scalar c = true) s -> exists bs, utf8_encode s = Ok bs.
Proof.
  induction s as [|c s IH]; intros Hs; cbn [utf8_encode]; [now eexists|].
  apply Forall_cons_iff in Hs as [Hc Hs]. destruct (IH Hs) as [bs ->].
  apply is_scalar_spec in Hc.
  assert (Hchar : exists b, utf8_encode_char c = Ok b).
  { unfold utf8_encode_char, is_surrogate.
    destruct (c <? 128); [now eexists|].
    destruct (c <? 2048); [now eexists|].
    destruct (N.ltb_spec c 65536).
    - destruct (N.leb_spec 55296 c); [destruct (N.leb_spec c 57343)|];
        cbn [andb]; try (now eexists). lia.
    - destruct (N.ltb_spec c 1114112); [now eexists | lia]. }
  destruct Hchar as [b ->]. now eexists.
Qed.

Lemma replacement_scalar : is_scalar replacement = true.
Proof. reflexivity. Qed.

(** Whatever the bytes, the decoder yields code points a str can hold. *)
Lemma utf8_decode_scalar_aux (n : nat) (bs : list N) :
  (length bs <= n)%nat -> Forall (fun c => is_scalar c = true) (utf8_decode bs).
Proof.
  revert bs. induction n as [|n IH]; intros bs Hlen.
  - destruct bs; [constructor | simpl in Hlen; lia].
  - destruct bs as [|b0 r0]; [constructor|]. simpl in Hlen.
    assert (IH0 : Forall (fun c => is_scalar c = true) (utf8_decode r0))
      by (apply IH; lia).
    cbn [utf8_decode].
    destruct (N.ltb_spec b0 128) as [H1|H1].
    { constructor; [apply is_scalar_spec; lia | exact IH0]. }
    destruct (N.ltb_spec b0 194) as [H2|H2].
    { constructor; [reflexivity | exact IH0]. }
    destruct r0 as [|b1 r1].
    { destruct (b0 <? 224), (b0 <? 240), (b0 <? 245);
        repeat constructor. }
    simpl in Hlen.
    assert (IH1 : Forall (fun c => is_scalar c = true) (utf8_decode r1))
      by (apply IH; lia).
    destruct (N.ltb_spec b0 224) as [H3|H3].
    { unfold is_cont.
      destruct (N.leb_spec 128 b1), (N.leb_spec b1 191); cbn [andb];
        constructor; try reflexivity; try exact IH0; try exact IH1.
      apply is_scalar_spec. lia. }
    destruct (N.ltb_spec b0 240) as [H4|H4].
    { destruct (second_ok b0 b1) eqn:E2;
        [|constructor; [reflexivity | exact IH0]].
      destruct r1 as [|b2 r2]; [repeat constructor|]. simpl in Hlen.
      assert (IH2 : Forall (fun c => is_scalar c = true) (utf8_decode r2))
        by (apply IH; lia).
      unfold is_cont.
      destruct (N.leb_spec 128 b2), (N.leb_spec b2 191); cbn [andb];
        constructor; try reflexivity; try exact IH1; try exact IH2.
      apply is_scalar_spec. revert E2. unfold second_ok, is_cont.
      destruct (N.leb_spec 128 b1), (N.leb_spec b1 191); cbn [andb];
        try discriminate.
      destruct (N.eqb_spec b0 224); [destruct (N.leb_spec 160 b1); [lia|discriminate]|].
      destruct (N.eqb_spec b0 237); [destruct (N.ltb_spec b1 160); [lia|discriminate]|].
      destruct (N.eqb_spec b0 240); [lia|].
      destruct (N.eqb_spec b0 244); [lia|]. lia. }
    destruct (N.ltb_spec b0 245) as [H5|H5];
      [|constructor; [reflexivity | exact IH0]].
    destruct (second_ok b0 b1) eqn:E2;
      [|constructor; [reflexivity | exact IH0]].
    destruct r1 as [|b2 r2]; [repeat constructor|]. simpl in Hlen.
    assert (IH2 : Forall (fun c => is_scalar c = true) (utf8_decode r2))
      by (apply IH; lia).
    unfold is_cont at 1.
    destruct (N.leb_spec 128 b2), (N.leb_spec b2 191); cbn [andb];
      try (constructor; [reflexivity | exact IH1]).
    destruct r2 as [|b3 r3]; [repeat constructor|]. simpl in Hlen.
    assert (IH3 : Forall (fun c => is_scalar c = true) (utf8_decode r3))
      by (apply IH; lia).
    unfold is_cont.
    destruct (N.leb_spec 128 b3), (N.leb_spec b3 191); cbn [andb];
      constructor; try reflexivity; try exact IH2; try exact IH3.
    apply is_scalar_spec. revert E2. unfold second_ok, is_cont.
    destruct (N.leb_spec 128 b1), (N.leb_spec b1 191); cbn [andb];
      try discriminate.
    destruct (N.eqb_spec b0 224); [lia|].
    destruct (N.eqb_spec b0 237); [lia|].
    destruct (N.eqb_spec b0 240); [destruct (N.leb_spec 144 b1); [lia|discriminate]|].
    destruct (N.eqb_spec b0 244); [destruct (N.ltb_spec b1 144); [lia|discriminate]|].
    lia.
Qed.

Lemma utf8_decode_scalar (bs : list N) :
  Forall (fun c => is_scalar c = true) (utf8_decode bs).
Proof. apply (utf8_decode_scalar_aux (length bs)). lia. Qed.

(** ** Quoting and unquoting *)

Lemma always_safe_spec b :
  always_safe b = true ->
  b < 128 /\ b <> 32 /\ b <> 37 /\ b <> 38 /\ b <> 43 /\ b <> 61.
Proof.
  unfold always_safe, is_upper, is_lower, is_digit.
  change (ch "_") with 95. change (ch ".") with 46. change (ch "-") with 45.
  change (ch "~") with 126.
  rewrite !orb_true_iff, !andb_true_iff, !N.leb_le, !N.eqb_eq. lia.
Qed.

Lemma hex_digit_spec n :
  hex_digit n <> 32 /\ hex_digit n <> 37 /\ hex_digit n <> 38 /\
  hex_digit n <> 43 /\ hex_digit n <> 61 /\
  (n < 16 -> hex_value (hex_digit n) = Some n /\ hex_digit n < 128).
Proof.
  unfold hex_digit. destruct (N.ltb_spec n 10) as [Hn|Hn].
  - repeat split; try lia. unfold hex_value, is_digit.
    destruct (N.leb_spec 48 (48 + n)), (N.leb_spec (48 + n) 57); try lia.
    cbn [andb]. f_equal. lia.
  - repeat split; try lia. unfold hex_value, is_digit.
    destruct (N.leb_spec 48 (55 + n)), (N.leb_spec (55 + n) 57); try lia.
    cbn [andb].
    destruct (N.leb_spec 65 (55 + n)), (N.leb_spec (55 + n) 70); try lia.
    cbn [andb]. f_equal. lia.
Qed.

Lemma quoter_safe safe b : always_safe b || safe b = true -> quoter safe b = [b].
Proof. unfold quoter. now intros ->. Qed.

Lemma quote_from_bytes_flat safe bs :
  quote_from_bytes safe bs = flat_map (quoter safe) bs.
Proof.
  unfold quote_from_bytes. destruct bs as [|b bs]; [reflexivity|].
  destruct (forallb _ (b :: bs)) eqn:Eall; [|reflexivity].
  revert Eall. generalize (b :: bs). clear b bs.
  induction l as [|x l IH]; [reflexivity|]. cbn [forallb flat_map].
  intros Hall. apply andb_true_iff in Hall as [Hx Hl].
  now rewrite (quoter_safe _ _ Hx), <- (IH Hl).
Qed.

Lemma flat_map_ext_in {A B} (f g : A -> list B) l :
  (forall x, In x l -> f x = g x) -> flat_map f l = flat_map g l.
Proof.
  induction l as [|x l IH]; intros Hl; [reflexivity|]. cbn [flat_map].
  rewrite (Hl x (or_introl eq_refl)), IH; [reflexivity|].
  intros y Hy. apply Hl. now right.
Qed.

Lemma map_flat_map {A B C} (f : B -> C) (g : A -> list B) l :
  map f (flat_map g l) = flat_map (fun x => map f (g x)) l.
Proof.
  induction l as [|x l IH]; [reflexivity|]. cbn [flat_map].
  now rewrite map_app, IH.
Qed.

Lemma has_char_false_iff c s : has_char c s = false <-> ~ In c s.
Proof.
  unfold has_char. split.
  - intros Hc Hin. assert (existsb (N.eqb c) s = true); [|congruence].
    apply existsb_exists. exists c. split; [exact Hin | apply N.eqb_refl].
  - intros Hin. apply not_true_is_false. intros Hex.
    apply existsb_exists in Hex as (x & Hx & Ex). apply N.eqb_eq in Ex.
    now subst x.
Qed.

(** [quote_plus] byte by byte. *)
Lemma quote_plus_flat s bs :
  utf8_encode s = Ok bs -> quote_plus s = Ok (flat_map plus_quoter bs).
Proof.
  intros Henc. destruct (utf8_encode_spec s bs Henc) as (_ & _ & Hsp & _ & _).
  unfold quote_plus, quote. change (ch " ") with 32. change (ch "+") with 43.
  destruct s as [|c s].
  - cbn [utf8_encode] in Henc. injection Henc as <-. reflexivity.
  - rewrite Henc. cbn [mbind result_bind]. rewrite !quote_from_bytes_flat.
    destruct (has_char 32 (c :: s)) eqn:Es; cbn [negb]; f_equal.
    + unfold replace_char. rewrite map_flat_map. apply flat_map_ext_in.
      intros b _. unfold plus_quoter, quoter.
      destruct (N.eqb_spec b 32) as [-> | Hb]; [reflexivity|].
      rewrite orb_false_r.
      destruct (always_safe b) eqn:Esafe.
      * cbn [orb map]. destruct (N.eqb_spec b 32); congruence.
      * cbn [orb map]. change (ch "%") with 37.
        destruct (hex_digit_spec (b / 16)) as (H1 & _).
        destruct (hex_digit_spec (b mod 16)) as (H2 & _).
        destruct (N.eqb_spec (hex_digit (b / 16)) 32); [congruence|].
        destruct (N.eqb_spec (hex_digit (b mod 16)) 32); [congruence|].
        reflexivity.
    + apply flat_map_ext_in. intros b Hb. unfold plus_quoter.
      destruct (N.eqb_spec b 32) as [-> | Hne]; [|reflexivity].
      apply has_char_false_iff in Hsp. tauto.
Qed.

Lemma plus_to_space bs :
  replace_char 43 32 (flat_map plus_quoter bs) = flat_map space_quoter bs.
Proof.
  unfold replace_char. rewrite map_flat_map. apply flat_map_ext_in.
  intros b _. unfold plus_quoter, space_quoter, quoter.
  destruct (N.eqb_spec b 32) as [-> | Hb]; [reflexivity|].
  rewrite orb_false_r. destruct (always_safe b) eqn:Esafe; cbn [map].
  - apply always_safe_spec in Esafe.
    destruct (N.eqb_spec b 43); [lia | reflexivity].
  - change (ch "%") with 37.
    destruct (hex_digit_spec (b / 16)) as (_ & _ & _ & H1 & _).
    destruct (hex_digit_spec (b mod 16)) as (_ & _ & _ & H2 & _).
    destruct (N.eqb_spec (hex_digit (b / 16)) 43); [congruence|].
    destruct (N.eqb_spec (hex_digit (b mod 16)) 43); [congruence|].
    reflexivity.
Qed.

Lemma split_char_nonempty c s : split_char c s <> [].
Proof.
  destruct s as [|x s]; cbn [split_char]; [discriminate|].
  destruct (x =? c); [discriminate|]. destruct (split_char c s); discriminate.
Qed.

Lemma unquote_to_bytes_plain x t :
  x <> 37 -> unquote_to_bytes (x :: t) = x :: unquote_to_bytes t.
Proof.
  intros Hx. unfold unquote_to_bytes. change (ch "%") with 37.
  cbn [split_char]. destruct (N.eqb_spec x 37); [congruence|].
  pose proof (split_char_nonempty 37 t) as Hne.
  destruct (split_char 37 t) as [|l ls]; [congruence | reflexivity].
Qed.

Lemma unquote_to_bytes_escape h1 h2 a b t :
  hex_value h1 = Some a -> hex_value h2 = Some b -> h1 <> 37 -> h2 <> 37 ->
  unquote_to_bytes (37 :: h1 :: h2 :: t) = (16 * a + b) :: unquote_to_bytes t.
Proof.
  intros Ha Hb H1 H2. unfold unquote_to_bytes. change (ch "%") with 37.
  cbn [split_char]. rewrite N.eqb_refl.
  destruct (N.eqb_spec h1 37); [congruence|].
  destruct (N.eqb_spec h2 37); [congruence|].
  pose proof (split_char_nonempty 37 t) as Hne.
  destruct (split_char 37 t) as [|l ls]; [congruence|].
  cbn [app flat_map unquote_item]. now rewrite Ha, Hb.
Qed.

Lemma unquote_to_bytes_quoted bs :
  Forall (fun b => b < 256) bs ->
  unquote_to_bytes (flat_map space_quoter bs) = bs.
Proof.
  induction bs as [|b bs IH]; intros Hbs; [reflexivity|].
  apply Forall_cons_iff in Hbs as [Hb Hbs]. cbn [flat_map].
  unfold space_quoter at 1, quoter.
  destruct (N.eqb_spec b 32) as [-> | Hne].
  - cbn [app]. rewrite unquote_to_bytes_plain by discriminate.
    now rewrite IH.
  - rewrite orb_false_r. destruct (always_safe b) eqn:Esafe.
    + apply always_safe_spec in Esafe. cbn [app].
      rewrite unquote_to_bytes_plain by lia. now rewrite IH.
    + change (ch "%") with 37. cbn [app].
      assert (Hq : b / 16 < 16) by (apply N.Div0.div_lt_upper_bound; lia).
      assert (Hr : b mod 16 < 16) by (apply N.mod_lt; discriminate).
      destruct (hex_digit_spec (b / 16)) as (_ & H1 & _ & _ & _ & Hv1).
      destruct (hex_digit_spec (b mod 16)) as (_ & H2 & _ & _ & _ & Hv2).
      destruct (Hv1 Hq) as [Hv1' _]. destruct (Hv2 Hr) as [Hv2' _].
      rewrite (unquote_to_bytes_escape _ _ _ _ _ Hv1' Hv2' H1 H2), IH
        by exact Hbs.
      f_equal. symmetry. apply N.div_mod. discriminate.
Qed.

Lemma space_quoter_ascii b : b < 256 -> forallb is_ascii (space_quoter b) = true.
Proof.
  intros Hb. unfold space_quoter, quoter.
  destruct (N.eqb_spec b 32) as [-> | Hne]; [reflexivity|].
  rewrite orb_false_r. destruct (always_safe b) eqn:Esafe.
  - apply always_safe_spec in Esafe. cbn [forallb]. unfold is_ascii.
    destruct (N.ltb_spec b 128); [reflexivity | lia].
  - assert (Hq : b / 16 < 16) by (apply N.Div0.div_lt_upper_bound; lia).
    assert (Hr : b mod 16 < 16) by (apply N.mod_lt; discriminate).
    destruct (hex_digit_spec (b / 16)) as (_ & _ & _ & _ & _ & Hv1).
    destruct (hex_digit_spec (b mod 16)) as (_ & _ & _ & _ & _ & Hv2).
    destruct (Hv1 Hq) as [_ H1]. destruct (Hv2 Hr) as [_ H2].
    cbn [forallb]. unfold is_ascii.
    apply N.ltb_lt in H1, H2. now rewrite H1, H2.
Qed.

Lemma space_quoted_ascii bs :
  Forall (fun b => b < 256) bs ->
  forallb is_ascii (flat_map space_quoter bs) = true.
Proof.
  induction bs as [|b bs IH]; intros Hbs; [reflexivity|].
  apply Forall_cons_iff in Hbs as [Hb Hbs]. cbn [flat_map].
  rewrite forallb_app, (space_quoter_ascii b Hb). now apply IH.
Qed.

(** Without a percent sign nothing was escaped. *)
Lemma space_quoted_plain bs :
  has_char 37 (flat_map space_quoter bs) = false ->
  flat_map space_quoter bs = bs /\ forallb is_ascii bs = true.
Proof.
  induction bs as [|b bs IH]; [now split|]. cbn [flat_map].
  rewrite has_char_app. intros Hno. apply orb_false_iff in Hno as [Hb Hbs].
  destruct (IH Hbs) as [IH1 IH2]. rewrite IH1. cbn [forallb]. rewrite IH2.
  revert Hb. unfold space_quoter, quoter.
  destruct (N.eqb_spec b 32) as [-> | Hne]; [now split|].
  rewrite orb_false_r. destruct (always_safe b) eqn:Esafe.
  - intros _. apply always_safe_spec in Esafe. split; [reflexivity|].
    unfold is_ascii. destruct (N.ltb_spec b 128); [reflexivity | lia].
  - change (ch "%") with 37. unfold has_char. cbn [existsb].
    rewrite N.eqb_refl. discriminate.
Qed.

Lemma ascii_runs_ascii (t : str) :
  forallb is_ascii t = true -> t <> [] -> ascii_runs t = [(true, t)].
Proof.
  induction t as [|c t IH]; [congruence|]. cbn [forallb]. intros Hall _.
  apply andb_true_iff in Hall as [Hc Ht]. cbn [ascii_runs].
  destruct t as [|d t].
  - cbn [ascii_runs]. now rewrite Hc.
  - rewrite (IH Ht) by discriminate. now rewrite Hc.
Qed.

(** [unquote] undoes [quote_plus] once plus signs are spaces again. *)
Lemma unquote_quoted s bs :
  utf8_encode s = Ok bs -> unquote (flat_map space_quoter bs) = s.
Proof.
  intros Henc.
  destruct (utf8_encode_spec s bs Henc) as (Hdec & Hbytes & _ & Hplain & _).
  unfold unquote. change (ch "%") with 37.
  destruct (has_char 37 (flat_map space_quoter bs)) eqn:Epct; cbn [negb].
  - rewrite ascii_runs_ascii.
    + cbn [flat_map]. rewrite app_nil_r.
      now rewrite unquote_to_bytes_quoted.
    + now apply space_quoted_ascii.
    + intros E. rewrite E in Epct. discriminate.
  - destruct (space_quoted_plain bs Epct) as [-> Hascii]. now apply Hplain.
Qed.

Lemma plus_quoted_no_separator bs :
  has_char 38 (flat_map plus_quoter bs) = false /\
  has_char 61 (flat_map plus_quoter bs) = false.
Proof.
  induction bs as [|b bs [IH1 IH2]]; [now split|]. cbn [flat_map].
  rewrite !has_char_app, IH1, IH2, !orb_false_r.
  unfold plus_quoter, quoter.
  destruct (N.eqb_spec b 32) as [-> | Hne]; [now split|].
  rewrite orb_false_r. destruct (always_safe b) eqn:Esafe.
  - apply always_safe_spec in Esafe. unfold has_char. cbn [existsb].
    destruct (N.eqb_spec 38 b), (N.eqb_spec 61 b); try lia; now split.
  - change (ch "%") with 37.
    destruct (hex_digit_spec (b / 16)) as (_ & _ & H1 & _ & H1' & _).
    destruct (hex_digit_spec (b mod 16)) as (_ & _ & H2 & _ & H2' & _).
    unfold has_char. cbn [existsb].
    destruct (N.eqb_spec 38 (hex_digit (b / 16))); [congruence|].
    destruct (N.eqb_spec 38 (hex_digit (b mod 16))); [congruence|].
    destruct (N.eqb_spec 61 (hex_digit (b / 16))); [congruence|].
    destruct (N.eqb_spec 61 (hex_digit (b mod 16))); [congruence|].
    now split.
Qed.

Lemma quote_plus_roundtrip s :
  Forall (fun c => is_scalar c = true) s ->
  exists q, quote_plus s = Ok q /\
            unquote (replace_char 43 32 q) = s /\
            has_char 38 q = false /\ has_char 61 q = false.
Proof.
  intros Hs. destruct (utf8_encode_Ok s Hs) as [bs Henc].
  exists (flat_map plus_quoter bs). split; [now apply quote_plus_flat|].
  rewrite plus_to_space. split; [now apply unquote_quoted|].
  apply plus_quoted_no_separator.
Qed.

(** ** Encoding and parsing a query *)

Lemma partition_char_app c (a b : str) :
  has_char c a = false -> partition_char c (a ++ c :: b) = (a, Some b).
Proof.
  unfold has_char. induction a as [|x a IH]; cbn [existsb app partition_char].
  - now rewrite N.eqb_refl.
  - intros Ha. apply orb_false_iff in Ha as [Hx Ha].
    rewrite N.eqb_sym, Hx, (IH Ha). reflexivity.
Qed.

Lemma parse_qsl_fields qs :
  parse_qsl qs
  = flat_map parse_field
      (match qs with [] => [] | _ => split_char (ch "&") qs end).
Proof. reflexivity. Qed.

Lemma urlencode_parse (pairs : list (str * str)) :
  Forall (fun p => valid_str (fst p) /\ valid_str (snd p)) pairs ->
  exists q, urlencode pairs = Ok q /\ parse_qsl q = pairs.
Proof.
  intros Hpairs.
  assert (Hitems : exists items,
             for_each (fun '(k, v) =>
                         k' ← quote_plus k; v' ← quote_plus v;
                         Ok (k' ++ py "=" ++ v')) pairs = Ok items /\
             Forall (fun i => has_char 38 i = false) items /\
             flat_map parse_field items = pairs /\
             (pairs <> [] -> items <> []) /\
             Forall (fun i => i <> []) items).
  { induction pairs as [|[k v] pairs IH].
    - exists []. repeat split; auto.
    - apply Forall_cons_iff in Hpairs as [[Hk Hv] Hpairs].
      destruct (IH Hpairs) as (items & Hfe & Hamp & Hparse & _ & Hne).
      destruct (quote_plus_roundtrip k Hk) as (k' & Hqk & Huk & Hk38 & Hk61).
      destruct (quote_plus_roundtrip v Hv) as (v' & Hqv & Huv & Hv38 & _).
      exists ((k' ++ py "=" ++ v') :: items). cbn [for_each].
      rewrite Hqk, Hqv. cbn [mbind result_bind]. rewrite Hfe.
      cbn [mbind result_bind]. split; [reflexivity|]. split; [|split; [|split]].
      + constructor; [|exact Hamp].
        now rewrite !has_char_app, Hk38, Hv38.
      + cbn [flat_map]. rewrite Hparse. f_equal.
        unfold parse_field. change (py "=") with [61]. cbn [app].
        destruct (k' ++ 61 :: v') eqn:E; [destruct k'; discriminate|].
        rewrite <- E. change (ch "=") with 61.
        rewrite (partition_char_app 61 k' v' Hk61).
        change (default [] (Some v')) with v'.
        change (ch "+") with 43. change (ch " ") with 32.
        now rewrite Huk, Huv.
      + discriminate.
      + constructor; [|exact Hne]. destruct k'; discriminate. }
  destruct Hitems as (items & Hfe & Hamp & Hparse & Hne & Hnonnil).
  unfold urlencode. rewrite Hfe. cbn [mbind result_bind].
  eexists. split; [reflexivity|]. rewrite parse_qsl_fields.
  destruct items as [|i items] using rev_ind.
  - cbn [flat_map] in Hparse. now subst pairs.
  - clear IHitems.
    assert (Hq : join (py "&") (items ++ [i]) <> []).
    { destruct (join_last (py "&") items i) as [pre ->].
      apply Forall_app in Hnonnil as [_ Hi].
      apply Forall_cons_iff in Hi as [Hi _].
      intros E. apply app_eq_nil in E as [_ E]. congruence. }
    destruct (join (py "&") (items ++ [i])) as [|x q] eqn:Ej; [congruence|].
    rewrite <- Ej. change (py "&") with [38]. change (ch "&") with 38.
    rewrite <- (app_nil_r (join [38] (items ++ [i]))).
    rewrite split_join_suffix.
    + now rewrite app_nil_r.
    + apply forallb_forall. intros y Hy. rewrite Forall_forall in Hamp.
      apply list_elem_of_In, Hamp in Hy. now rewrite Hy.
    + reflexivity.
Qed.

(** ** What [parse_qsl] reads can be encoded again *)

Lemma ascii_runs_chars s a r c :
  In (a, r) (ascii_runs s) -> In c r -> In c s.
Proof.
  revert a r. induction s as [|x s IH]; intros a r; cbn [ascii_runs];
    [intros []|].
  destruct (ascii_runs s) as [|[a0 r0] rs] eqn:E.
  - intros [[= <- <-] | []] [<- | []]. now left.
  - destruct (eqb a0 (is_ascii x)).
    + intros [[= <- <-] | Hin] Hc.
      * destruct Hc as [<- | Hc]; [now left|]. right.
        apply (IH a0 r0); [now left | exact Hc].
      * right. apply (IH a r); [now right | exact Hc].
    + intros [[= <- <-] | Hin] Hc.
      * destruct Hc as [<- | []]. now left.
      * right. now apply (IH a r).
Qed.

Lemma unquote_valid s : valid_str s -> valid_str (unquote s).
Proof.
  intros Hs. unfold unquote. destruct (negb _); [exact Hs|].
  apply Forall_forall. intros c Hc.
  apply list_elem_of_In, in_flat_map in Hc as ([a r] & Hrun & Hc).
  destruct a.
  - pose proof (utf8_decode_scalar (unquote_to_bytes r)) as Hd.
    rewrite Forall_forall in Hd. now apply Hd, list_elem_of_In.
  - rewrite Forall_forall in Hs. apply Hs, list_elem_of_In.
    now apply (ascii_runs_chars s false r).
Qed.

Lemma replace_char_valid a b s :
  is_scalar b = true -> valid_str s -> valid_str (replace_char a b s).
Proof.
  intros Hb Hs. unfold replace_char. induction Hs as [|x s Hx _ IH];
    cbn [map]; constructor; [|exact IH].
  now destruct (x =? a).
Qed.

Lemma split_char_chars c s y x : In y (split_char c s) -> In x y -> In x s.
Proof.
  revert y. induction s as [|z s IH]; intros y; cbn [split_char].
  - intros [<- | []] [].
  - destruct (z =? c).
    + intros [<- | Hy] Hx; [destruct Hx|]. right. now apply (IH y).
    + destruct (split_char c s) as [|l ls].
      * intros [<- | []] [<- | []]. now left.
      * intros [<- | Hy] Hx.
        -- destruct Hx as [<- | Hx]; [now left|]. right.
           apply (IH l); [now left | exact Hx].
        -- right. apply (IH y); [now right | exact Hx].
Qed.

Lemma partition_char_chars c s x :
  (In x (fst (partition_char c s)) -> In x s) /\
  (forall b, snd (partition_char c s) = Some b -> In x b -> In x s).
Proof.
  induction s as [|z s [IH1 IH2]]; cbn [partition_char].
  - split; [intros [] | discriminate].
  - destruct (z =? c).
    + split; [intros [] | intros b [= <-] Hx; now right].
    + destruct (partition_char c s) as [a b']. cbn [fst snd] in *. split.
      * intros [<- | Hx]; [now left | right; now apply IH1].
      * intros b Hb Hx. right. now apply (IH2 b).
Qed.

Lemma valid_str_sub (s t : str) :
  (forall x, In x t -> In x s) -> valid_str s -> valid_str t.
Proof.
  intros Hsub Hs. rewrite Forall_forall in *. intros x Hx.
  apply Hs, list_elem_of_In, Hsub, list_elem_of_In, Hx.
Qed.

Lemma parse_field_valid (nv : str) :
  valid_str nv ->
  Forall (fun p => valid_str (fst p) /\ valid_str (snd p)) (parse_field nv).
Proof.
  intros Hnv. unfold parse_field. destruct nv as [|c nv]; [constructor|].
  destruct (partition_char (ch "=") (c :: nv)) as [n v] eqn:E.
  constructor; [|constructor]. cbn [fst snd]. split.
  - apply unquote_valid, replace_char_valid; [reflexivity|].
    apply (valid_str_sub (c :: nv)); [|exact Hnv]. intros x Hx.
    apply (partition_char_chars (ch "=") (c :: nv) x). now rewrite E.
  - apply unquote_valid, replace_char_valid; [reflexivity|].
    destruct v as [v|]; [|constructor]. cbn [default].
    apply (valid_str_sub (c :: nv)); [|exact Hnv]. intros x Hx.
    apply (partition_char_chars (ch "=") (c :: nv) x) with (b := v);
      [now rewrite E | exact Hx].
Qed.

Lemma parse_qsl_valid qs :
  valid_str qs ->
  Forall (fun p => valid_str (fst p) /\ valid_str (snd p)) (parse_qsl qs).
Proof.
  intros Hqs. rewrite parse_qsl_fields.
  destruct qs as [|c qs]; [constructor|].
  apply Forall_forall. intros p Hp.
  apply list_elem_of_In, in_flat_map in Hp as (nv & Hnv & Hp).
  assert (Hvalid : valid_str nv).
  { apply (valid_str_sub (c :: qs)); [|exact Hqs]. intros x Hx.
    now apply (split_char_chars (ch "&") (c :: qs) nv). }
  pose proof (parse_field_valid nv Hvalid) as Hf.
  rewrite Forall_forall in Hf. now apply Hf, list_elem_of_In.
Qed.

Lemma lstrip_of_chars f s x : In x (lstrip_of f s) -> In x s.
Proof.
  destruct (lstrip_of_suffix f s) as [a Ha]. intros Hx. rewrite Ha.
  apply in_or_app. now right.
Qed.

Lemma remove_char_chars a s x : In x (remove_char a s) -> In x s.
Proof.
  unfold remove_char. rewrite <- !list_elem_of_In, list_elem_of_filter. tauto.
Qed.

Lemma span_chars f s x : In x (snd (span f s)) -> In x s.
Proof.
  induction s as [|c s IH]; cbn [span]; [intros []|].
  destruct (f c); [|exact id].
  destruct (span f s) as [a b]. cbn [snd] in *. intros Hx. right. now apply IH.
Qed.

Lemma drop_chars n (s : str) x : In x (drop n s) -> In x s.
Proof. rewrite <- !list_elem_of_In. apply subseteq_drop. Qed.

Section urlsplit_facts.
Context {U : Unicode}.

(** The query [urlsplit] returns is made of characters of the url. *)
Lemma urlsplit_query_chars url scheme netloc path query fragment x :
  urlsplit url = Ok (scheme, netloc, path, query, fragment) ->
  In x query -> In x url.
Proof.
  unfold urlsplit.
  set (u0 := remove_char 10 (remove_char 13 (remove_char 9
               (lstrip_of c0_control_or_space url)))).
  assert (H0 : forall y, In y u0 -> In y url).
  { intros y Hy. unfold u0 in Hy.
    now apply remove_char_chars, remove_char_chars, remove_char_chars,
      lstrip_of_chars in Hy. }
  destruct (match partition_char (ch ":") u0 with
            | (c0 :: before, Some after) =>
                if (is_upper c0 || is_lower c0)
                   && forallb scheme_chars (c0 :: before)
                then (map ascii_lower_char (c0 :: before), after)
                else ([], u0)
            | _ => ([], u0)
            end) as [sch u1] eqn:E1.
  assert (H1 : forall y, In y u1 -> In y u0).
  { intros y Hy. destruct (partition_char (ch ":") u0) as [b a] eqn:Ep.
    destruct b as [|c0 before]; [injection E1 as _ <-; exact Hy|].
    destruct a as [after|]; [|injection E1 as _ <-; exact Hy].
    destruct ((is_upper c0 || is_lower c0) && _);
      injection E1 as _ <-; [|exact Hy].
    apply (partition_char_chars (ch ":") u0 y) with (b := after);
      [now rewrite Ep | exact Hy]. }
  destruct (if startswith (py "//") u1
            then
              let '(netloc, rest) := splitnetloc u1 in
              let lb := has_char (ch "[") netloc in
              let rb := has_char (ch "]") netloc in
              if (lb && negb rb) || (rb && negb lb) then Raise ValueError
              else
                _ ← (if lb && rb then check_bracketed_netloc netloc
                     else Ok tt);
                Ok (netloc, rest)
            else Ok ([], u1)) as [[net u2]|] eqn:E2;
    cbn [mbind result_bind]; [|discriminate].
  assert (H2 : forall y, In y u2 -> In y u1).
  { intros y Hy. destruct (startswith (py "//") u1);
      [|injection E2 as _ <-; exact Hy].
    unfold splitnetloc in E2.
    destruct (span _ (drop 2 u1)) as [n r] eqn:Es.
    destruct ((has_char (ch "[") n && negb (has_char (ch "]") n))
              || (has_char (ch "]") n && negb (has_char (ch "[") n)));
      [discriminate|].
    destruct (if has_char (ch "[") n && has_char (ch "]") n
              then check_bracketed_netloc n else Ok tt);
      cbn [mbind result_bind] in E2; [|discriminate].
    injection E2 as _ <-. apply (drop_chars 2).
    eapply span_chars. rewrite Es. exact Hy. }
  destruct (partition_char (ch "#") u2) as [u3 frag] eqn:E3.
  destruct (partition_char (ch "?") u3) as [p q] eqn:E4.
  destruct (checknetloc net); cbn [mbind result_bind]; [|discriminate].
  intros [= _ _ _ <- _] Hx.
  apply H0, H1, H2.
  apply (partition_char_chars (ch "#") u2 x). rewrite E3. cbn [fst].
  destruct q as [q|]; [|destruct Hx].
  apply (partition_char_chars (ch "?") u3 x) with (b := q);
    [now rewrite E4 | exact Hx].
Qed.

End urlsplit_facts.

(** ** The tracking parameter (C1) *)

Section tracking_parameter.
Context {U : Unicode}.

(** C1, as amended. For a destination that holds the text
    [utm_source=chatgpt.com], [strip_chatgpt_utm] raises where [urlsplit]
    raises; otherwise it rebuilds the destination from the same scheme,
    netloc, path and fragment and a query written anew, whose decoded
    (name, value) pairs are the decoded pairs of the old query, in order,
    without the pairs (utm_source, chatgpt.com): the new query holds no such
    pair. [http://x/?a=1&utm_source=chatgpt.com&b=2] becomes
    [http://x/?a=1&b=2]. *)
Theorem utm_parameter_removed (url : str) :
  valid_str url ->
  contains (py "utm_source=chatgpt.com") url = true ->
  match urlsplit url with
  | Raise e => strip_chatgpt_utm url = Raise e
  | Ok (scheme, netloc, path, query, fragment) =>
      exists new_query,
        strip_chatgpt_utm url
        = Ok (urlunsplit (scheme, netloc, path, new_query, fragment)) /\
        parse_qsl new_query
        = List.filter (fun p => negb (is_chatgpt_utm p)) (parse_qsl query) /\
        ~ In (py "utm_source", py "chatgpt.com") (parse_qsl new_query)
  end /\
  strip_chatgpt_utm (py "http://x/?a=1&utm_source=chatgpt.com&b=2")
  = Ok (py "http://x/?a=1&b=2").
Proof.
  intros Hvalid Hcontains. split; [|vm_compute; reflexivity].
  unfold strip_chatgpt_utm. rewrite Hcontains. cbn [negb].
  destruct (urlsplit url) as [[[[[scheme netloc] path] query] fragment]|e]
    eqn:Esplit; cbn [mbind result_bind]; [|reflexivity].
  assert (Hquery : valid_str query).
  { apply (valid_str_sub url); [|exact Hvalid].
    intros x. eapply urlsplit_query_chars. exact Esplit. }
  assert (Hsame : List.filter
                    (fun '(k, v) =>
                       negb (str_eqb k (py "utm_source")
                             && str_eqb v (py "chatgpt.com")))
                    (parse_qsl query)
                  = List.filter (fun p => negb (is_chatgpt_utm p))
                      (parse_qsl query)).
  { apply filter_ext. now intros [k v]. }
  rewrite Hsame.
  assert (Hfiltered : Forall (fun p => valid_str (fst p) /\ valid_str (snd p))
                        (List.filter (fun p => negb (is_chatgpt_utm p))
                           (parse_qsl query))).
  { pose proof (parse_qsl_valid query Hquery) as Hall.
    rewrite Forall_forall in *. intros p Hp. apply Hall.
    apply list_elem_of_In, filter_In in Hp as [Hp _].
    now apply list_elem_of_In. }
  destruct (urlencode_parse _ Hfiltered) as (new_query & Henc & Hparse).
  exists new_query. rewrite Henc. cbn [mbind result_bind].
  split; [reflexivity|]. split; [exact Hparse|].
  rewrite Hparse. intros Hin. apply filter_In in Hin as [_ Hin].
  discriminate.
Qed.

End tracking_parameter.

Lemma utm_parameter_removed_witness :
  strip_chatgpt_utm (U := ascii_tables)
    (py "https://a.org/p?utm_source=chatgpt.com&q=r#s")
  = Ok (py "https://a.org/p?q=r#s").
Proof.
  pose proof (utm_parameter_removed (U := ascii_tables)
                (py "https://a.org/p?utm_source=chatgpt.com&q=r#s")) as Hthm.
  destruct Hthm as [Hsplit _].
  - apply Forall_forall. intros c Hc.
    apply list_elem_of_In in Hc. vm_compute in Hc.
    repeat (destruct Hc as [<- | Hc]; [reflexivity|]). destruct Hc.
  - reflexivity.
  - vm_compute. reflexivity.
Defined.

(** C1 as stated fails: the text can remain (here in the fragment), and the
    other parameters are written anew, not kept as they were. *)
Lemma utm_text_remains_and_parameters_are_rewritten :
  contains (py "utm_source=chatgpt.com") (py "http://x/#utm_source=chatgpt.com")
  = true /\
  strip_chatgpt_utm (U := ascii_tables) (py "http://x/#utm_source=chatgpt.com")
  = Ok (py "http://x/#utm_source=chatgpt.com") /\
  strip_chatgpt_utm (U := ascii_tables) (py "http://x/?a&utm_source=chatgpt.com")
  = Ok (py "http://x/?a=") /\
  strip_chatgpt_utm (U := ascii_tables)
    (py "http://x/?a=1/2&utm_source=chatgpt.com")
  = Ok (py "http://x/?a=1%2F2").
Proof. repeat split. Qed.

(** ** Texts that the rewriting of a url keeps *)

(** ** A text that survives the rewriting of a destination *)

Lemma startswith_app_stop (needle a : str) c (b : str) :
  has_char c needle = false ->
  startswith needle (a ++ c :: b) = true -> startswith needle a = true.
Proof.
  unfold has_char. revert a. induction needle as [|n needle IH]; intros a Hc;
    [reflexivity|].
  cbn [existsb] in Hc. apply orb_false_iff in Hc as [Hn Hc].
  destruct a as [|x a]; cbn [app startswith].
  - rewrite N.eqb_sym, Hn. discriminate.
  - intros Hs. apply andb_true_iff in Hs as [Hx Hs]. rewrite Hx.
    now apply IH.
Qed.

Lemma contains_app_l (needle a b : str) :
  contains needle a = true -> contains needle (a ++ b) = true.
Proof.
  intros Hc. rewrite <- (app_nil_l (a ++ b)).
  now apply (contains_infix needle [] a b).
Qed.

Lemma contains_app_r (needle a b : str) :
  contains needle b = true -> contains needle (a ++ b) = true.
Proof.
  intros Hc. rewrite <- (app_nil_r b). now apply contains_infix.
Qed.

Lemma contains_cons (needle : str) x (s : str) :
  contains needle s = true -> contains needle (x :: s) = true.
Proof. intros Hc. cbn [contains]. rewrite Hc. apply orb_true_r. Qed.

(** A text without [c] that occurs in [a ++ c :: b] occurs in [a] or in
    [b]. *)
Lemma contains_app_or (needle a : str) c (b : str) :
  needle <> [] -> has_char c needle = false ->
  contains needle (a ++ c :: b) = true ->
  contains needle a = true \/ contains needle b = true.
Proof.
  intros Hne Hc. induction a as [|x a IH]; cbn [app contains].
  - intros Hcb. right. apply orb_true_iff in Hcb as [Hs | Hcb]; [|exact Hcb].
    apply (startswith_app_stop needle [] c b Hc) in Hs.
    destruct needle; [congruence | discriminate].
  - intros Hcb. apply orb_true_iff in Hcb as [Hs | Hcb].
    + left. apply (startswith_app_stop needle (x :: a) c b Hc) in Hs.
      rewrite Hs. reflexivity.
    + destruct (IH Hcb) as [Ha | Hb]; [left | now right].
      rewrite Ha. apply orb_true_r.
Qed.

Lemma contains_nil_false (needle : str) :
  needle <> [] -> contains needle [] = false.
Proof. destruct needle; [congruence | reflexivity]. Qed.

Lemma contains_remove_char (needle : str) a (s : str) :
  has_char a needle = false -> contains needle s = true ->
  contains needle (remove_char a s) = true.
Proof.
  intros Ha Hc. apply contains_spec in Hc as (pre & post & ->).
  unfold remove_char. rewrite !filter_app.
  replace (filter (fun x => x <> a) needle) with needle.
  - apply contains_infix. apply contains_spec. exists [], [].
    now rewrite app_nil_r.
  - symmetry. apply has_char_false_iff in Ha.
    induction needle as [|n needle IH]; [reflexivity|].
    rewrite filter_cons_True by (intros ->; apply Ha; now left).
    f_equal. apply IH. intros Hin. apply Ha. now right.
Qed.

Lemma contains_lstrip_of f (needle : str) n (rest s : str) :
  needle = n :: rest -> f n = false -> contains needle s = true ->
  contains needle (lstrip_of f s) = true.
Proof.
  intros -> Hn Hc. apply contains_spec in Hc as (pre & post & ->).
  cbn [app]. destruct (lstrip_of_keeps_from f pre n (rest ++ post) Hn)
    as [pre' ->].
  apply contains_spec. now exists pre', post.
Qed.

Lemma contains_map_fixed (g : N -> N) (needle s : str) :
  map g needle = needle -> contains needle s = true ->
  contains needle (map g s) = true.
Proof.
  intros Hg Hc. apply contains_spec in Hc as (pre & post & ->).
  rewrite !map_app, Hg. apply contains_spec. now eexists _, _.
Qed.

Lemma contains_flat_map {A} (f : A -> str) (needle : str) (l : list A) x :
  In x l -> contains needle (f x) = true ->
  contains needle (flat_map f l) = true.
Proof.
  induction l as [|y l IH]; [intros []|]. cbn [flat_map].
  intros [-> | Hin] Hc; [now apply contains_app_l|].
  apply contains_app_r. now apply IH.
Qed.

Lemma contains_join (needle sep : str) (ls : list str) (x : str) :
  In x ls -> contains needle x = true -> contains needle (join sep ls) = true.
Proof.
  induction ls as [|y ls IH]; [intros []|]. intros Hin Hc.
  destruct ls as [|z ls].
  - destruct Hin as [-> | []]. exact Hc.
  - rewrite join_cons by discriminate. destruct Hin as [-> | Hin].
    + now apply contains_app_l.
    + apply contains_app_r, contains_app_r. now apply IH.
Qed.

Lemma always_safe_low b : always_safe b = true -> 45 <= b.
Proof.
  unfold always_safe, is_upper, is_lower, is_digit.
  change (ch "_") with 95. change (ch ".") with 46. change (ch "-") with 45.
  change (ch "~") with 126.
  rewrite !orb_true_iff, !andb_true_iff, !N.leb_le, !N.eqb_eq. lia.
Qed.

Lemma plain_needle_has_not (needle : str) c :
  plain_needle needle -> always_safe c = false -> has_char c needle = false.
Proof.
  intros (Hsafe & _) Hc. apply has_char_false_iff. intros Hin.
  rewrite forallb_forall in Hsafe. specialize (Hsafe c Hin). congruence.
Qed.

Lemma plain_needle_nonempty (needle : str) : plain_needle needle -> needle <> [].
Proof. intros (_ & _ & Hh) ->. exact Hh. Qed.

Lemma contains_forallb f (needle s : str) :
  contains needle s = true -> forallb f s = true -> forallb f needle = true.
Proof.
  intros Hc Hs. apply contains_spec in Hc as (pre & post & ->).
  rewrite !forallb_app in Hs. apply andb_true_iff in Hs as [_ Hs].
  now apply andb_true_iff in Hs as [Hs _].
Qed.

Lemma partition_char_split c s :
  match partition_char c s with
  | (a, None) => s = a
  | (a, Some b) => s = a ++ c :: b
  end.
Proof.
  induction s as [|x s IH]; cbn [partition_char]; [reflexivity|].
  destruct (N.eqb_spec x c) as [-> | Hx]; [reflexivity|].
  destruct (partition_char c s) as [a [b|]]; cbn [app]; now rewrite <- IH.
Qed.

Lemma span_split f (s : str) :
  s = fst (span f s) ++ snd (span f s) /\
  match snd (span f s) with [] => True | d :: _ => f d = false end.
Proof.
  induction s as [|x s [IH1 IH2]]; cbn [span]; [now split|].
  destruct (f x) eqn:Ex; [|now split].
  destruct (span f s) as [a b]. cbn [fst snd app] in *. split; [|exact IH2].
  now rewrite <- IH1.
Qed.

(** A text without [c] that occurs in [s] occurs before the first [c] or
    after it. *)
Lemma contains_partition (needle : str) c (s : str) :
  needle <> [] -> has_char c needle = false ->
  contains needle s = true ->
  contains needle (fst (partition_char c s)) = true \/
  contains needle (default [] (snd (partition_char c s))) = true.
Proof.
  intros Hne Hc Hs. pose proof (partition_char_split c s) as Hsplit.
  destruct (partition_char c s) as [a [b|]]; cbn [fst snd default].
  - rewrite Hsplit in Hs. now apply (contains_app_or needle a c b).
  - left. now rewrite <- Hsplit.
Qed.

Section rewriting.
Context {U : Unicode}.

(** A plain text that occurs in a url occurs in one of the components
    [urlsplit] returns, the scheme apart. *)
Lemma urlsplit_contains (needle url scheme netloc path query fragment : str) :
  plain_needle needle ->
  urlsplit url = Ok (scheme, netloc, path, query, fragment) ->
  contains needle url = true ->
  contains needle netloc = true \/ contains needle path = true \/
  contains needle query = true \/ contains needle fragment = true.
Proof.
  intros Hplain. pose proof (plain_needle_nonempty _ Hplain) as Hne.
  assert (Hnot : forall c, always_safe c = false -> has_char c needle = false)
    by (intros c; now apply plain_needle_has_not).
  unfold urlsplit.
  set (u0 := remove_char 10 (remove_char 13 (remove_char 9
               (lstrip_of c0_control_or_space url)))).
  intros Hsplit Hurl.
  assert (H0 : contains needle u0 = true).
  { unfold u0. repeat apply contains_remove_char; try (apply Hnot; reflexivity).
    destruct needle as [|n rest] eqn:En; [congruence|].
    apply (contains_lstrip_of _ _ n rest); [reflexivity| |exact Hurl].
    destruct Hplain as (Hsafe & _). cbn [forallb] in Hsafe.
    apply andb_true_iff in Hsafe as [Hn _]. apply always_safe_low in Hn.
    unfold c0_control_or_space. apply N.leb_gt. lia. }
  destruct (match partition_char (ch ":") u0 with
            | (c0 :: before, Some after) =>
                if (is_upper c0 || is_lower c0)
                   && forallb scheme_chars (c0 :: before)
                then (map ascii_lower_char (c0 :: before), after)
                else ([], u0)
            | _ => ([], u0)
            end) as [sch u1] eqn:E1.
  assert (H1 : contains needle u1 = true).
  { pose proof (contains_partition needle (ch ":") u0 Hne
                  (Hnot (ch ":") eq_refl) H0) as Hpart.
    destruct (partition_char (ch ":") u0) as [b a] eqn:Ep.
    destruct b as [|c0 before]; [injection E1 as _ <-; exact H0|].
    destruct a as [after|]; [|injection E1 as _ <-; exact H0].
    destruct ((is_upper c0 || is_lower c0) && forallb scheme_chars (c0 :: before))
      eqn:Esch; injection E1 as _ <-; [|exact H0].
    cbn [fst snd default] in Hpart. destruct Hpart as [Hb | Ha]; [|exact Ha].
    exfalso. apply andb_true_iff in Esch as [_ Hall].
    pose proof (contains_forallb _ _ _ Hb Hall) as Hn.
    destruct Hplain as (_ & Hex & _).
    apply existsb_exists in Hex as (c & Hc & Hcs).
    rewrite forallb_forall in Hn. rewrite (Hn c Hc) in Hcs. discriminate. }
  destruct (if startswith (py "//") u1
            then
              let '(netloc, rest) := splitnetloc u1 in
              let lb := has_char (ch "[") netloc in
              let rb := has_char (ch "]") netloc in
              if (lb && negb rb) || (rb && negb lb) then Raise ValueError
              else
                _ ← (if lb && rb then check_bracketed_netloc netloc
                     else Ok tt);
                Ok (netloc, rest)
            else Ok ([], u1)) as [[net u2]|] eqn:E2;
    cbn [mbind result_bind] in Hsplit; [|discriminate].
  assert (H2 : contains needle net = true \/ contains needle u2 = true).
  { destruct (startswith (py "//") u1) eqn:Esl;
      [|injection E2 as _ <-; now right].
    apply startswith_spec in Esl as [t Ht].
    unfold splitnetloc in E2. rewrite Ht in E2, H1.
    change (drop 2 (py "//" ++ t)) with t in E2.
    pose proof (span_split
                  (fun c => negb ((c =? ch "/") || (c =? ch "?") || (c =? ch "#")))
                  t) as [Hst Hhead].
    destruct (span _ t) as [n r] eqn:Es. cbn [fst snd] in Hst, Hhead.
    destruct ((has_char (ch "[") n && negb (has_char (ch "]") n))
              || (has_char (ch "]") n && negb (has_char (ch "[") n)));
      [discriminate|].
    destruct (if has_char (ch "[") n && has_char (ch "]") n
              then check_bracketed_netloc n else Ok tt);
      cbn [mbind result_bind] in E2; [|discriminate].
    injection E2 as <- <-.
    assert (Ht' : contains needle t = true).
    { change (py "//" ++ t) with ([] ++ ch "/" :: ([] ++ ch "/" :: t)) in H1.
      apply contains_app_or in H1 as [H1 | H1];
        [now rewrite contains_nil_false in H1 | | exact Hne
        | apply Hnot; reflexivity].
      apply contains_app_or in H1 as [H1 | H1];
        [now rewrite contains_nil_false in H1 | exact H1 | exact Hne
        | apply Hnot; reflexivity]. }
    rewrite Hst in Ht'. destruct r as [|d r].
    - left. now rewrite app_nil_r in Ht'.
    - apply contains_app_or in Ht' as [Hn | Hr];
        [now left | right; now apply contains_cons | exact Hne |].
      apply Hnot. apply negb_false_iff in Hhead.
      apply orb_true_iff in Hhead as [Hd | Hd];
        [apply orb_true_iff in Hd as [Hd | Hd]|];
        apply N.eqb_eq in Hd; subst d; reflexivity. }
  pose proof (contains_partition needle (ch "#") u2 Hne
                (Hnot (ch "#") eq_refl)) as H3.
  destruct (partition_char (ch "#") u2) as [u3 frag] eqn:E3.
  pose proof (contains_partition needle (ch "?") u3 Hne
                (Hnot (ch "?") eq_refl)) as H4.
  destruct (partition_char (ch "?") u3) as [p q] eqn:E4.
  cbn [fst snd] in H3, H4.
  destruct (checknetloc net); cbn [mbind result_bind] in Hsplit; [|discriminate].
  injection Hsplit as _ <- <- <- <-.
  destruct H2 as [H2 | H2]; [now left|].
  destruct (H3 H2) as [H3' | H3']; [|now right; right; right].
  destruct (H4 H3') as [H4' | H4']; [now right; left | now right; right; left].
Qed.

(** A plain text that occurs in the netloc, the path, the query or the
    fragment occurs in the url [urlunsplit] builds. *)
Lemma urlunsplit_contains (needle scheme netloc path query fragment : str) :
  needle <> [] ->
  contains needle netloc = true \/ contains needle path = true \/
  contains needle query = true \/ contains needle fragment = true ->
  contains needle (urlunsplit (scheme, netloc, path, query, fragment)) = true.
Proof.
  intros Hne Hin.
  assert (Hnil : forall s, contains needle s = true -> str_eqb s [] = false).
  { intros s Hs. apply str_eqb_false. intros ->.
    now rewrite contains_nil_false in Hs. }
  unfold urlunsplit.
  set (url1 := if negb (str_eqb netloc []) || _ then _ else path).
  set (url2 := if negb (str_eqb scheme []) then _ else url1).
  set (url3 := if negb (str_eqb query []) then _ else url2).
  assert (H1 : contains needle netloc = true \/ contains needle path = true ->
               contains needle url1 = true).
  { unfold url1. intros [Hn | Hp].
    - rewrite (Hnil _ Hn). cbn [negb orb].
      now apply contains_app_r, contains_app_l.
    - destruct (negb (str_eqb netloc []) || _); [|exact Hp].
      apply contains_app_r, contains_app_r.
      destruct (negb (str_eqb path []) && _); [now apply contains_app_r|exact Hp]. }
  assert (H2 : contains needle url1 = true -> contains needle url2 = true).
  { unfold url2. intros Hu. destruct (negb (str_eqb scheme [])); [|exact Hu].
    now apply contains_app_r, contains_app_r. }
  assert (H3 : contains needle url2 = true \/ contains needle query = true ->
               contains needle url3 = true).
  { unfold url3. intros [Hu | Hq].
    - destruct (negb (str_eqb query [])); [now apply contains_app_l | exact Hu].
    - rewrite (Hnil _ Hq). cbn [negb]. now apply contains_app_r, contains_app_r. }
  assert (H4 : contains needle url3 = true ->
               contains needle
                 (if negb (str_eqb fragment [])
                  then url3 ++ py "#" ++ fragment else url3) = true).
  { intros Hu. destruct (negb (str_eqb fragment []));
      [now apply contains_app_l | exact Hu]. }
  destruct Hin as [Hn | [Hp | [Hq | Hf]]].
  - apply H4, H3. left. apply H2, H1. now left.
  - apply H4, H3. left. apply H2, H1. now right.
  - apply H4, H3. now right.
  - rewrite (Hnil _ Hf). cbn [negb]. now apply contains_app_r, contains_app_r.
Qed.

End rewriting.

(** One step of the decoder: a character, and the continuation bytes that
    went into it. *)
Lemma utf8_decode_step b0 (r : list N) :
  exists c k, utf8_decode (b0 :: r) = c :: utf8_decode (drop k r) /\
              Forall (fun b => 128 <= b) (take k r).
Proof.
  assert (Hcont : forall b, is_cont b = true -> 128 <= b).
  { intros b. unfold is_cont. rewrite andb_true_iff, N.leb_le. tauto. }
  assert (Hsecond : forall b, second_ok b0 b = true -> 128 <= b).
  { intros b. unfold second_ok. rewrite andb_true_iff. intros [H _].
    now apply Hcont. }
  cbn [utf8_decode].
  destruct (b0 <? 128); [exists b0, 0%nat; now split|].
  destruct (b0 <? 194); [exists replacement, 0%nat; now split|].
  destruct r as [|b1 r1].
  { exists replacement, 0%nat.
    destruct (b0 <? 224), (b0 <? 240), (b0 <? 245); now split. }
  destruct (b0 <? 224).
  { destruct (is_cont b1) eqn:E1.
    - eexists _, 1%nat. split; [reflexivity|]. repeat constructor. auto.
    - exists replacement, 0%nat. now split. }
  destruct (b0 <? 240).
  { destruct (second_ok b0 b1) eqn:E1;
      [|exists replacement, 0%nat; now split].
    destruct r1 as [|b2 r2].
    - exists replacement, 1%nat. split; [reflexivity|]. repeat constructor. auto.
    - destruct (is_cont b2) eqn:E2.
      + eexists _, 2%nat. split; [reflexivity|]. repeat constructor; auto.
      + exists replacement, 1%nat. split; [reflexivity|].
        repeat constructor. auto. }
  destruct (b0 <? 245); [|exists replacement, 0%nat; now split].
  destruct (second_ok b0 b1) eqn:E1; [|exists replacement, 0%nat; now split].
  destruct r1 as [|b2 r2].
  { exists replacement, 1%nat. split; [reflexivity|]. repeat constructor. auto. }
  destruct (is_cont b2) eqn:E2.
  - destruct r2 as [|b3 r3].
    + exists replacement, 2%nat. split; [reflexivity|].
      repeat constructor; auto.
    + destruct (is_cont b3) eqn:E3.
      * eexists _, 3%nat. split; [reflexivity|]. repeat constructor; auto.
      * exists replacement, 2%nat. split; [reflexivity|].
        repeat constructor; auto.
  - exists replacement, 1%nat. split; [reflexivity|]. repeat constructor. auto.
Qed.

(** Decoding never runs over an ASCII byte. *)
Lemma utf8_decode_upto_ascii (n : nat) (pre : list N) x (rest : list N) :
  (length pre <= n)%nat -> x < 128 ->
  exists d, utf8_decode (pre ++ x :: rest) = d ++ utf8_decode (x :: rest).
Proof.
  revert pre. induction n as [|n IH]; intros pre Hlen Hx.
  - destruct pre; [now exists [] | simpl in Hlen; lia].
  - destruct pre as [|b0 r0]; [now exists []|]. simpl in Hlen.
    cbn [app].
    destruct (utf8_decode_step b0 (r0 ++ x :: rest)) as (c & k & Hstep & Hk).
    assert (Hle : (k <= length r0)%nat).
    { destruct (Nat.le_gt_cases k (length r0)) as [Hle | Hgt]; [exact Hle|].
      exfalso. rewrite Forall_lookup in Hk.
      assert (Hx' : take k (r0 ++ x :: rest) !! length r0 = Some x).
      { rewrite lookup_take_lt by lia. now rewrite list_lookup_middle. }
      apply Hk in Hx'. lia. }
    rewrite Hstep, drop_app_le by exact Hle.
    destruct (IH (drop k r0)) as [d Hd]; [rewrite length_drop; lia | exact Hx|].
    exists (c :: d). now rewrite Hd.
Qed.

Lemma utf8_decode_ascii_prefix (needle rest : list N) :
  forallb is_ascii needle = true ->
  utf8_decode (needle ++ rest) = needle ++ utf8_decode rest.
Proof.
  induction needle as [|n needle IH]; [reflexivity|]. cbn [forallb app].
  intros Hall. apply andb_true_iff in Hall as [Hn Hall].
  unfold is_ascii in Hn. apply N.ltb_lt in Hn.
  now rewrite utf8_decode_1, IH.
Qed.

Lemma utf8_decode_contains (needle bs : list N) :
  needle <> [] -> forallb is_ascii needle = true ->
  contains needle bs = true -> contains needle (utf8_decode bs) = true.
Proof.
  intros Hne Hascii Hc. apply contains_spec in Hc as (pre & post & ->).
  destruct needle as [|n needle]; [congruence|].
  assert (Hn : n < 128).
  { cbn [forallb] in Hascii. apply andb_true_iff in Hascii as [Hn _].
    now apply N.ltb_lt in Hn. }
  cbn [app].
  destruct (utf8_decode_upto_ascii (length pre) pre n (needle ++ post))
    as [d ->]; [lia | exact Hn|].
  change (n :: needle ++ post) with ((n :: needle) ++ post).
  rewrite utf8_decode_ascii_prefix by exact Hascii.
  apply contains_spec. now exists d, (utf8_decode post).
Qed.

Lemma split_char_head_prefix c (t l : str) (ls : list str) :
  split_char c t = l :: ls -> exists t', t = l ++ t'.
Proof.
  revert l ls. induction t as [|x t IH]; intros l ls; cbn [split_char].
  - intros [= <- <-]. now exists [].
  - destruct (x =? c).
    + intros [= <- <-]. now eexists.
    + destruct (split_char c t) as [|l' ls'] eqn:E.
      * intros [= <- <-]. exists t. reflexivity.
      * intros [= <- <-]. destruct (IH l' ls' eq_refl) as [t' ->].
        now exists t'.
Qed.

Lemma unquote_to_bytes_literal (t : str) :
  match t with
  | h1 :: h2 :: _ => hex_value h1 = None \/ hex_value h2 = None
  | _ => True
  end ->
  unquote_to_bytes (37 :: t) = 37 :: unquote_to_bytes t.
Proof.
  intros Ht. unfold unquote_to_bytes. change (ch "%") with 37.
  cbn [split_char]. rewrite N.eqb_refl.
  pose proof (split_char_nonempty 37 t) as Hne.
  destruct (split_char 37 t) as [|l ls] eqn:E; [congruence|].
  destruct (split_char_head_prefix 37 t l ls E) as [t' ->].
  cbn [app flat_map].
  enough (Hitem : unquote_item l = 37 :: l) by now rewrite Hitem.
  unfold unquote_item. change (ch "%") with 37.
  destruct l as [|a [|b l]]; try reflexivity.
  cbn [app] in Ht. destruct Ht as [-> | Hb]; [reflexivity|].
  rewrite Hb. now destruct (hex_value a).
Qed.

Lemma hex_value_not_percent h a : hex_value h = Some a -> h <> 37.
Proof. intros Hh ->. discriminate. Qed.

Lemma unquote_to_bytes_plain_prefix (needle post : str) :
  has_char 37 needle = false ->
  unquote_to_bytes (needle ++ post) = needle ++ unquote_to_bytes post.
Proof.
  unfold has_char. induction needle as [|n needle IH]; [reflexivity|].
  cbn [existsb app]. intros Hn. apply orb_false_iff in Hn as [Hn Hneedle].
  rewrite unquote_to_bytes_plain by (apply N.eqb_neq; now rewrite N.eqb_sym).
  now rewrite IH.
Qed.

(** Unquoting leaves in place a text without percent sign that does not
    start with a hex digit. *)
Lemma unquote_to_bytes_upto (k : nat) (pre : str) n (needle post : str) :
  (length pre <= k)%nat -> hex_value n = None ->
  exists d, unquote_to_bytes (pre ++ n :: needle ++ post)
            = d ++ unquote_to_bytes (n :: needle ++ post).
Proof.
  revert pre. induction k as [|k IH]; intros pre Hlen Hn.
  - destruct pre; [now exists [] | simpl in Hlen; lia].
  - destruct pre as [|x pre]; [now exists []|]. simpl in Hlen. cbn [app].
    destruct (N.eqb_spec x 37) as [-> | Hx].
    + destruct pre as [|h1 [|h2 pre]].
      * rewrite unquote_to_bytes_literal.
        -- now exists [37].
        -- cbn [app]. destruct (needle ++ post); [exact I | now left].
      * rewrite unquote_to_bytes_literal by (cbn [app]; now right).
        destruct (IH [h1]) as [d ->]; [simpl in Hlen |- *; lia | exact Hn|].
        now exists (37 :: d).
      * cbn [app]. simpl in Hlen.
        destruct (hex_value h1) as [a|] eqn:E1;
          [destruct (hex_value h2) as [b|] eqn:E2|].
        -- rewrite (unquote_to_bytes_escape h1 h2 a b _ E1 E2
                      (hex_value_not_percent _ _ E1)
                      (hex_value_not_percent _ _ E2)).
           destruct (IH pre) as [d ->]; [lia | exact Hn|].
           now eexists (_ :: d).
        -- rewrite unquote_to_bytes_literal by now right.
           destruct (IH (h1 :: h2 :: pre)) as [d Hd]; [simpl; lia | exact Hn|].
           cbn [app] in Hd. rewrite Hd. now exists (37 :: d).
        -- rewrite unquote_to_bytes_literal by now left.
           destruct (IH (h1 :: h2 :: pre)) as [d Hd]; [simpl; lia | exact Hn|].
           cbn [app] in Hd. rewrite Hd. now exists (37 :: d).
    + rewrite unquote_to_bytes_plain by exact Hx.
      destruct (IH pre) as [d ->]; [lia | exact Hn|].
      now exists (x :: d).
Qed.

Lemma unquote_to_bytes_contains (needle r : str) :
  plain_needle needle ->
  contains needle r = true -> contains needle (unquote_to_bytes r) = true.
Proof.
  intros Hplain Hc. apply contains_spec in Hc as (pre & post & ->).
  pose proof (plain_needle_has_not needle 37 Hplain eq_refl) as Hpct.
  destruct Hplain as (_ & _ & Hhex).
  destruct needle as [|n needle]; [destruct Hhex|]. cbn [app].
  destruct (unquote_to_bytes_upto (length pre) pre n needle post) as [d ->];
    [lia | exact Hhex|].
  change (n :: needle ++ post) with ((n :: needle) ++ post).
  rewrite unquote_to_bytes_plain_prefix by exact Hpct.
  apply contains_spec. now eexists _, _.
Qed.

Lemma startswith_contains (needle s : str) :
  startswith needle s = true -> contains needle s = true.
Proof. intros Hs. destruct s; cbn [contains]; now rewrite Hs. Qed.

(** An ASCII start of a text is the start of its first run. *)
Lemma ascii_prefix_in_first_run (s m : str) :
  m <> [] -> forallb is_ascii m = true -> startswith m s = true ->
  exists r rs, ascii_runs s = (true, r) :: rs /\ startswith m r = true.
Proof.
  revert m. induction s as [|y s IH]; intros m Hne Hascii Hs.
  - destruct m; [congruence | discriminate].
  - destruct m as [|x m]; [congruence|]. cbn [startswith] in Hs.
    apply andb_true_iff in Hs as [Hxy Hs]. apply N.eqb_eq in Hxy. subst y.
    cbn [forallb] in Hascii. apply andb_true_iff in Hascii as [Hx Hascii].
    cbn [ascii_runs]. rewrite Hx. destruct m as [|x' m].
    + destruct (ascii_runs s) as [|[a r] rs].
      * exists [x], []. split; [reflexivity|]. cbn [startswith].
        now rewrite N.eqb_refl.
      * destruct a; cbn [eqb].
        -- exists (x :: r), rs. split; [reflexivity|]. cbn [startswith].
           now rewrite N.eqb_refl.
        -- exists [x], ((false, r) :: rs). split; [reflexivity|].
           cbn [startswith]. now rewrite N.eqb_refl.
    + destruct (IH (x' :: m)) as (r & rs & -> & Hr);
        [discriminate | exact Hascii | exact Hs|].
      cbn [eqb]. exists (x :: r), rs. split; [reflexivity|].
      cbn [startswith]. rewrite N.eqb_refl. exact Hr.
Qed.

Lemma ascii_runs_contains (needle s : str) :
  needle <> [] -> forallb is_ascii needle = true ->
  contains needle s = true ->
  exists r, In (true, r) (ascii_runs s) /\ contains needle r = true.
Proof.
  intros Hne Hascii. induction s as [|x s IH]; intros Hc.
  - now rewrite contains_nil_false in Hc.
  - cbn [contains] in Hc. apply orb_true_iff in Hc as [Hs | Hc].
    + destruct (ascii_prefix_in_first_run (x :: s) needle Hne Hascii Hs)
        as (r & rs & -> & Hr).
      exists r. split; [now left | now apply startswith_contains].
    + destruct (IH Hc) as (r & Hin & Hr). cbn [ascii_runs].
      destruct (ascii_runs s) as [|[a r0] rs]; [destruct Hin|].
      destruct (eqb a (is_ascii x)) eqn:Ea.
      * destruct Hin as [[= -> ->] | Hin].
        -- exists (x :: r). split; [now left | now apply contains_cons].
        -- exists r. split; [now right | exact Hr].
      * exists r. split; [now right | exact Hr].
Qed.

Lemma always_safe_ascii (needle : str) :
  forallb always_safe needle = true -> forallb is_ascii needle = true.
Proof.
  rewrite !forallb_forall. intros Hs x Hx. specialize (Hs x Hx).
  apply always_safe_spec in Hs. unfold is_ascii. apply N.ltb_lt. tauto.
Qed.

Lemma unquote_contains (needle s : str) :
  plain_needle needle ->
  contains needle s = true -> contains needle (unquote s) = true.
Proof.
  intros Hplain Hc. pose proof (plain_needle_nonempty _ Hplain) as Hne.
  assert (Hascii : forallb is_ascii needle = true)
    by (destruct Hplain; now apply always_safe_ascii).
  unfold unquote. destruct (negb _); [exact Hc|].
  destruct (ascii_runs_contains needle s Hne Hascii Hc) as (r & Hin & Hr).
  apply (contains_flat_map _ needle _ (true, r) Hin).
  now apply utf8_decode_contains, unquote_to_bytes_contains.
Qed.

(** A start of a text without the separator is the start of its first
    piece. *)
Lemma split_char_first_piece c (s m : str) :
  has_char c m = false -> startswith m s = true ->
  exists l ls, split_char c s = l :: ls /\ startswith m l = true.
Proof.
  revert m. induction s as [|y s IH]; intros m Hc Hs.
  - destruct m; [|discriminate]. now exists [], [].
  - destruct m as [|x m].
    + pose proof (split_char_nonempty c (y :: s)) as Hne.
      destruct (split_char c (y :: s)) as [|l ls]; [congruence|].
      now exists l, ls.
    + cbn [startswith] in Hs. apply andb_true_iff in Hs as [Hxy Hs].
      apply N.eqb_eq in Hxy. subst y. unfold has_char in Hc.
      cbn [existsb] in Hc. apply orb_false_iff in Hc as [Hx Hc].
      cbn [split_char]. rewrite N.eqb_sym, Hx.
      destruct (IH m Hc Hs) as (l & ls & -> & Hl).
      exists (x :: l), ls. split; [reflexivity|]. cbn [startswith].
      now rewrite N.eqb_refl.
Qed.

Lemma contains_split_char c (needle s : str) :
  has_char c needle = false -> contains needle s = true ->
  exists y, In y (split_char c s) /\ contains needle y = true.
Proof.
  intros Hc. induction s as [|x s IH]; intros Hs.
  - cbn [contains] in Hs. rewrite orb_false_r in Hs.
    destruct (split_char_first_piece c [] needle Hc Hs) as (l & ls & -> & Hl).
    exists l. split; [now left | now apply startswith_contains].
  - cbn [contains] in Hs. apply orb_true_iff in Hs as [Hs | Hs].
    + destruct (split_char_first_piece c (x :: s) needle Hc Hs)
        as (l & ls & -> & Hl).
      exists l. split; [now left | now apply startswith_contains].
    + destruct (IH Hs) as (y & Hin & Hy). cbn [split_char].
      destruct (x =? c); [exists y; split; [now right | exact Hy]|].
      destruct (split_char c s) as [|l ls]; [destruct Hin|].
      destruct Hin as [-> | Hin].
      * exists (x :: y). split; [now left | now apply contains_cons].
      * exists y. split; [now right | exact Hy].
Qed.

Lemma replace_char_contains a b (needle s : str) :
  has_char a needle = false -> contains needle s = true ->
  contains needle (replace_char a b s) = true.
Proof.
  intros Ha. apply contains_map_fixed.
  apply has_char_false_iff in Ha. induction needle as [|n needle IH];
    [reflexivity|].
  cbn [map]. destruct (N.eqb_spec n a) as [-> | Hn].
  - exfalso. apply Ha. now left.
  - f_equal. apply IH. intros Hin. apply Ha. now right.
Qed.

(** A plain text in a query is in a name or a value that [parse_qsl] reads
    from it. *)
Lemma parse_qsl_contains (needle query : str) :
  plain_needle needle -> contains needle query = true ->
  exists k v, In (k, v) (parse_qsl query) /\
              (contains needle k = true \/ contains needle v = true).
Proof.
  intros Hplain Hc. pose proof (plain_needle_nonempty _ Hplain) as Hne.
  rewrite parse_qsl_fields.
  destruct query as [|q0 query]; [now rewrite contains_nil_false in Hc|].
  destruct (contains_split_char (ch "&") needle (q0 :: query)
              (plain_needle_has_not _ (ch "&") Hplain eq_refl) Hc)
    as (f & Hin & Hf).
  destruct (contains_partition needle (ch "=") f Hne
              (plain_needle_has_not _ (ch "=") Hplain eq_refl) Hf)
    as [Hk | Hv].
  - exists (unquote (replace_char (ch "+") (ch " ")
                       (fst (partition_char (ch "=") f)))),
           (unquote (replace_char (ch "+") (ch " ")
                       (default [] (snd (partition_char (ch "=") f))))).
    split.
    + apply in_flat_map. exists f. split; [exact Hin|].
      unfold parse_field. destruct f as [|f0 f];
        [now rewrite contains_nil_false in Hf|].
      destruct (partition_char (ch "=") (f0 :: f)). now left.
    + left. apply unquote_contains; [exact Hplain|].
      apply replace_char_contains; [|exact Hk].
      exact (plain_needle_has_not _ (ch "+") Hplain eq_refl).
  - exists (unquote (replace_char (ch "+") (ch " ")
                       (fst (partition_char (ch "=") f)))),
           (unquote (replace_char (ch "+") (ch " ")
                       (default [] (snd (partition_char (ch "=") f))))).
    split.
    + apply in_flat_map. exists f. split; [exact Hin|].
      unfold parse_field. destruct f as [|f0 f];
        [now rewrite contains_nil_false in Hf|].
      destruct (partition_char (ch "=") (f0 :: f)). now left.
    + right. apply unquote_contains; [exact Hplain|].
      apply replace_char_contains; [|exact Hv].
      exact (plain_needle_has_not _ (ch "+") Hplain eq_refl).
Qed.

Lemma utf8_encode_app_inv (a b : str) bs :
  utf8_encode (a ++ b) = Ok bs ->
  exists ba bb, utf8_encode a = Ok ba /\ utf8_encode b = Ok bb /\
                bs = ba ++ bb.
Proof.
  revert bs. induction a as [|x a IH]; intros bs; cbn [app utf8_encode].
  - intros H. now exists [], bs.
  - destruct (utf8_encode_char x) as [bx|e]; [|discriminate].
    cbn [mbind result_bind].
    destruct (utf8_encode (a ++ b)) as [bs'|e]; [|discriminate].
    cbn [mbind result_bind]. intros [= <-].
    destruct (IH bs' eq_refl) as (ba & bb & -> & -> & ->).
    exists (bx ++ ba), bb. cbn [mbind result_bind].
    now rewrite app_assoc.
Qed.

Lemma utf8_encode_ascii (needle : str) :
  forallb is_ascii needle = true -> utf8_encode needle = Ok needle.
Proof.
  induction needle as [|n needle IH]; [reflexivity|]. cbn [forallb].
  intros H. apply andb_true_iff in H as [Hn H]. cbn [utf8_encode].
  unfold utf8_encode_char. unfold is_ascii in Hn. rewrite Hn.
  cbn [mbind result_bind]. now rewrite (IH H).
Qed.

Lemma plus_quoter_plain (needle : str) :
  forallb always_safe needle = true -> flat_map plus_quoter needle = needle.
Proof.
  induction needle as [|n needle IH]; [reflexivity|]. cbn [forallb flat_map].
  intros H. apply andb_true_iff in H as [Hn H]. rewrite (IH H).
  unfold plus_quoter, quoter. rewrite Hn.
  destruct (N.eqb_spec n 32) as [-> | _]; [discriminate | reflexivity].
Qed.

(** [quote_plus] keeps a plain text. *)
Lemma quote_plus_contains (needle s q : str) :
  forallb always_safe needle = true ->
  quote_plus s = Ok q -> contains needle s = true -> contains needle q = true.
Proof.
  intros Hsafe Hq Hc.
  assert (Henc : exists bs, utf8_encode s = Ok bs).
  { unfold quote_plus, quote in Hq. destruct s as [|c s]; [now exists []|].
    destruct (utf8_encode (c :: s)) as [bs|e]; [now exists bs|].
    cbn [mbind result_bind] in Hq. now destruct (negb _). }
  destruct Henc as [bs Henc]. rewrite (quote_plus_flat s bs Henc) in Hq.
  injection Hq as <-. apply contains_spec in Hc as (pre & post & ->).
  apply utf8_encode_app_inv in Henc as (ba & bb & _ & Hrest & ->).
  apply utf8_encode_app_inv in Hrest as (bn & bp & Hn & _ & ->).
  rewrite (utf8_encode_ascii needle (always_safe_ascii _ Hsafe)) in Hn.
  injection Hn as <-. rewrite !flat_map_app, (plus_quoter_plain _ Hsafe).
  apply contains_spec. now eexists _, _.
Qed.

(** [urlencode] keeps a plain text of a name or a value. *)
Lemma urlencode_contains (needle : str) pairs k v q :
  forallb always_safe needle = true ->
  urlencode pairs = Ok q -> In (k, v) pairs ->
  contains needle k = true \/ contains needle v = true ->
  contains needle q = true.
Proof.
  intros Hsafe Hq Hin Hkv. unfold urlencode in Hq.
  destruct (for_each _ pairs) as [items|e] eqn:Hitems; [|discriminate].
  cbn [mbind result_bind] in Hq. injection Hq as <-.
  destruct (for_each_In_l _ _ _ _ Hitems Hin) as (item & Hitem & Hf).
  apply (contains_join needle _ items item Hitem).
  destruct (quote_plus k) as [k'|e] eqn:Hk; [|discriminate].
  destruct (quote_plus v) as [v'|e] eqn:Hv; [|discriminate].
  cbn [mbind result_bind] in Hf.
  replace item with (k' ++ py "=" ++ v') by congruence.
  destruct Hkv as [Hc | Hc].
  - apply contains_app_l. exact (quote_plus_contains _ _ _ Hsafe Hk Hc).
  - apply contains_app_r, contains_app_r.
    exact (quote_plus_contains _ _ _ Hsafe Hv Hc).
Qed.

Section keeping.
Context {U : Unicode}.

(** A plain text that is in neither half of the tracking parameter stays in
    the url when the parameter is taken out. *)
Lemma strip_chatgpt_utm_contains (needle url out : str) :
  plain_needle needle ->
  contains needle (py "utm_source") = false ->
  contains needle (py "chatgpt.com") = false ->
  strip_chatgpt_utm url = Ok out ->
  contains needle url = true -> contains needle out = true.
Proof.
  intros Hplain Hname Hvalue Hstrip Hc. unfold strip_chatgpt_utm in Hstrip.
  destruct (negb _); [now injection Hstrip as <-|].
  destruct (urlsplit url) as [[[[[scheme netloc] path] query] fragment]|e]
    eqn:Hsplit; [|discriminate].
  cbn [mbind result_bind] in Hstrip.
  destruct (urlencode _) as [new_query|e] eqn:Hq; [|discriminate].
  cbn [mbind result_bind] in Hstrip. injection Hstrip as <-.
  apply urlunsplit_contains; [exact (plain_needle_nonempty _ Hplain)|].
  destruct (urlsplit_contains needle url _ _ _ _ _ Hplain Hsplit Hc)
    as [H | [H | [H | H]]]; [tauto | tauto | | tauto].
  right. right. left.
  destruct (parse_qsl_contains needle query Hplain H) as (k & v & Hin & Hkv).
  destruct Hplain as (Hsafe & _).
  apply (urlencode_contains needle _ k v new_query Hsafe Hq); [|exact Hkv].
  apply filter_In. split; [exact Hin|].
  apply negb_true_iff, andb_false_iff.
  destruct Hkv as [Hk | Hv].
  - left. apply str_eqb_false. intros ->. congruence.
  - right. apply str_eqb_false. intros ->. congruence.
Qed.

End keeping.

(** ** The skip list of the checker *)

Lemma news_is_plain : plain_needle (py "_news").
Proof. repeat split. Qed.

Section skip_list.
Context {U : Unicode}.

(** C10. A link whose destination holds [_news] anywhere is never
    reported, whatever exists on disk: the text is still there once the
    blanks around the destination and the tracking parameter are gone, so
    the turn of the loop ends at the skip test and adds nothing (it ends
    before that only when taking out the tracking parameter raises); the
    same holds for every link whose text, as the loop tests it, holds
    [_news], and no reported link holds [_news]. *)
Theorem news_links_never_reported (w : world) (file_path repo_root : Path) :
  (forall m,
      contains (py "_news") (ml_dest m) = true ->
      check_link w file_path repo_root m
      = (_ ← strip_chatgpt_utm (str_strip (ml_dest m)); Ok None)) /\
  (forall m link,
      strip_chatgpt_utm (str_strip (ml_dest m)) = Ok link ->
      contains (py "_news") link = true ->
      check_link w file_path repo_root m = Ok None) /\
  (forall content broken link cands,
      read_text w file_path = Ok content ->
      check_internal_links w file_path repo_root = Ok broken ->
      In (link, cands) broken ->
      contains (py "_news") link = false).
Proof.
  assert (Hmain : forall m link,
             strip_chatgpt_utm (str_strip (ml_dest m)) = Ok link ->
             contains (py "_news") link = true ->
             check_link w file_path repo_root m = Ok None).
  { intros m link Hlink Hnews. unfold check_link. rewrite Hlink.
    cbn [mbind result_bind]. unfold is_skipped. rewrite Hnews.
    now rewrite !orb_true_r. }
  split; [|split; [exact Hmain|]].
  - intros m Hnews.
    destruct (strip_chatgpt_utm (str_strip (ml_dest m))) as [link|e] eqn:Hlink.
    + cbn [mbind result_bind]. apply (Hmain m link Hlink).
      apply (strip_chatgpt_utm_contains _ _ _ news_is_plain eq_refl eq_refl
               Hlink).
      apply (contains_str_strip (py "_news") (ch "_") (ch "s") (py "new"));
        [reflexivity | reflexivity | reflexivity | exact Hnews].
    + unfold check_link. now rewrite Hlink.
  - intros content broken link cands Hread Hcheck Hin.
    apply (check_internal_links_spec _ _ _ _ _ Hread Hcheck) in Hin
      as (m & _ & Hcl).
    apply check_link_Some in Hcl as (_ & Hskip & _).
    unfold is_skipped in Hskip.
    apply orb_false_iff in Hskip as [_ Hskip]. exact Hskip.
Qed.

End skip_list.

Lemma news_links_never_reported_witness :
  check_link (U := ascii_tables) world_with_dangling_link
    (parse_path (py "docs/guide/page.md")) (parse_path (py "/site"))
    {| ml_text := py "n";
       ml_dest := py " ../old_news?utm_source=chatgpt.com&a=1 " |}
  = Ok None.
Proof.
  destruct (news_links_never_reported (U := ascii_tables)
              world_with_dangling_link
              (parse_path (py "docs/guide/page.md")) (parse_path (py "/site")))
    as [Hskip _].
  rewrite Hskip; reflexivity.
Defined.

(** * Further properties *)

(** ** The small helpers of link_fix.py *)

Lemma re_search_spec (m : str -> bool) (s : str) :
  re_search m s = true <-> exists pre t, s = pre ++ t /\ m t = true.
Proof.
  split.
  - induction s as [|c s IH]; cbn [re_search].
    + rewrite orb_false_r. intros H. now exists [], [].
    + intros H. apply orb_true_iff in H as [H | H].
      * now exists [], (c :: s).
      * destruct (IH H) as (pre & t & -> & Ht). now exists (c :: pre), t.
  - intros (pre & t & -> & Ht). now apply re_search_app.
Qed.

Lemma drop_py_app (p t : str) : drop (length p) (p ++ t) = t.
Proof. now rewrite drop_app_length. Qed.

(** The texts the pattern of [attrs_already_have_target_blank] matches at
    their start. *)
Lemma match_target_blank_spec (s : str) :
  match_target_blank s = true <->
  exists ws1 ws2 v post,
    s = py "target" ++ ws1 ++ py "=" ++ ws2 ++ v ++ post /\
    forallb isspace ws1 = true /\ forallb isspace ws2 = true /\
    (v = py "_blank" \/ v = [34] ++ py "_blank" ++ [34]).
Proof.
  unfold match_target_blank. split.
  - intros H. apply andb_true_iff in H as [Hstart H].
    apply startswith_spec in Hstart as [r ->].
    change 6%nat with (length (py "target")) in H. rewrite drop_py_app in H.
    destruct (lstrip_of_split isspace r) as (ws1 & Hr & Hws1).
    unfold str_lstrip in H.
    destruct (lstrip_of isspace r) as [|c s1]; [discriminate|].
    apply andb_true_iff in H as [Hc H]. apply N.eqb_eq in Hc. subst c.
    destruct (lstrip_of_split isspace s1) as (ws2 & Hs1 & Hws2).
    apply orb_true_iff in H as [H | H];
      apply startswith_spec in H as [post Hpost].
    + exists ws1, ws2, ([34] ++ py "_blank" ++ [34]), post.
      split; [|split; [exact Hws1 | split; [exact Hws2 | now right]]].
      rewrite Hr. do 2 f_equal. change (py "=" ++ ?x) with (ch "=" :: x).
      f_equal. rewrite Hs1. f_equal. rewrite Hpost.
      now rewrite <- !app_assoc.
    + exists ws1, ws2, (py "_blank"), post.
      split; [|split; [exact Hws1 | split; [exact Hws2 | now left]]].
      rewrite Hr. do 2 f_equal. change (py "=" ++ ?x) with (ch "=" :: x).
      f_equal. rewrite Hs1. f_equal. exact Hpost.
  - intros (ws1 & ws2 & v & post & -> & Hws1 & Hws2 & Hv).
    rewrite startswith_app. cbn [andb].
    change 6%nat with (length (py "target")). rewrite drop_py_app.
    unfold str_lstrip.
    change (py "=" ++ ?x) with (ch "=" :: x).
    rewrite (lstrip_of_app_stop isspace ws1 _ Hws1) by reflexivity.
    rewrite N.eqb_refl. cbn [andb].
    destruct Hv as [-> | ->].
    + rewrite (lstrip_of_app_stop isspace ws2 _ Hws2) by reflexivity.
      rewrite (startswith_app (py "_blank") post). apply orb_true_r.
    + rewrite (lstrip_of_app_stop isspace ws2 _ Hws2) by reflexivity.
      rewrite <- !app_assoc.
      change ([34] ++ py "_blank" ++ [34] ++ post)
        with ((34 :: py "_blank" ++ [34]) ++ post).
      now rewrite startswith_app.
Qed.

(** X1. [attrs_already_have_target_blank] holds exactly of the texts with
    an occurrence of [target], blanks, [=], blanks and [_blank], bare or in
    double quotes; nothing is asked of what stands before or after. *)
Theorem target_blank_found_iff (attrs : str) :
  attrs_already_have_target_blank attrs = true <->
  exists pre ws1 ws2 v post,
    attrs = pre ++ py "target" ++ ws1 ++ py "=" ++ ws2 ++ v ++ post /\
    forallb isspace ws1 = true /\ forallb isspace ws2 = true /\
    (v = py "_blank" \/ v = [34] ++ py "_blank" ++ [34]).
Proof.
  unfold attrs_already_have_target_blank. rewrite re_search_spec. split.
  - intros (pre & t & -> & Ht). apply match_target_blank_spec in Ht
      as (ws1 & ws2 & v & post & -> & H).
    now exists pre, ws1, ws2, v, post.
  - intros (pre & ws1 & ws2 & v & post & -> & H).
    exists pre, (py "target" ++ ws1 ++ py "=" ++ ws2 ++ v ++ post).
    split; [reflexivity|]. apply match_target_blank_spec.
    now exists ws1, ws2, v, post.
Qed.

Lemma split1_head_split c (s : str) :
  has_char c (split1_head c s) = false /\ exists b, s = split1_head c s ++ b.
Proof.
  unfold split1_head, has_char. induction s as [|x s [IH1 [b IH2]]];
    cbn [partition_char].
  - split; [reflexivity | now exists []].
  - destruct (N.eqb_spec x c) as [-> | Hx]; cbn [fst].
    + split; [reflexivity | now exists (c :: s)].
    + destruct (partition_char c s) as [a o]. cbn [fst] in *.
      split.
      * cbn [existsb]. rewrite IH1, orb_false_r. apply N.eqb_neq. congruence.
      * exists b. cbn [app]. now f_equal.
Qed.

Lemma split1_head_app c (a b : str) :
  has_char c a = false -> split1_head c (a ++ b) = a ++ split1_head c b.
Proof.
  unfold split1_head, has_char. induction a as [|x a IH]; [reflexivity|].
  cbn [existsb app partition_char]. intros H.
  apply orb_false_iff in H as [Hx Ha]. rewrite N.eqb_sym, Hx.
  specialize (IH Ha). destruct (partition_char c (a ++ b)) as [u o].
  cbn [fst] in *. now f_equal.
Qed.

Lemma split1_head_at c (a b : str) :
  has_char c a = false -> split1_head c (a ++ c :: b) = a.
Proof.
  intros Ha. unfold split1_head. now rewrite (partition_char_app c a b Ha).
Qed.

Lemma has_char_infix c (a s b : str) :
  has_char c (a ++ s ++ b) = false -> has_char c s = false.
Proof.
  rewrite !has_char_app. intros H.
  apply orb_false_iff in H as [_ H]. now apply orb_false_iff in H as [H _].
Qed.

Lemma has_char_str_strip c (s : str) :
  has_char c s = false -> has_char c (str_strip s) = false.
Proof.
  intros H. destruct (str_strip_infix s) as (a & b & Hs).
  rewrite Hs in H. exact (has_char_infix c a _ b H).
Qed.

Lemma str_strip_idem (s : str) : str_strip (str_strip s) = str_strip s.
Proof.
  destruct (str_strip s) as [|c t] eqn:E; [reflexivity|].
  rewrite <- E. apply str_strip_of_trimmed, str_strip_trimmed. congruence.
Qed.

Lemma strip_fragment_and_query_clean (url : str) :
  has_char (ch "#") (strip_fragment_and_query url) = false /\
  has_char (ch "?") (strip_fragment_and_query url) = false.
Proof.
  unfold strip_fragment_and_query.
  destruct (split1_head_split (ch "#") url) as [Hfrag _].
  destruct (split1_head_split (ch "?") (split1_head (ch "#") url))
    as [Hquery [b2 Hb2]].
  split; apply has_char_str_strip; [|exact Hquery].
  rewrite Hb2, has_char_app in Hfrag.
  now apply orb_false_iff in Hfrag as [H _].
Qed.

Lemma strip_fragment_and_query_idem (url : str) :
  strip_fragment_and_query (strip_fragment_and_query url)
  = strip_fragment_and_query url.
Proof.
  destruct (strip_fragment_and_query_clean url) as [H1 H2].
  unfold strip_fragment_and_query at 1.
  rewrite (split1_head_absent _ _ H1), (split1_head_absent _ _ H2).
  unfold strip_fragment_and_query. apply str_strip_idem.
Qed.

(** X2. What [strip_fragment_and_query] returns holds neither [#] nor [?],
    has no blank at either end, stands in the url as it is, and stripping
    it again changes nothing; a url without [#] and [?] only loses the
    blanks around it. *)
Theorem strip_fragment_and_query_spec (url : str) :
  let clean := strip_fragment_and_query url in
  has_char (ch "#") clean = false /\
  has_char (ch "?") clean = false /\
  (exists a b, url = a ++ clean ++ b) /\
  str_strip clean = clean /\
  strip_fragment_and_query clean = clean /\
  (has_char (ch "#") url = false -> has_char (ch "?") url = false ->
   clean = str_strip url).
Proof.
  intros clean. unfold clean, strip_fragment_and_query.
  destruct (split1_head_split (ch "#") url) as [Hfrag [b1 Hb1]].
  destruct (split1_head_split (ch "?") (split1_head (ch "#") url))
    as [Hquery [b2 Hb2]].
  set (path := split1_head (ch "?") (split1_head (ch "#") url)) in *.
  assert (Hfrag' : has_char (ch "#") path = false).
  { rewrite Hb2, has_char_app in Hfrag.
    now apply orb_false_iff in Hfrag as [H _]. }
  assert (H1 : has_char (ch "#") (str_strip path) = false)
    by now apply has_char_str_strip.
  assert (H2 : has_char (ch "?") (str_strip path) = false)
    by now apply has_char_str_strip.
  split; [exact H1|]. split; [exact H2|]. split; [|split; [|split]].
  - destruct (str_strip_infix path) as (a & b & Hp).
    exists a, (b ++ b2 ++ b1). rewrite Hb1 at 1. rewrite Hb2 at 1.
    rewrite Hp at 1. now rewrite <- !app_assoc.
  - apply str_strip_idem.
  - rewrite (split1_head_absent _ _ H1), (split1_head_absent _ _ H2).
    apply str_strip_idem.
  - intros Hf Hq. unfold path.
    now rewrite (split1_head_absent _ _ Hf), (split1_head_absent _ _ Hq).
Qed.

Lemma strip_fragment_and_query_fragment (url rest : str) :
  has_char (ch "#") url = false ->
  strip_fragment_and_query (url ++ ch "#" :: rest)
  = strip_fragment_and_query url.
Proof.
  intros Hf. unfold strip_fragment_and_query.
  now rewrite (split1_head_at _ _ _ Hf), (split1_head_absent _ _ Hf).
Qed.

Lemma strip_fragment_and_query_query (url rest : str) :
  has_char (ch "#") url = false -> has_char (ch "?") url = false ->
  strip_fragment_and_query (url ++ ch "?" :: rest)
  = strip_fragment_and_query url.
Proof.
  intros Hf Hq. unfold strip_fragment_and_query.
  rewrite (split1_head_app _ url _ Hf), (split1_head_absent _ _ Hf).
  change (ch "?" :: rest) with ([ch "?"] ++ rest).
  rewrite (split1_head_app (ch "#") [ch "?"] rest eq_refl). cbn [app].
  now rewrite (split1_head_at _ _ _ Hq), (split1_head_absent _ _ Hq).
Qed.

Section helpers.
Context {U : Unicode}.

(** X3. The asset test looks at the url up to its fragment and query only:
    a query or a fragment added to a url that has neither leaves the test
    as it is, and so does cleaning the url first. *)
Theorem asset_test_ignores_query_and_fragment (url rest : str) :
  is_asset_link (strip_fragment_and_query url) = is_asset_link url /\
  (has_char (ch "#") url = false ->
   is_asset_link (url ++ py "#" ++ rest) = is_asset_link url) /\
  (has_char (ch "#") url = false -> has_char (ch "?") url = false ->
   is_asset_link (url ++ py "?" ++ rest) = is_asset_link url).
Proof.
  unfold is_asset_link. split; [|split].
  - now rewrite strip_fragment_and_query_idem.
  - intros Hf. change (py "#" ++ rest) with (ch "#" :: rest).
    now rewrite strip_fragment_and_query_fragment.
  - intros Hf Hq. change (py "?" ++ rest) with (ch "?" :: rest).
    now rewrite strip_fragment_and_query_query.
Qed.

End helpers.

Lemma asset_test_ignores_query_and_fragment_witness :
  is_asset_link (U := ascii_tables)
    (py "img/Logo.PNG" ++ py "?" ++ py "raw=1#top") = true.
Proof.
  destruct (asset_test_ignores_query_and_fragment (U := ascii_tables)
              (py "img/Logo.PNG") (py "raw=1#top")) as (_ & _ & Hq).
  rewrite Hq; reflexivity.
Defined.

(** ** The candidates of a link *)

Lemma candidates_of_clean_target (file_path repo_root : Path) (l1 l2 : str) :
  clean_target l1 = clean_target l2 ->
  candidates_for_quarto_source file_path l1 repo_root
  = candidates_for_quarto_source file_path l2 repo_root.
Proof.
  intros H. unfold candidates_for_quarto_source, target_base, target_is_dir.
  now rewrite H.
Qed.

Lemma clean_target_of_path (link : str) :
  clean_target link
  = let clean := strip_fragment_and_query link in
    if endswith (py ".html") clean then drop_last 5 clean else clean.
Proof. reflexivity. Qed.

Lemma trimmed_app (x y : str) :
  str_strip x = x -> trimmed y -> trimmed (x ++ y).
Proof.
  intros Hx (c & t & Hy & Hc & t' & d & Hy' & Hd).
  destruct x as [|a x].
  - exists c, t. split; [exact Hy|]. split; [exact Hc|]. now exists t', d.
  - assert (Ht : trimmed (a :: x))
      by (rewrite <- Hx; apply str_strip_trimmed; rewrite Hx; discriminate).
    destruct Ht as (a' & x' & [= <- <-] & Ha & _).
    exists a, (x ++ y). split; [reflexivity|]. split; [exact Ha|].
    exists ((a :: x) ++ t'), d. split; [|exact Hd].
    rewrite Hy'. now rewrite app_assoc.
Qed.

Lemma html_trimmed : trimmed (py ".html").
Proof.
  exists (ch "."), (py "html"). split; [reflexivity|]. split; [reflexivity|].
  exists (py ".htm"), (ch "l"). split; reflexivity.
Qed.

Lemma drop_last_app (x y : str) : drop_last (length y) (x ++ y) = x.
Proof.
  unfold drop_last. rewrite length_app.
  replace (length x + length y - length y)%nat with (length x) by lia.
  now rewrite take_app_length.
Qed.

(** X4. Neither a fragment nor a query nor a final [.html] changes the
    candidates of a link: [candidates_for_quarto_source] gives [page#top],
    [page?x=1] and [page.html] the candidates of [page]. *)
Theorem candidates_ignore_fragment_query_html (file_path repo_root : Path)
    (link rest : str) :
  (has_char (ch "#") link = false ->
   candidates_for_quarto_source file_path (link ++ py "#" ++ rest) repo_root
   = candidates_for_quarto_source file_path link repo_root) /\
  (has_char (ch "#") link = false -> has_char (ch "?") link = false ->
   candidates_for_quarto_source file_path (link ++ py "?" ++ rest) repo_root
   = candidates_for_quarto_source file_path link repo_root) /\
  (has_char (ch "#") link = false -> has_char (ch "?") link = false ->
   str_strip link = link -> endswith (py ".html") link = false ->
   candidates_for_quarto_source file_path (link ++ py ".html") repo_root
   = candidates_for_quarto_source file_path link repo_root).
Proof.
  split; [|split].
  - intros Hf. apply candidates_of_clean_target.
    rewrite !clean_target_of_path. change (py "#" ++ rest) with (ch "#" :: rest).
    now rewrite strip_fragment_and_query_fragment.
  - intros Hf Hq. apply candidates_of_clean_target.
    rewrite !clean_target_of_path. change (py "?" ++ rest) with (ch "?" :: rest).
    now rewrite strip_fragment_and_query_query.
  - intros Hf Hq Hstrip Hhtml. apply candidates_of_clean_target.
    unfold clean_target.
    rewrite (split1_head_absent _ _ Hf), (split1_head_absent _ _ Hq).
    rewrite Hstrip, Hhtml.
    assert (Hf' : has_char (ch "#") (link ++ py ".html") = false)
      by (rewrite has_char_app, Hf; reflexivity).
    assert (Hq' : has_char (ch "?") (link ++ py ".html") = false)
      by (rewrite has_char_app, Hq; reflexivity).
    rewrite (split1_head_absent _ _ Hf'), (split1_head_absent _ _ Hq').
    rewrite (str_strip_of_trimmed _ (trimmed_app _ _ Hstrip html_trimmed)).
    replace (endswith (py ".html") (link ++ py ".html")) with true
      by (symmetry; apply endswith_spec; now exists link).
    change 5%nat with (length (py ".html")). apply drop_last_app.
Qed.

Lemma candidates_ignore_fragment_query_html_witness :
  candidates_for_quarto_source (parse_path (py "docs/a.md"))
    (py "guide/page" ++ py ".html") (parse_path (py "/site"))
  = candidates_for_quarto_source (parse_path (py "docs/a.md"))
      (py "guide/page") (parse_path (py "/site")) /\
  candidates_for_quarto_source (parse_path (py "docs/a.md"))
    (py "guide/page" ++ py "?" ++ py "x=1#top") (parse_path (py "/site"))
  = candidates_for_quarto_source (parse_path (py "docs/a.md"))
      (py "guide/page") (parse_path (py "/site")).
Proof.
  destruct (candidates_ignore_fragment_query_html
              (parse_path (py "docs/a.md")) (parse_path (py "/site"))
              (py "guide/page") (py "x=1#top")) as (_ & Hq & Hh).
  split; [apply Hh | apply Hq]; reflexivity.
Defined.





(** ** The report *)

Lemma str_ltb_connex (a b : str) :
  str_ltb a b = false -> str_ltb b a = false -> a = b.
Proof.
  revert b. induction a as [|x a IH]; intros [|y b]; simpl;
    try reflexivity; try discriminate.
  intros Hab Hba.
  apply orb_false_iff in Hab as [Hxy Hab].
  apply orb_false_iff in Hba as [Hyx Hba].
  apply N.ltb_ge in Hxy, Hyx. assert (x = y) by lia. subst y.
  rewrite N.eqb_refl in Hab, Hba. cbn [andb] in Hab, Hba.
  f_equal. now apply IH.
Qed.

Lemma str_leb_antisym (a b : str) :
  str_leb a b = true -> str_leb b a = true -> a = b.
Proof.
  unfold str_leb. rewrite !negb_true_iff. intros Hab Hba.
  now apply str_ltb_connex.
Qed.

Section sorted_lists.
Context {A : Type} (key : A -> str).

Lemma key_inj_in (l : list A) (x y : A) :
  List.NoDup (map key l) -> In x l -> In y l -> key x = key y -> x = y.
Proof.
  induction l as [|a l IH]; [intros _ []|]. cbn [map].
  intros Hnd Hx Hy Hk. apply NoDup_cons_iff in Hnd as [Ha Hnd].
  destruct Hx as [-> | Hx], Hy as [-> | Hy].
  - reflexivity.
  - exfalso. apply Ha. rewrite Hk. now apply in_map.
  - exfalso. apply Ha. rewrite <- Hk. now apply in_map.
  - now apply IH.
Qed.

(** A list with distinct keys has one sorted arrangement. *)
Lemma sorted_unique (l1 l2 : list A) :
  StronglySorted (by_key key) l1 -> StronglySorted (by_key key) l2 ->
  Permutation l1 l2 -> List.NoDup (map key l1) -> l1 = l2.
Proof.
  revert l2. induction l1 as [|x l1 IH]; intros l2 S1 S2 P Hnd.
  - now apply Permutation_nil in P.
  - destruct l2 as [|y l2].
    { symmetry in P. now apply Permutation_nil in P. }
    assert (Hxy : x = y).
    { assert (Hx : In x (y :: l2)) by (apply (Permutation_in _ P); now left).
      assert (Hy : In y (x :: l1))
        by (apply (Permutation_in _ (Permutation_sym P)); now left).
      destruct Hx as [Hx | Hx]; [now symmetry|].
      destruct Hy as [Hy | Hy]; [exact Hy|].
      apply StronglySorted_inv in S1 as [_ F1].
      apply StronglySorted_inv in S2 as [_ F2].
      rewrite Forall_forall in F1, F2.
      apply (key_inj_in (x :: l1)); [exact Hnd | now left | now right|].
      apply str_leb_antisym; [apply (F1 y) | apply (F2 x)];
        now apply list_elem_of_In. }
    subst y. f_equal. apply Permutation_cons_inv in P.
    apply StronglySorted_inv in S1 as [S1 _].
    apply StronglySorted_inv in S2 as [S2 _].
    cbn [map] in Hnd. apply NoDup_cons_iff in Hnd as [_ Hnd].
    now apply IH.
Qed.

Lemma sorted_order_free (l1 l2 : list A) :
  Permutation l1 l2 -> List.NoDup (map key l1) ->
  sorted key l1 = sorted key l2.
Proof.
  intros P Hnd. apply sorted_unique; try apply sorted_sorted.
  - now rewrite !sorted_perm.
  - assert (Hp : Permutation (map key (sorted key l1)) (map key l1))
      by apply Permutation_map, sorted_perm.
    apply (Permutation_NoDup (Permutation_sym Hp) Hnd).
Qed.

End sorted_lists.

Section report_facts.
Context (repo : option str) (server : str).

(** X6. The report does not depend on the order in which the files came
    into the dict: two lists of the same entries, with pairwise distinct
    path texts, give the same run of [write_broken_links_report]. *)
Theorem report_order_free (w : world)
    (broken broken' : list (Path * list (str * list Path)))
    (repo_root : Path) :
  Permutation broken broken' ->
  List.NoDup (map (fun x => path_str (fst x)) broken) ->
  write_broken_links_report repo server w broken' repo_root
  = write_broken_links_report repo server w broken repo_root.
Proof.
  intros P Hnd. unfold write_broken_links_report.
  rewrite (sorted_order_free _ broken broken' P Hnd).
  destruct broken as [|b broken].
  - now apply Permutation_nil in P as ->.
  - destruct broken' as [|b' broken']; [|reflexivity].
    symmetry in P. now apply Permutation_nil in P.
Qed.

(** The code block of one broken link in the report. *)
Lemma report_text_spec (repo_root : Path)
    (groups : list (Path * list (str * list Path))) :
  let '(text, e) := report_text repo server repo_root groups in
  match e with
  | None =>
      (forall f items, In (f, items) groups ->
                       exists rel, relative_to_posix f repo_root = Ok rel) /\
      (forall f items link cands,
          In (f, items) groups -> In (link, cands) items ->
          contains ([10] ++ py "```sh" ++ [10] ++ link ++ [10] ++ py "```"
                    ++ [10]) text = true)
  | Some e =>
      e = ValueError /\
      exists f items, In (f, items) groups /\
                      relative_to_posix f repo_root = Raise ValueError
  end.
Proof.
  induction groups as [|[f items] groups IH]; cbn [report_text].
  - split; [intros f items [] | intros f items link cands []].
  - destruct (relative_to_posix f repo_root) as [rel|e] eqn:Erel.
    + destruct (report_text repo server repo_root groups) as [t [e|]].
      * destruct IH as (-> & f' & items' & Hin & Hf).
        split; [reflexivity|]. exists f', items'. split; [now right | exact Hf].
      * destruct IH as [IH1 IH2]. split.
        -- intros f' items' [[= <- <-] | Hin]; [now exists rel | eauto].
        -- intros f' items' link cands [[= <- <-] | Hin] Hl.
           ++ apply contains_app_r, contains_app_r, contains_app_l.
              apply (contains_flat_map _ _ _ (link, cands) Hl).
              apply contains_spec. exists [], []. now rewrite app_nil_r.
           ++ do 4 apply contains_app_r. eauto.
    + assert (e = ValueError).
      { unfold relative_to_posix in Erel.
        destruct (match length _ with O => _ | S _ => _ end);
          [congruence | discriminate]. }
      subst e. split; [reflexivity|]. exists f, items. split; [now left|].
      exact Erel.
Qed.


End report_facts.

Lemma report_order_free_witness :
  write_broken_links_report None [] world_with_report (rev two_broken_files)
    (parse_path (py "/repo"))
  = write_broken_links_report None [] world_with_report two_broken_files
      (parse_path (py "/repo")).
Proof.
  apply report_order_free.
  - apply perm_swap.
  - repeat constructor; vm_compute; intuition discriminate.
Defined.


(** ** Scanning for a pattern *)

Lemma prev_after_cons prev c (pre : str) :
  prev_after prev (c :: pre) = prev_after (Some c) pre.
Proof.
  unfold prev_after. destruct pre as [|d pre]; [reflexivity|].
  rewrite last_cons. change (last (d :: pre)) with (last (d :: pre)).
  destruct (last (d :: pre)) eqn:E; [reflexivity|].
  apply last_None in E. discriminate.
Qed.

Lemma prev_after_app prev (a b : str) :
  prev_after prev (a ++ b) = prev_after (prev_after prev a) b.
Proof.
  revert prev. induction a as [|c a IH]; intros prev; [reflexivity|].
  cbn [app]. now rewrite !prev_after_cons, IH.
Qed.

Section scanning.
Context {M : Type} (try_match : option N -> str -> option (M * nat)).

(** The characters of a match are passed over. *)
Lemma re_scan_skip (k : nat) prev (s : str) :
  re_scan try_match k prev s
  = re_scan try_match 0 (prev_after prev (take k s)) (drop k s).
Proof.
  revert prev s. induction k as [|k IH]; intros prev s.
  - now rewrite take_0, drop_0.
  - destruct s as [|c s]; [reflexivity|].
    cbn [re_scan take drop]. now rewrite IH, prev_after_cons.
Qed.

Lemma re_scan_lit prev c (s : str) :
  try_match prev (c :: s) = None ->
  re_scan try_match 0 prev (c :: s) = Lit c :: re_scan try_match 0 (Some c) s.
Proof. intros H. cbn [re_scan]. now rewrite H. Qed.

Lemma re_scan_found prev (s : str) m n :
  try_match prev s = Some (m, n) -> n <> 0%nat -> s <> [] ->
  re_scan try_match 0 prev s
  = Found m :: re_scan try_match 0 (prev_after prev (take n s)) (drop n s).
Proof.
  intros H Hn Hs. destruct s as [|c s]; [congruence|].
  cbn [re_scan]. rewrite H, re_scan_skip.
  destruct n as [|n]; [congruence|].
  cbn [take drop]. rewrite prev_after_cons.
  now replace (S n - 1)%nat with n by lia.
Qed.

(** Every match of a scan is a match of the pattern at some place of the
    subject. *)
Lemma re_scan_sound (k : nat) prev (s : str) m :
  In (Found m) (re_scan try_match k prev s) ->
  exists pre post n,
    s = pre ++ post /\ try_match (prev_after prev pre) post = Some (m, n).
Proof.
  revert k prev. induction s as [|c s IH]; intros k prev; [intros []|].
  assert (Hrest : forall k', In (Found m) (re_scan try_match k' (Some c) s) ->
            exists pre post n,
              c :: s = pre ++ post /\
              try_match (prev_after prev pre) post = Some (m, n)).
  { intros k' Hin. destruct (IH _ _ Hin) as (pre & post & n & -> & Hm).
    exists (c :: pre), post, n. split; [reflexivity|].
    now rewrite prev_after_cons. }
  cbn [re_scan]. destruct k as [|k]; [|apply Hrest].
  destruct (try_match prev (c :: s)) as [[m0 n0]|] eqn:E.
  - intros [[= <-] | Hin]; [|now apply (Hrest (n0 - 1)%nat)].
    now exists [], (c :: s), n0.
  - intros [[=] | Hin]. now apply (Hrest 0%nat).
Qed.

Lemma re_finditer_sound (s : str) m :
  In m (re_finditer try_match s) ->
  exists pre post n,
    s = pre ++ post /\ try_match (prev_after None pre) post = Some (m, n).
Proof.
  unfold re_finditer. rewrite <- list_elem_of_In, list_elem_of_omap.
  intros ([c|m'] & Hin & Hm); [discriminate|]. injection Hm as ->.
  apply list_elem_of_In in Hin. exact (re_scan_sound _ _ _ _ Hin).
Qed.

(** Where the pattern matches nowhere, the scan is the subject. *)
Lemma re_scan_no_match prev (s : str) :
  (forall pre post, s = pre ++ post ->
                    try_match (prev_after prev pre) post = None) ->
  re_scan try_match 0 prev s = map Lit s.
Proof.
  revert prev. induction s as [|c s IH]; intros prev Hno; [reflexivity|].
  rewrite re_scan_lit by exact (Hno [] (c :: s) eq_refl).
  cbn [map]. f_equal. apply IH. intros pre post ->.
  rewrite <- (prev_after_cons prev). now apply (Hno (c :: pre) post).
Qed.

End scanning.

Lemma span_spec f (s a b : str) :
  span f s = (a, b) ->
  s = a ++ b /\ forallb f a = true /\
  match b with [] => True | d :: _ => f d = false end.
Proof.
  revert a b. induction s as [|c s IH]; intros a b; cbn [span].
  - intros [= <- <-]. now split.
  - destruct (f c) eqn:Ec.
    + destruct (span f s) as [a' b'] eqn:E. intros [= <- <-].
      destruct (IH a' b' eq_refl) as (-> & Ha & Hb).
      split; [reflexivity|]. split; [|exact Hb]. cbn [forallb].
      now rewrite Ec, Ha.
    + intros [= <- <-]. now split.
Qed.

Lemma span_app_stop f (a : str) d (b : str) :
  forallb f a = true -> f d = false -> span f (a ++ d :: b) = (a, d :: b).
Proof.
  intros Ha Hd. induction a as [|c a IH]; cbn [app span].
  - now rewrite Hd.
  - cbn [forallb] in Ha. apply andb_true_iff in Ha as [Hc Ha].
    now rewrite Hc, (IH Ha).
Qed.

Lemma span_all f (a : str) : forallb f a = true -> span f a = (a, []).
Proof.
  intros Ha. induction a as [|c a IH]; [reflexivity|]. cbn [span].
  cbn [forallb] in Ha. apply andb_true_iff in Ha as [Hc Ha].
  now rewrite Hc, (IH Ha).
Qed.

Lemma forallb_not_char c (s : str) :
  forallb (fun x => negb (x =? c)) s = negb (has_char c s).
Proof.
  unfold has_char. induction s as [|x s IH]; [reflexivity|].
  cbn [forallb existsb]. rewrite IH, negb_orb. now rewrite (N.eqb_sym c x).
Qed.

Lemma forallb_not_char_true c (s : str) :
  forallb (fun x => negb (x =? c)) s = true <-> has_char c s = false.
Proof. rewrite forallb_not_char. apply negb_true_iff. Qed.

(** What the group of the attributes matches: a brace, a text without
    closing brace, a closing brace. *)
Lemma match_attrs_Some (s a : str) :
  match_attrs s = Some a <->
  exists body rest,
    s = py "{" ++ body ++ py "}" ++ rest /\ a = py "{" ++ body ++ py "}" /\
    has_char (ch "}") body = false.
Proof.
  unfold match_attrs. split.
  - destruct s as [|c s1]; [discriminate|].
    destruct (N.eqb_spec c (ch "{")) as [-> | _]; [|discriminate].
    destruct (span _ s1) as [body s2] eqn:E.
    apply span_spec in E as (-> & Hbody & Hs2).
    destruct s2 as [|d rest]; [discriminate|]. intros [= <-].
    apply negb_false_iff, N.eqb_eq in Hs2. subst d.
    exists body, rest. split; [reflexivity|]. split; [reflexivity|].
    now apply forallb_not_char_true.
  - intros (body & rest & -> & -> & Hbody).
    change (py "{" ++ body ++ py "}" ++ rest)
      with (ch "{" :: body ++ ch "}" :: rest).
    cbv beta iota. rewrite N.eqb_refl.
    rewrite (span_app_stop _ body (ch "}") rest);
      [reflexivity | now apply forallb_not_char_true | reflexivity].
Qed.

Lemma match_attrs_None (s : str) :
  match_attrs s = None <->
  match s with
  | [] => True
  | c :: s1 => c <> ch "{" \/ has_char (ch "}") s1 = false
  end.
Proof.
  unfold match_attrs. destruct s as [|c s1]; [tauto|].
  destruct (N.eqb_spec c (ch "{")) as [-> | Hc]; [|tauto].
  destruct (span _ s1) as [body s2] eqn:E.
  apply span_spec in E as (-> & Hbody & Hs2).
  apply forallb_not_char_true in Hbody.
  destruct s2 as [|d rest].
  - rewrite app_nil_r. tauto.
  - apply negb_false_iff, N.eqb_eq in Hs2. subst d. split; [discriminate|].
    intros [H | H]; [congruence|]. rewrite has_char_app in H.
    apply orb_false_iff in H as [_ H]. cbn in H. discriminate.
Qed.

(** What [MARKDOWN_LINK_PATTERN] matches at the start of a text. *)
Lemma match_md_link_spec prev (s : str) m n :
  match_md_link prev s = Some (m, n) <->
  not_after_bang prev = true /\
  ml_text m <> [] /\ has_char (ch "]") (ml_text m) = false /\
  ml_dest m <> [] /\ has_char (ch ")") (ml_dest m) = false /\
  n = (length (ml_text m) + length (ml_dest m) + 4)%nat /\
  exists rest,
    s = py "[" ++ ml_text m ++ py "](" ++ ml_dest m ++ py ")" ++ rest.
Proof.
  unfold match_md_link. split.
  - destruct (not_after_bang prev); [|discriminate].
    destruct s as [|c s1]; [discriminate|].
    destruct (N.eqb_spec c (ch "[")) as [-> | _]; [|discriminate].
    destruct (span _ s1) as [text s2] eqn:E.
    apply span_spec in E as (-> & Htext & Hs2).
    destruct text as [|t0 text]; [discriminate|].
    destruct s2 as [|d s3]; [discriminate|].
    apply negb_false_iff, N.eqb_eq in Hs2. subst d.
    destruct (startswith (py "(") s3) eqn:Hparen; [|discriminate].
    apply startswith_spec in Hparen as [s4 ->].
    change (drop 1 (py "(" ++ s4)) with s4.
    destruct (span _ s4) as [dest s5] eqn:E.
    apply span_spec in E as (-> & Hdest & Hs5).
    destruct dest as [|d0 dest]; [discriminate|].
    destruct s5 as [|d rest]; [discriminate|].
    apply negb_false_iff, N.eqb_eq in Hs5. subst d.
    intros [= <- <-]. cbn [ml_text ml_dest].
    split; [reflexivity|]. split; [discriminate|].
    split; [now apply forallb_not_char_true|]. split; [discriminate|].
    split; [now apply forallb_not_char_true|]. split; [reflexivity|].
    exists rest. reflexivity.
  - intros (-> & Htext & Hnot & Hdest & Hnod & -> & rest & ->).
    destruct m as [text dest]. cbn [ml_text ml_dest] in *.
    change (py "[" ++ text ++ py "](" ++ dest ++ py ")" ++ rest)
      with (ch "[" :: text ++ ch "]" :: py "(" ++ dest ++ ch ")" :: rest).
    cbv beta iota. rewrite N.eqb_refl.
    rewrite (span_app_stop _ text (ch "]"));
      [| now apply forallb_not_char_true | reflexivity].
    destruct text as [|t0 text]; [congruence|].
    rewrite startswith_app. change (drop 1 (py "(" ++ ?x)) with x.
    rewrite (span_app_stop _ dest (ch ")"));
      [| now apply forallb_not_char_true | reflexivity].
    destruct dest as [|d0 dest]; [congruence|]. reflexivity.
Qed.

(** What [MARKDOWN_HTTP_LINK_PATTERN] matches at the start of a text. *)
Lemma match_http_link_spec prev (s : str) m n :
  match_http_link prev s = Some (m, n) <->
  not_after_bang prev = true /\
  hl_text m <> [] /\ has_char (ch "]") (hl_text m) = false /\
  has_char (ch ")") (hl_url m) = false /\
  n = (length (hl_text m) + length (hl_url m) + 4
       + length (default [] (hl_attrs m)))%nat /\
  exists u rest,
    hl_url m = py "http" ++ u /\ u <> [] /\
    s = py "[" ++ hl_text m ++ py "](" ++ hl_url m ++ py ")" ++ rest /\
    hl_attrs m = match_attrs rest.
Proof.
  unfold match_http_link. split.
  - destruct (not_after_bang prev); [|discriminate].
    destruct s as [|c s1]; [discriminate|].
    destruct (N.eqb_spec c (ch "[")) as [-> | _]; [|discriminate].
    destruct (span _ s1) as [text s2] eqn:E.
    apply span_spec in E as (-> & Htext & Hs2).
    destruct text as [|t0 text]; [discriminate|].
    destruct s2 as [|d s3]; [discriminate|].
    apply negb_false_iff, N.eqb_eq in Hs2. subst d.
    destruct (startswith (py "(http") s3) eqn:Hparen; [|discriminate].
    apply startswith_spec in Hparen as [s4 ->].
    change (drop 5 (py "(http" ++ s4)) with s4.
    destruct (span _ s4) as [u s5] eqn:E.
    apply span_spec in E as (-> & Hu & Hs5).
    destruct u as [|u0 u]; [discriminate|].
    destruct s5 as [|d rest]; [discriminate|].
    apply negb_false_iff, N.eqb_eq in Hs5. subst d.
    intros H.
    assert (Hm : m = {| hl_text := t0 :: text; hl_url := py "http" ++ u0 :: u;
                        hl_attrs := match_attrs rest |}) by congruence.
    assert (Hn : n = (length (t0 :: text) + length (u0 :: u) + 8
                      + length (default [] (match_attrs rest)))%nat)
      by congruence.
    clear H. subst m n. cbn [hl_text hl_url hl_attrs].
    split; [reflexivity|]. split; [discriminate|].
    split; [now apply forallb_not_char_true|].
    split.
    { rewrite has_char_app. apply forallb_not_char_true in Hu.
      now rewrite Hu. }
    split.
    { rewrite length_app. change (length (py "http")) with 4%nat. lia. }
    exists (u0 :: u), rest. split; [reflexivity|]. split; [discriminate|].
    split; reflexivity.
  - intros (-> & Htext & Hnot & Hnou & -> & u & rest & Hurl & Hu & -> & Hattrs).
    destruct m as [text url attrs]. cbn [hl_text hl_url hl_attrs] in *.
    subst url attrs.
    change (py "[" ++ text ++ py "](" ++ (py "http" ++ u) ++ py ")" ++ rest)
      with (ch "[" :: text ++ ch "]" :: py "(http" ++ u ++ ch ")" :: rest).
    cbv beta iota. rewrite N.eqb_refl.
    rewrite (span_app_stop _ text (ch "]"));
      [| now apply forallb_not_char_true | reflexivity].
    destruct text as [|t0 text]; [congruence|].
    rewrite startswith_app. change (drop 5 (py "(http" ++ ?x)) with x.
    rewrite has_char_app in Hnou. apply orb_false_iff in Hnou as [_ Hnou].
    rewrite (span_app_stop _ u (ch ")"));
      [| now apply forallb_not_char_true | reflexivity].
    destruct u as [|u0 u]; [congruence|].
    do 3 f_equal. rewrite length_app. change (length (py "http")) with 4%nat.
    lia.
Qed.

(** X8. Every link the two passes work on is an occurrence
    [[text](dest)] in the file that does not follow a [!]: the text is not
    empty and holds no closing bracket, the destination is not empty and
    ends at the first closing parenthesis. For the first pass the destination starts with
    [http] and goes on, and the attributes are the brace block that follows
    the link at once, if there is one. *)
Theorem links_are_occurrences (content : str) :
  (forall m,
      In m (re_finditer match_md_link content) ->
      exists pre post,
        content = pre ++ py "[" ++ ml_text m ++ py "](" ++ ml_dest m ++ py ")"
                  ++ post /\
        last pre <> Some (ch "!") /\
        ml_text m <> [] /\ has_char (ch "]") (ml_text m) = false /\
        ml_dest m <> [] /\ has_char (ch ")") (ml_dest m) = false) /\
  (forall m,
      In m (re_finditer match_http_link content) ->
      exists pre post u,
        content = pre ++ py "[" ++ hl_text m ++ py "](" ++ hl_url m ++ py ")"
                  ++ post /\
        last pre <> Some (ch "!") /\
        hl_text m <> [] /\ has_char (ch "]") (hl_text m) = false /\
        hl_url m = py "http" ++ u /\ u <> [] /\
        has_char (ch ")") (hl_url m) = false /\
        hl_attrs m = match_attrs post).
Proof.
  assert (Hbang : forall pre, not_after_bang (prev_after None pre) = true ->
                              last pre <> Some (ch "!")).
  { intros pre. unfold prev_after, not_after_bang.
    destruct (last pre) as [c|]; [|discriminate].
    intros H [= ->]. discriminate. }
  split.
  - intros m Hm. apply re_finditer_sound in Hm as (pre & s & n & -> & Hm).
    apply match_md_link_spec in Hm
      as (Hprev & Ht & Hnt & Hd & Hnd & _ & rest & ->).
    exists pre, rest. repeat split; auto.
  - intros m Hm. apply re_finditer_sound in Hm as (pre & s & n & -> & Hm).
    apply match_http_link_spec in Hm
      as (Hprev & Ht & Hnt & Hnu & _ & u & rest & Hurl & Hu & -> & Hattrs).
    exists pre, rest, u. repeat split; auto.
Qed.

(** ** The first pass *)

Lemma for_each_lits {M} (repl : M -> result str) (s : str) :
  for_each (fun p => match p with
                     | Found m => repl m
                     | Lit c => Ok [c]
                     end) (map Lit s)
  = Ok (map (fun c => [c]) s).
Proof.
  induction s as [|c s IH]; [reflexivity|]. cbn [map for_each].
  cbn [mbind result_bind]. rewrite IH. reflexivity.
Qed.

Lemma concat_singletons (s : str) : concat (map (fun c => [c]) s) = s.
Proof. induction s as [|c s IH]; [reflexivity|]. cbn. now rewrite IH. Qed.

Lemma re_sub_no_match {M} (try_match : option N -> str -> option (M * nat))
    (repl : M -> result str) (s : str) :
  (forall pre post, s = pre ++ post ->
                    try_match (prev_after None pre) post = None) ->
  re_sub try_match repl s = Ok s.
Proof.
  intros Hno. unfold re_sub. rewrite (re_scan_no_match _ _ _ Hno).
  rewrite for_each_lits. cbn [mbind result_bind].
  now rewrite concat_singletons.
Qed.

Lemma match_http_link_contains prev (s : str) m n :
  match_http_link prev s = Some (m, n) -> contains (py "](http") s = true.
Proof.
  intros H. apply match_http_link_spec in H
    as (_ & _ & _ & _ & _ & u & rest & Hurl & _ & -> & _).
  rewrite Hurl. apply contains_spec.
  exists (py "[" ++ hl_text m), (u ++ py ")" ++ rest).
  rewrite <- !app_assoc. reflexivity.
Qed.

Lemma is_node_insert_file t q c c' x :
  node_at t q = Some (File c) ->
  is_node (<[q := File c']> t) x = is_node t x.
Proof.
  intros Hq. unfold is_node, node_at in *.
  destruct x as [|y x]; [reflexivity|].
  destruct q as [|z q]; [discriminate|].
  destruct (decide (z :: q = y :: x)) as [E | E].
  - rewrite <- E, lookup_insert_eq, Hq. reflexivity.
  - now rewrite lookup_insert_ne.
Qed.

Lemma read_text_Ok (w : world) (p : Path) (content : str) :
  read_text w p = Ok content ->
  exists q c, resolve w p = Some q /\ q <> [] /\ fs w !! q = Some (File c) /\
              node_at (fs w) q = Some (File c) /\
              content = universal_newlines c.
Proof.
  unfold read_text. destruct (resolve w p) as [q|]; [|discriminate].
  destruct (node_at (fs w) q) as [[c|]|] eqn:E; try discriminate.
  intros [= <-]. exists q, c. split; [reflexivity|].
  destruct q as [|z q]; [discriminate|].
  split; [discriminate|]. split; [exact E|]. split; [exact E | reflexivity].
Qed.

Section first_pass.
Context {U : Unicode}.

(** What a run of the pass does to a file it can read. *)
Lemma append_target_blank_run (w : world) (file_path : Path) (content : str) :
  read_text w file_path = Ok content ->
  exists q,
    resolve w file_path = Some q /\ q <> [] /\
    append_target_blank_to_http_links w file_path
    = match re_sub match_http_link add_target_blank content with
      | Raise e => (w, Raise e)
      | Ok updated =>
          if str_eqb updated content
          then (print w (py "No changes needed in " ++ path_str file_path),
                Ok false)
          else (print (set_fs w (<[q := File updated]> (fs w)))
                      (py "Updated external links in " ++ path_str file_path),
                Ok true)
      end.
Proof.
  intros Hread. unfold append_target_blank_to_http_links. rewrite Hread.
  destruct (read_text_Ok _ _ _ Hread) as (q & c & Hq & Hne & _ & Hn & _).
  exists q. split; [exact Hq|]. split; [exact Hne|].
  destruct (re_sub _ _ content) as [updated|e]; [|reflexivity].
  destruct (str_eqb updated content); cbn [negb]; [reflexivity|].
  unfold write_text, is_dir. now rewrite Hq, Hn.
Qed.

(** X9. A file that holds the text [](http] nowhere has no link for the
    first pass: the pass writes nothing, says that no change is needed and
    returns False. *)
Theorem file_without_http_link_untouched (w : world) (file_path : Path)
    (content : str) :
  read_text w file_path = Ok content ->
  contains (py "](http") content = false ->
  append_target_blank_to_http_links w file_path
  = (print w (py "No changes needed in " ++ path_str file_path), Ok false).
Proof.
  intros Hread Hno.
  destruct (append_target_blank_run w file_path content Hread)
    as (q & _ & _ & ->).
  rewrite re_sub_no_match.
  - replace (str_eqb content content) with true
      by (symmetry; now apply str_eqb_true).
    reflexivity.
  - intros pre post ->.
    destruct (match_http_link (prev_after None pre) post) as [[m n]|] eqn:E;
      [|reflexivity].
    apply match_http_link_contains in E.
    rewrite (contains_app_r _ pre post E) in Hno. discriminate.
Qed.

(** X10. What the first pass can do to the tree and the console. When it
    raises, nothing was written or printed. When it returns False, no file
    changed. When it returns True, the file it was given, and no other
    node, holds a new text that differs from the text read. It never
    creates or removes a node, never turns a file into a directory, and
    prints one line when it returns. *)
Theorem first_pass_effects (w : world) (file_path : Path) :
  let w' := fst (append_target_blank_to_http_links w file_path) in
  let r := snd (append_target_blank_to_http_links w file_path) in
  (forall e, r = Raise e -> w' = w) /\
  (r = Ok false ->
   fs w' = fs w /\
   stdout w' = stdout w ++ [py "No changes needed in " ++ path_str file_path]) /\
  (r = Ok true ->
   exists q old new,
     resolve w file_path = Some q /\ fs w !! q = Some (File old) /\
     fs w' = <[q := File new]> (fs w) /\ new <> universal_newlines old /\
     stdout w'
     = stdout w ++ [py "Updated external links in " ++ path_str file_path]) /\
  cwd w' = cwd w /\
  (forall q, is_dir (fs w') q = is_dir (fs w) q) /\
  (forall q, is_node (fs w') q = is_node (fs w) q).
Proof.
  intros w' r. unfold w', r. clear w' r.
  destruct (read_text w file_path) as [content|e] eqn:Hread.
  - destruct (append_target_blank_run w file_path content Hread)
      as (q & Hq & Hne & ->).
    destruct (read_text_Ok _ _ _ Hread) as (q' & c & Hq' & _ & Hl & Hn & Hc).
    assert (q' = q) by congruence. subst q'.
    destruct (re_sub _ _ content) as [updated|e]; cbn [fst snd].
    + destruct (str_eqb updated content) eqn:Esame; cbn [fst snd].
      * repeat split; try discriminate; reflexivity.
      * apply str_eqb_false in Esame. repeat split; try discriminate.
        -- intros _. exists q, c, updated. repeat split; try assumption.
           congruence.
        -- intros x. apply (is_dir_insert_file _ _ c _ _ Hn).
        -- intros x. apply (is_node_insert_file _ _ c _ _ Hn).
    + repeat split; try discriminate; reflexivity.
  - unfold append_target_blank_to_http_links. rewrite Hread. cbn [fst snd].
    repeat split; try discriminate; reflexivity.
Qed.

End first_pass.

Lemma first_pass_untouched_witness :
  append_target_blank_to_http_links (U := ascii_tables)
    world_with_dangling_link (parse_path (py "docs/guide/page.md"))
  = (print world_with_dangling_link
       (py "No changes needed in docs/guide/page.md"), Ok false).
Proof.
  apply (file_without_http_link_untouched (U := ascii_tables)
           world_with_dangling_link (parse_path (py "docs/guide/page.md"))
           (py "[x](../other) [n](../old_news)"));
    reflexivity.
Defined.

(** ** Attribute blocks *)

Lemma slice_of_block (body : str) :
  slice_1_m1 (py "{" ++ body ++ py "}") = body.
Proof.
  unfold slice_1_m1. change (py "{" ++ body ++ py "}") with (ch "{" :: body ++ [ch "}"]).
  cbn [tail]. apply removelast_last.
Qed.

Lemma block_trimmed (body : str) : trimmed (py "{" ++ body ++ py "}").
Proof.
  exists (ch "{"), (body ++ py "}"). split; [reflexivity|].
  split; [reflexivity|]. exists (py "{" ++ body), (ch "}").
  split; [now rewrite <- app_assoc | reflexivity].
Qed.

(** What [normalize_to_brace_attrs] makes of a block: the text between the
    braces without the blanks around it and without one leading colon. *)
Lemma normalize_block (body : str) :
  normalize_to_brace_attrs (py "{" ++ body ++ py "}")
  = let inner := str_strip body in
    if startswith (py ":") inner then str_strip (drop 1 inner) else inner.
Proof.
  unfold normalize_to_brace_attrs.
  now rewrite (str_strip_of_trimmed _ (block_trimmed body)), slice_of_block.
Qed.

Lemma has_char_drop c n (s : str) :
  has_char c s = false -> has_char c (drop n s) = false.
Proof.
  intros H. rewrite <- (take_drop n s), has_char_app in H.
  now apply orb_false_iff in H as [_ H].
Qed.

Lemma normalize_block_no_brace (body : str) :
  has_char (ch "}") body = false ->
  has_char (ch "}") (normalize_to_brace_attrs (py "{" ++ body ++ py "}"))
  = false.
Proof.
  intros H. rewrite normalize_block. cbv zeta.
  destruct (startswith _ _).
  - now apply has_char_str_strip, has_char_drop, has_char_str_strip.
  - now apply has_char_str_strip.
Qed.

Lemma marked_block_facts (inner rest : str) :
  has_char (ch "}") inner = false ->
  match_attrs (marked_block inner ++ rest) = Some (marked_block inner) /\
  attrs_already_have_target_blank (marked_block inner) = true /\
  marked_block inner <> [].
Proof.
  unfold marked_block. intros Hinner.
  destruct inner as [|i0 inner].
  - repeat split; discriminate.
  - split; [|split; [|discriminate]].
    + apply match_attrs_Some.
      exists (py " " ++ (i0 :: inner) ++ py " target=_blank "), rest.
      split; [|split].
      * rewrite <- !app_assoc. reflexivity.
      * rewrite <- !app_assoc. reflexivity.
      * rewrite !has_char_app, Hinner. reflexivity.
    + unfold attrs_already_have_target_blank.
      change (py "{ " ++ (i0 :: inner) ++ py " target=_blank }")
        with (py "{ " ++ (i0 :: inner) ++ py " " ++ py "target=_blank }").
      rewrite !app_assoc. now apply re_search_app.
Qed.

Section blocks.
Context {U : Unicode}.

(** X11. A matched link with an attribute block that lacks the marker,
    whose cleaned url is neither an asset nor on the skip list, is returned
    with a block in plain brace form: the old attributes, without the
    blanks around them and without one leading colon, followed by
    [target=_blank]; an empty old block gives [{ target=_blank }]. The new
    block is again one attribute block of the link for the pattern,
    whatever text comes next, and it has the marker. *)
Theorem unmarked_block_gets_marker (text url u body rest : str) :
  strip_chatgpt_utm url = Ok u ->
  should_skip_external u = false ->
  has_char (ch "}") body = false ->
  attrs_already_have_target_blank (py "{" ++ body ++ py "}") = false ->
  let inner := normalize_to_brace_attrs (py "{" ++ body ++ py "}") in
  add_target_blank {| hl_text := text; hl_url := url;
                      hl_attrs := Some (py "{" ++ body ++ py "}") |}
  = Ok (py "[" ++ text ++ py "](" ++ u ++ py ")" ++ marked_block inner) /\
  inner = (let b := str_strip body in
           if startswith (py ":") b then str_strip (drop 1 b) else b) /\
  match_attrs (marked_block inner ++ rest) = Some (marked_block inner) /\
  attrs_already_have_target_blank (marked_block inner) = true.
Proof.
  intros Hu Hskip Hbody Hnone inner.
  destruct (marked_block_facts inner rest
              (normalize_block_no_brace body Hbody)) as (Hm & Ha & _).
  split; [|split; [apply normalize_block | split; assumption]].
  unfold add_target_blank. cbn [hl_text hl_url hl_attrs].
  rewrite Hu. cbn [mbind result_bind]. rewrite Hskip.
  change (py "{" ++ body ++ py "}") with (ch "{" :: body ++ py "}") in *.
  rewrite Hnone. fold inner. unfold marked_block.
  destruct inner; now rewrite <- !app_assoc.
Qed.

End blocks.

Lemma unmarked_block_gets_marker_witness :
  add_target_blank (U := ascii_tables)
    {| hl_text := py "a"; hl_url := py "https://a.org/";
       hl_attrs := Some (py "{" ++ py ": .external " ++ py "}") |}
  = Ok (py "[a](https://a.org/){ .external target=_blank }").
Proof.
  destruct (unmarked_block_gets_marker (U := ascii_tables)
              (py "a") (py "https://a.org/") (py "https://a.org/")
              (py ": .external ") []) as (Hadd & _).
  - reflexivity.
  - reflexivity.
  - reflexivity.
  - reflexivity.
  - rewrite Hadd. reflexivity.
Defined.

(** ** Urls that cannot make the pass fail *)



Section no_failure.
Context {U : Unicode}.




End no_failure.

(** ** Running the first pass twice *)

Lemma Ok_inj {A} (a b : A) : Ok a = Ok b -> a = b.
Proof. congruence. Qed.

Lemma re_sub_from_start {M} (try_match : option N -> str -> option (M * nat))
    (repl : M -> result str) (s : str) :
  re_sub try_match repl s = re_sub_from try_match repl None s.
Proof. reflexivity. Qed.

Section substitution.
Context {M : Type} (try_match : option N -> str -> option (M * nat)).
Context (repl : M -> result str).

Lemma re_sub_from_nil prev : re_sub_from try_match repl prev [] = Ok [].
Proof. reflexivity. Qed.

Lemma re_sub_from_lit prev c (s : str) :
  try_match prev (c :: s) = None ->
  re_sub_from try_match repl prev (c :: s)
  = (t ← re_sub_from try_match repl (Some c) s; Ok (c :: t)).
Proof.
  intros H. unfold re_sub_from. rewrite (re_scan_lit _ _ _ _ H).
  cbn [for_each mbind result_bind].
  destruct (for_each _ _) as [l|e]; reflexivity.
Qed.

Lemma re_sub_from_found prev (s : str) m n :
  try_match prev s = Some (m, n) -> n <> 0%nat -> s <> [] ->
  re_sub_from try_match repl prev s
  = (o ← repl m;
     t ← re_sub_from try_match repl (prev_after prev (take n s)) (drop n s);
     Ok (o ++ t)).
Proof.
  intros H Hn Hs. unfold re_sub_from. rewrite (re_scan_found _ _ _ _ _ H Hn Hs).
  cbn [for_each mbind result_bind].
  destruct (repl m) as [o|e]; [|reflexivity]. cbn [mbind result_bind].
  destruct (for_each _ _) as [l|e]; reflexivity.
Qed.

(** Only the first attempt of a scan looks at the character before. *)
Lemma re_sub_from_prev p p' (s : str) :
  (forall t, try_match p t = try_match p' t) ->
  re_sub_from try_match repl p s = re_sub_from try_match repl p' s.
Proof.
  intros H. unfold re_sub_from. destruct s as [|c s]; [reflexivity|].
  cbn [re_scan]. now rewrite H.
Qed.

End substitution.

Lemma match_http_link_prev p p' (s : str) :
  not_after_bang p = not_after_bang p' ->
  match_http_link p s = match_http_link p' s.
Proof. intros H. unfold match_http_link. now rewrite H. Qed.

(** The text of a match and what follows it. *)
Lemma match_http_link_parts prev (s : str) m n :
  match_http_link prev s = Some (m, n) ->
  exists rest,
    s = link_text m ++ default [] (hl_attrs m) ++ rest /\
    n = length (link_text m ++ default [] (hl_attrs m)) /\
    n <> 0%nat /\ s <> [] /\
    match hl_attrs m with
    | Some a => exists body, a = py "{" ++ body ++ py "}" /\
                             has_char (ch "}") body = false
    | None => match_attrs rest = None
    end /\
    not_after_bang
      (prev_after prev (link_text m ++ default [] (hl_attrs m))) = true.
Proof.
  intros H. apply match_http_link_spec in H
    as (Hprev & Ht & Hnt & Hnu & -> & u & rest & Hurl & Hu & -> & Hattrs).
  unfold link_text. destruct (hl_attrs m) as [a|] eqn:Ea.
  - symmetry in Hattrs. apply match_attrs_Some in Hattrs
      as (body & rest' & -> & -> & Hbody).
    change (default [] (Some ?x)) with x.
    exists rest'. split; [now rewrite <- !app_assoc|].
    split.
    { rewrite !length_app. change (length (py "[")) with 1%nat.
      change (length (py "](")) with 2%nat. change (length (py ")")) with 1%nat.
      change (length (py "{")) with 1%nat. change (length (py "}")) with 1%nat.
      lia. }
    split; [lia|]. split; [discriminate|]. split; [now exists body|].
    rewrite !app_assoc. rewrite prev_after_app. reflexivity.
  - change (default [] None) with (@nil N).
    exists rest. rewrite !app_nil_r. cbn [app].
    split; [now rewrite <- !app_assoc|].
    split.
    { rewrite !length_app. change (length (py "[")) with 1%nat.
      change (length (py "](")) with 2%nat. change (length (py ")")) with 1%nat.
      simpl. lia. }
    split; [lia|]. split; [discriminate|]. split; [now symmetry|].
    rewrite !app_assoc. rewrite prev_after_app. reflexivity.
Qed.

Section twice.
Context {U : Unicode}.

(** Without the text of the tracking parameter the url of a link is left
    as it is. *)
Lemma add_target_blank_stable (m : http_link) :
  contains (py "utm_source=chatgpt.com") (hl_url m) = false ->
  add_target_blank m = Ok (link_text m ++ new_block m).
Proof.
  intros Hno. unfold add_target_blank, strip_chatgpt_utm, new_block, link_text.
  rewrite Hno. cbn [negb mbind result_bind].
  destruct (should_skip_external (hl_url m)); [now rewrite <- !app_assoc|].
  destruct (hl_attrs m) as [[|a0 a]|]; try now rewrite <- !app_assoc.
  destruct (attrs_already_have_target_blank (a0 :: a));
    [now rewrite <- !app_assoc|].
  unfold marked_block.
  destruct (normalize_to_brace_attrs (a0 :: a)); now rewrite <- !app_assoc.
Qed.

Lemma no_utm_app_r (a b : str) :
  contains (py "utm_source=chatgpt.com") (a ++ b) = false ->
  contains (py "utm_source=chatgpt.com") b = false.
Proof.
  intros H. destruct (contains _ b) eqn:E; [|reflexivity].
  now rewrite (contains_app_r _ a b E) in H.
Qed.

Lemma no_utm_app_l (a b : str) :
  contains (py "utm_source=chatgpt.com") (a ++ b) = false ->
  contains (py "utm_source=chatgpt.com") a = false.
Proof.
  intros H. destruct (contains _ a) eqn:E; [|reflexivity].
  now rewrite (contains_app_l _ a b E) in H.
Qed.

(** One step of the substitution at a match. *)
Lemma sub_from_match prev (s : str) m n :
  match_http_link prev s = Some (m, n) ->
  contains (py "utm_source=chatgpt.com") (hl_url m) = false ->
  exists rest,
    s = link_text m ++ default [] (hl_attrs m) ++ rest /\
    match hl_attrs m with
    | Some a => exists body, a = py "{" ++ body ++ py "}" /\
                             has_char (ch "}") body = false
    | None => match_attrs rest = None
    end /\
    sub_from prev s
    = (t ← sub_from (Some (ch ")")) rest;
       Ok (link_text m ++ new_block m ++ t)).
Proof.
  intros Hm Hno.
  destruct (match_http_link_parts _ _ _ _ Hm)
    as (rest & Hs & Hn & Hn0 & Hs0 & Hattrs & Hbang).
  exists rest. split; [exact Hs|]. split; [exact Hattrs|].
  rewrite (re_sub_from_found _ _ _ _ _ _ Hm Hn0 Hs0).
  rewrite (add_target_blank_stable _ Hno).
  cbn [mbind result_bind].
  rewrite Hs at 1 2. rewrite Hn, app_assoc, take_app_length, drop_app_length.
  rewrite (re_sub_from_prev _ _ _ (Some (ch ")"))).
  2:{ intros t. apply match_http_link_prev. now rewrite Hbang. }
  destruct (sub_from _ rest); cbn [mbind result_bind]; [|reflexivity].
  now rewrite <- !app_assoc.
Qed.

Lemma no_utm_url prev (s : str) m n :
  match_http_link prev s = Some (m, n) ->
  contains (py "utm_source=chatgpt.com") s = false ->
  contains (py "utm_source=chatgpt.com") (hl_url m) = false.
Proof.
  intros Hm Hno.
  destruct (match_http_link_parts _ _ _ _ Hm) as (rest & Hs & _).
  rewrite Hs in Hno. unfold link_text in Hno.
  rewrite <- !app_assoc in Hno.
  apply no_utm_app_r, no_utm_app_r, no_utm_app_r in Hno.
  now apply no_utm_app_l in Hno.
Qed.

End twice.

Lemma first_char_split c (a b a' b' : str) :
  has_char c a = false -> a ++ c :: b = a' ++ c :: b' ->
  (a = a' /\ b = b') \/ exists l, a' = a ++ c :: l /\ b = l ++ c :: b'.
Proof.
  revert a'. induction a as [|y a IH]; intros a' Ha H.
  - destruct a' as [|x a'].
    + left. cbn in H. split; congruence.
    + right. cbn [app] in H. injection H as <- ->. now exists a'.
  - unfold has_char in Ha. cbn [existsb] in Ha.
    apply orb_false_iff in Ha as [Hy Ha]. apply N.eqb_neq in Hy.
    destruct a' as [|x a']; cbn [app] in H.
    + congruence.
    + injection H as <- H. destruct (IH a' Ha H) as [[-> ->] | (l & -> & ->)].
      * now left.
      * right. now exists l.
Qed.

Lemma first_char_unique c (a b a' b' : str) :
  has_char c a = false -> has_char c a' = false ->
  a ++ c :: b = a' ++ c :: b' -> a = a' /\ b = b'.
Proof.
  intros Ha Ha' H. destruct (first_char_split c a b a' b' Ha H)
    as [? | (l & -> & _)]; [assumption|].
  rewrite has_char_app in Ha'. apply orb_false_iff in Ha' as [_ Ha'].
  unfold has_char in Ha'. cbn [existsb] in Ha'. now rewrite N.eqb_refl in Ha'.
Qed.

Lemma prefix_of_long {A} (p w z v : list A) :
  p ++ w = z ++ v -> (length p <= length z)%nat -> exists z', z = p ++ z'.
Proof.
  intros H Hlen. exists (drop (length p) z).
  assert (Ht : take (length p) (p ++ w) = take (length p) (z ++ v))
    by now rewrite H.
  rewrite take_app_length, take_app_le in Ht by exact Hlen.
  rewrite Ht at 1. now rewrite take_drop.
Qed.

(** Whether a link lies ahead is settled by a text that ends with the
    closing parenthesis of a link, whatever comes after it. *)
Lemma link_ahead_settled (p1 u1 x y : str) :
  u1 <> [] -> has_char (ch ")") u1 = false ->
  link_ahead (p1 ++ py "](http" ++ u1 ++ py ")" ++ x) ->
  link_ahead (p1 ++ py "](http" ++ u1 ++ py ")" ++ y).
Proof.
  intros Hu1 Hnu1 (text & u & rest & Heq & Htext & Hnt & Hu & Hnu).
  change (p1 ++ py "](http" ++ u1 ++ py ")" ++ x)
    with (p1 ++ ch "]" :: py "(http" ++ u1 ++ py ")" ++ x) in Heq.
  change (text ++ py "](http" ++ u ++ py ")" ++ rest)
    with (text ++ ch "]" :: py "(http" ++ u ++ py ")" ++ rest) in Heq.
  symmetry in Heq.
  destruct (first_char_split _ _ _ _ _ Hnt Heq) as [[-> _] | (l & -> & Hl)].
  - now exists p1, u1, y.
  - change (l ++ ch "]" :: py "(http" ++ u1 ++ py ")" ++ x)
      with (l ++ py "](http" ++ u1 ++ ch ")" :: x) in Hl.
    rewrite !app_assoc in Hl. rewrite <- !app_assoc in Hl.
    assert (Hz : exists z', (l ++ py "](http") ++ u1 = py "(http" ++ z').
    { apply (prefix_of_long _ (u ++ py ")" ++ rest) _ (ch ")" :: x)).
      - rewrite Hl. now rewrite <- !app_assoc.
      - rewrite !length_app. change (length (py "](http")) with 6%nat.
        change (length (py "(http")) with 5%nat. lia. }
    destruct Hz as [z' Hz].
    assert (Hl' : u ++ ch ")" :: rest = z' ++ ch ")" :: x).
    { apply (app_inv_head (py "(http")).
      change (py "(http" ++ u ++ ch ")" :: rest)
        with (py "(http" ++ u ++ py ")" ++ rest).
      rewrite Hl. rewrite (app_assoc _ z'), <- Hz.
      now rewrite <- !app_assoc. }
    assert (Hk : exists k4, z' ++ py ")" = u ++ py ")" ++ k4).
    { destruct (first_char_split _ _ _ _ _ Hnu Hl')
        as [[-> _] | (l2 & -> & _)].
      - exists []. now rewrite app_nil_r.
      - exists (l2 ++ py ")"). now rewrite <- !app_assoc. }
    destruct Hk as [k4 Hk].
    exists text, u, (k4 ++ y).
    split; [|repeat split; assumption].
    rewrite <- !app_assoc.
    change ((ch "]" :: l) ++ py "](http" ++ u1 ++ py ")" ++ y)
      with (ch "]" :: (l ++ py "](http" ++ u1 ++ py ")" ++ y)).
    change (text ++ py "](http" ++ u ++ py ")" ++ k4 ++ y)
      with (text ++ ch "]" :: py "(http" ++ u ++ py ")" ++ k4 ++ y).
    do 2 f_equal.
    rewrite (app_assoc l), (app_assoc _ u1), Hz.
    rewrite <- !app_assoc. f_equal.
    rewrite (app_assoc z'), Hk. now rewrite <- !app_assoc.
Qed.

Lemma match_http_link_Some_iff p (s : str) :
  (exists m n, match_http_link p s = Some (m, n)) <->
  not_after_bang p = true /\ exists y, s = ch "[" :: y /\ link_ahead y.
Proof.
  split.
  - intros (m & n & H). apply match_http_link_spec in H
      as (Hprev & Ht & Hnt & Hnu & _ & u & rest & Hurl & Hu & -> & _).
    split; [exact Hprev|].
    exists (hl_text m ++ py "](http" ++ u ++ py ")" ++ rest).
    split; [rewrite Hurl; now rewrite <- !app_assoc|].
    exists (hl_text m), u, rest. repeat split; try assumption.
    rewrite Hurl, has_char_app in Hnu. now apply orb_false_iff in Hnu as [_ ?].
  - intros (Hprev & y & -> & text & u & rest & -> & Ht & Hnt & Hu & Hnu).
    exists {| hl_text := text; hl_url := py "http" ++ u;
              hl_attrs := match_attrs rest |}.
    eexists. apply match_http_link_spec. cbn [hl_text hl_url hl_attrs].
    split; [exact Hprev|]. split; [exact Ht|]. split; [exact Hnt|].
    split; [rewrite has_char_app, Hnu; reflexivity|].
    split; [reflexivity|]. exists u, rest.
    split; [reflexivity|]. split; [exact Hu|].
    split; [|reflexivity]. now rewrite <- !app_assoc.
Qed.

Section twice_more.
Context {U : Unicode}.

(** The result of the substitution and the subject agree up to the end
    of the first link, if there is one. *)
Lemma first_link (s : str) q (t : str) :
  sub_from q s = Ok t ->
  contains (py "utm_source=chatgpt.com") s = false ->
  t = s \/
  exists p1 u1 x y,
    s = p1 ++ py "](http" ++ u1 ++ py ")" ++ x /\
    t = p1 ++ py "](http" ++ u1 ++ py ")" ++ y /\
    u1 <> [] /\ has_char (ch ")") u1 = false.
Proof.
  revert q t. induction s as [|c s IH]; intros q t Hsub Hno.
  - left. rewrite re_sub_from_nil in Hsub. congruence.
  - destruct (match_http_link q (c :: s)) as [[m n]|] eqn:Em.
    + right.
      destruct (sub_from_match _ _ _ _ Em (no_utm_url _ _ _ _ Em Hno))
        as (rest & Hs & _ & Heq).
      rewrite Heq in Hsub.
      destruct (sub_from _ rest) as [t1|]; [|discriminate].
      cbn [mbind result_bind] in Hsub. apply Ok_inj in Hsub. subst t.
      apply match_http_link_spec in Em
        as (_ & _ & _ & Hnu & _ & u & _ & Hurl & Hu & _ & _).
      exists (py "[" ++ hl_text m), u, (default [] (hl_attrs m) ++ rest),
             (new_block m ++ t1).
      rewrite Hs. unfold link_text. rewrite Hurl. rewrite <- !app_assoc.
      split; [reflexivity|]. split; [reflexivity|]. split; [exact Hu|].
      rewrite Hurl, has_char_app in Hnu.
      now apply orb_false_iff in Hnu as [_ ?].
    + rewrite (re_sub_from_lit _ _ _ _ _ Em) in Hsub.
      destruct (sub_from (Some c) s) as [t'|] eqn:Et; [|discriminate].
      cbn [mbind result_bind] in Hsub. apply Ok_inj in Hsub. subst t.
      change (c :: s) with ([c] ++ s) in Hno. apply no_utm_app_r in Hno.
      destruct (IH _ _ Et Hno) as [-> | (p1 & u1 & x & y & -> & -> & H)].
      * now left.
      * right. now exists (c :: p1), u1, x, y.
Qed.

Lemma sub_from_head (s : str) q (t : str) :
  sub_from q s = Ok t ->
  contains (py "utm_source=chatgpt.com") s = false ->
  head t = head s.
Proof.
  intros Hsub Hno.
  destruct (first_link s q t Hsub Hno)
    as [-> | (p1 & u1 & x & y & -> & -> & _)]; [reflexivity|].
  now destruct p1.
Qed.

(** A place where no link starts is such a place in the result. *)
Lemma no_match_kept p c (s t : str) :
  match_http_link p (c :: s) = None ->
  sub_from (Some c) s = Ok t ->
  contains (py "utm_source=chatgpt.com") s = false ->
  match_http_link p (c :: t) = None.
Proof.
  intros Hnone Hsub Hno.
  destruct (match_http_link p (c :: t)) as [[m n]|] eqn:Em; [|reflexivity].
  exfalso.
  assert (Hsome : exists m n, match_http_link p (c :: t) = Some (m, n))
    by eauto.
  apply match_http_link_Some_iff in Hsome
    as (Hprev & y & [= -> <-] & Hahead).
  assert (Hs : link_ahead s).
  { destruct (first_link s _ t Hsub Hno)
      as [-> | (p1 & u1 & x & y & -> & -> & Hu1 & Hnu1)]; [exact Hahead|].
    exact (link_ahead_settled p1 u1 y x Hu1 Hnu1 Hahead). }
  assert (Hsome : exists m n, match_http_link p (ch "[" :: s) = Some (m, n)).
  { apply match_http_link_Some_iff. split; [exact Hprev|]. now exists s. }
  destruct Hsome as (m' & n' & Hsome). congruence.
Qed.

End twice_more.

Lemma has_char_cons c x (s : str) :
  has_char c (x :: s) = (c =? x) || has_char c s.
Proof. reflexivity. Qed.

Lemma match_http_link_bracket p c (s : str) :
  c <> ch "[" -> match_http_link p (c :: s) = None.
Proof.
  intros Hc. unfold match_http_link. destruct (not_after_bang p); [|reflexivity].
  apply N.eqb_neq in Hc. now rewrite Hc.
Qed.

Section twice_blocks.
Context {U : Unicode}.

(** What the pass puts after a link it found: nothing, for a link on the
    skip list that had no block, or else one whole block, which has the
    marker unless the link is on the skip list. *)
Lemma new_block_cases prev (s : str) m n :
  match_http_link prev s = Some (m, n) ->
  (new_block m = [] /\ should_skip_external (hl_url m) = true /\
   hl_attrs m = None) \/
  (exists b, new_block m = py "{" ++ b ++ py "}" /\
             has_char (ch "}") b = false /\
             (should_skip_external (hl_url m) = true \/
              attrs_already_have_target_blank (new_block m) = true)).
Proof.
  intros Hm.
  destruct (match_http_link_parts _ _ _ _ Hm) as (rest & _ & _ & _ & _ & Ha & _).
  unfold new_block.
  destruct (should_skip_external (hl_url m)) eqn:Eskip.
  - destruct (hl_attrs m) as [a|]; [|now left].
    right. destruct Ha as (body & -> & Hbody). exists body. auto.
  - right. destruct (hl_attrs m) as [a|].
    + destruct Ha as (body & -> & Hbody).
      change (py "{" ++ body ++ py "}") with (ch "{" :: body ++ py "}").
      destruct (attrs_already_have_target_blank (ch "{" :: body ++ py "}"))
        eqn:Emark.
      * exists body. auto.
      * change (ch "{" :: body ++ py "}") with (py "{" ++ body ++ py "}").
        destruct (marked_block_facts _ []
                    (normalize_block_no_brace body Hbody)) as (Hb & Hmark & _).
        apply match_attrs_Some in Hb as (b & r & _ & Hb & Hnb).
        exists b. auto.
    + exists (py "target=_blank"). split; [reflexivity|].
      split; [reflexivity|]. now right.
Qed.

(** In a text without closing brace the first closing brace of the result
    ends the block of the first link that got one. *)
Lemma first_new_block (k : nat) (r : str) q (tr : str) :
  (length r <= k)%nat ->
  has_char (ch "}") r = false ->
  contains (py "utm_source=chatgpt.com") r = false ->
  sub_from q r = Ok tr ->
  has_char (ch "}") tr = false \/
  exists x r0 r3 t3,
    tr = x ++ ch "}" :: t3 /\ has_char (ch "}") x = false /\
    r = r0 ++ r3 /\ sub_from (Some (ch ")")) r3 = Ok t3.
Proof.
  revert r q tr. induction k as [|k IH]; intros r q tr Hlen Hbrace Hno Hsub.
  { destruct r; [|simpl in Hlen; lia]. left.
    rewrite re_sub_from_nil in Hsub. apply Ok_inj in Hsub. now subst tr. }
  destruct r as [|c r].
  { left. rewrite re_sub_from_nil in Hsub. apply Ok_inj in Hsub. now subst tr. }
  simpl in Hlen.
  destruct (match_http_link q (c :: r)) as [[m n]|] eqn:Em.
  - destruct (sub_from_match _ _ _ _ Em (no_utm_url _ _ _ _ Em Hno))
      as (rest & Hs & Hattrs & Heq).
    rewrite Heq in Hsub. clear Heq.
    destruct (sub_from _ rest) as [t1|] eqn:Et1; [|discriminate].
    cbn [mbind result_bind] in Hsub. apply Ok_inj in Hsub. subst tr.
    assert (Hnone : hl_attrs m = None).
    { destruct (hl_attrs m) as [a|]; [|reflexivity]. exfalso.
      destruct Hattrs as (body & -> & _). rewrite Hs in Hbrace.
      change (default [] (Some ?v)) with v in Hbrace.
      rewrite !has_char_app in Hbrace.
      apply orb_false_iff in Hbrace as [_ Hbrace].
      apply orb_false_iff in Hbrace as [Hbrace _].
      apply orb_false_iff in Hbrace as [_ Hbrace].
      apply orb_false_iff in Hbrace as [_ Hbrace]. discriminate. }
    rewrite Hnone in Hs. change (default [] None) with (@nil N) in Hs.
    cbn [app] in Hs.
    assert (Hlink : has_char (ch "}") (link_text m) = false).
    { rewrite Hs, has_char_app in Hbrace.
      now apply orb_false_iff in Hbrace as [? _]. }
    assert (Hrest : has_char (ch "}") rest = false).
    { rewrite Hs, has_char_app in Hbrace.
      now apply orb_false_iff in Hbrace as [_ ?]. }
    assert (Hlen' : (length rest <= k)%nat).
    { apply (f_equal length) in Hs. rewrite length_app in Hs. simpl in Hs.
      unfold link_text in Hs. rewrite !length_app in Hs.
      change (length (py "[")) with 1%nat in Hs. lia. }
    assert (Hno' : contains (py "utm_source=chatgpt.com") rest = false)
      by (rewrite Hs in Hno; now apply no_utm_app_r in Hno).
    unfold new_block. rewrite Hnone.
    destruct (should_skip_external (hl_url m)).
    + change (default [] None) with (@nil N). cbn [app].
      destruct (IH rest _ t1 Hlen' Hrest Hno' Et1)
        as [Ht1 | (x & r0 & r3 & t3 & -> & Hx & -> & Hr3)].
      * left. now rewrite has_char_app, Hlink, Ht1.
      * right. exists (link_text m ++ x), (link_text m ++ r0), r3, t3.
        rewrite <- !app_assoc. split; [reflexivity|].
        split; [now rewrite has_char_app, Hlink, Hx|].
        split; [exact Hs | exact Hr3].
    + right. exists (link_text m ++ py "{target=_blank"), (link_text m), rest, t1.
      split; [now rewrite <- !app_assoc|].
      split; [now rewrite has_char_app, Hlink|].
      split; [exact Hs | exact Et1].
  - rewrite (re_sub_from_lit _ _ _ _ _ Em) in Hsub.
    destruct (sub_from (Some c) r) as [t'|] eqn:Et; [|discriminate].
    cbn [mbind result_bind] in Hsub. apply Ok_inj in Hsub. subst tr.
    rewrite has_char_cons in Hbrace. apply orb_false_iff in Hbrace as [Hc Hr].
    change (c :: r) with ([c] ++ r) in Hno. apply no_utm_app_r in Hno.
    destruct (IH r _ t' ltac:(lia) Hr Hno Et)
      as [Ht' | (x & r0 & r3 & t3 & -> & Hx & -> & Hr3)].
    + left. now rewrite has_char_cons, Hc, Ht'.
    + right. exists (c :: x), (c :: r0), r3, t3.
      split; [reflexivity|]. split; [now rewrite has_char_cons, Hc, Hx|].
      split; [reflexivity | exact Hr3].
Qed.

(** The result of the substitution is left as it is by the substitution. *)
Lemma sub_from_twice (k : nat) (s : str) prev (t : str) :
  (length s <= k)%nat ->
  contains (py "utm_source=chatgpt.com") s = false ->
  sub_from prev s = Ok t -> sub_from prev t = Ok t.
Proof.
  revert s prev t. induction k as [|k IH]; intros s prev t Hlen Hno Hsub.
  { destruct s; [|simpl in Hlen; lia].
    rewrite re_sub_from_nil in Hsub. apply Ok_inj in Hsub. now subst t. }
  destruct s as [|c s].
  { rewrite re_sub_from_nil in Hsub. apply Ok_inj in Hsub. now subst t. }
  simpl in Hlen.
  destruct (match_http_link prev (c :: s)) as [[m n]|] eqn:Em.
  - pose proof (no_utm_url _ _ _ _ Em Hno) as Hurl.
    destruct (sub_from_match _ _ _ _ Em Hurl) as (rest & Hs & Hattrs & Heq).
    rewrite Heq in Hsub. clear Heq.
    destruct (sub_from _ rest) as [t1|] eqn:Et1; [|discriminate].
    cbn [mbind result_bind] in Hsub. apply Ok_inj in Hsub. subst t.
    assert (Hlen' : (length rest <= k)%nat).
    { apply (f_equal length) in Hs. rewrite !length_app in Hs. simpl in Hs.
      unfold link_text in Hs. rewrite !length_app in Hs.
      change (length (py "[")) with 1%nat in Hs. lia. }
    assert (Hno' : contains (py "utm_source=chatgpt.com") rest = false)
      by (rewrite Hs in Hno; now apply no_utm_app_r, no_utm_app_r in Hno).
    pose proof (IH rest _ t1 Hlen' Hno' Et1) as Hrest.
    (* the link is found again *)
    set (m' := {| hl_text := hl_text m; hl_url := hl_url m;
                  hl_attrs := match_attrs (new_block m ++ t1) |}).
    assert (Em' : exists n', match_http_link prev
                               (link_text m ++ new_block m ++ t1)
                             = Some (m', n')).
    { apply match_http_link_spec in Em
        as (Hprev & Ht & Hnt & Hnu & _ & u & _ & Hu & Hu0 & _ & _).
      eexists. apply match_http_link_spec. cbn [hl_text hl_url hl_attrs].
      repeat (split; [assumption || reflexivity|]).
      exists u, (new_block m ++ t1). unfold link_text.
      rewrite <- !app_assoc. auto. }
    destruct Em' as [n' Em'].
    assert (Hat : hl_attrs m' = match_attrs (new_block m ++ t1))
      by reflexivity.
    assert (Hlt : link_text m' = link_text m) by reflexivity.
    assert (Hskip' : should_skip_external (hl_url m')
                     = should_skip_external (hl_url m)) by reflexivity.
    assert (Hurl' : contains (py "utm_source=chatgpt.com") (hl_url m') = false)
      by exact Hurl.
    clearbody m'.
    destruct (sub_from_match _ _ _ _ Em' Hurl')
      as (rest' & Hs' & Hattrs' & Heq).
    rewrite Heq. clear Heq. rewrite Hlt in *.
    apply app_inv_head in Hs'. rewrite Hat in Hs', Hattrs'.
    destruct (new_block_cases _ _ _ _ Em)
      as [(Hnb & Hskip & Hnone) | (b & Hnb & Hb & Hmark)].
    + (* no block was written *)
      rewrite Hnb in *. cbn [app] in *.
      destruct (match_attrs t1) as [a'|] eqn:Ea'.
      * (* what follows has become a block of the link *)
        change (default [] (Some ?v)) with v in Hs'.
        destruct Hattrs' as (body & -> & Hbody).
        assert (Hnew : new_block m' = py "{" ++ body ++ py "}").
        { unfold new_block. now rewrite Hskip', Hskip, Hat. }
        rewrite Hnew.
        rewrite Hnone in Hs, Hattrs. change (default [] None) with (@nil N) in Hs.
        cbn [app] in Hs.
        pose proof (sub_from_head _ _ _ Et1 Hno') as Hhead.
        rewrite Hs' in Hhead. cbn [head app] in Hhead.
        destruct rest as [|c0 r]; [discriminate|].
        change (head ((py "{" ++ body ++ py "}") ++ rest'))
          with (Some (ch "{")) in Hhead.
        cbn [head] in Hhead.
        assert (c0 = ch "{") by congruence. subst c0. clear Hhead.
        apply match_attrs_None in Hattrs as [Hattrs | Hr]; [congruence|].
        assert (Hlit : match_http_link (Some (ch ")")) (ch "{" :: r) = None)
          by (apply match_http_link_bracket; discriminate).
        rewrite (re_sub_from_lit _ _ _ _ _ Hlit) in Et1.
        destruct (sub_from (Some (ch "{")) r) as [tr|] eqn:Etr; [|discriminate].
        cbn [mbind result_bind] in Et1. apply Ok_inj in Et1.
        assert (Htr : tr = body ++ ch "}" :: rest').
        { rewrite Hs' in Et1.
          change ((py "{" ++ body ++ py "}") ++ rest')
            with (ch "{" :: (body ++ py "}") ++ rest') in Et1.
          rewrite <- app_assoc in Et1.
          change (py "}" ++ rest') with (ch "}" :: rest') in Et1.
          congruence. }
        assert (Hnor : contains (py "utm_source=chatgpt.com") r = false).
        { change (ch "{" :: r) with ([ch "{"] ++ r) in Hno'.
          now apply no_utm_app_r in Hno'. }
        destruct (first_new_block (length r) r _ tr (le_n _) Hr Hnor Etr)
          as [Hnone' | (x & r0 & r3 & t3 & Hx & Hnx & Hr3 & Hsub3)].
        { rewrite Htr, has_char_app, has_char_cons, N.eqb_refl in Hnone'.
          rewrite orb_true_r in Hnone'. discriminate. }
        rewrite Htr in Hx.
        destruct (first_char_unique _ _ _ _ _ Hbody Hnx Hx) as [-> ->].
        assert (Hfix : sub_from (Some (ch ")")) t3 = Ok t3).
        { apply (IH r3 _ t3); [| |exact Hsub3].
          - apply (f_equal length) in Hr3. rewrite length_app in Hr3.
            simpl in Hlen'. lia.
          - rewrite Hr3 in Hnor. now apply no_utm_app_r in Hnor. }
        rewrite Hfix. cbn [mbind result_bind]. now rewrite Hs'.
      * change (default [] None) with (@nil N) in Hs'. cbn [app] in Hs'.
        subst rest'. rewrite Hrest. cbn [mbind result_bind].
        assert (Hnew : new_block m' = []).
        { unfold new_block. now rewrite Hskip', Hskip, Hat. }
        now rewrite Hnew.
    + (* a whole block follows the link *)
      assert (Ha' : match_attrs (new_block m ++ t1) = Some (new_block m)).
      { apply match_attrs_Some. exists b, t1. rewrite Hnb.
        split; [now rewrite <- !app_assoc|]. split; [reflexivity | exact Hb]. }
      rewrite Ha' in Hs', Hat.
      change (default [] (Some ?v)) with v in Hs'.
      apply app_inv_head in Hs'. subst rest'.
      rewrite Hrest. cbn [mbind result_bind].
      assert (Hnew : new_block m' = new_block m).
      { unfold new_block at 1. rewrite Hskip', Hat.
        change (default [] (Some ?v)) with v.
        destruct Hmark as [-> | Hmark]; [reflexivity|].
        destruct (should_skip_external (hl_url m)); [reflexivity|].
        rewrite Hnb in *.
        change (py "{" ++ b ++ py "}") with (ch "{" :: b ++ py "}") in *.
        now rewrite Hmark. }
      now rewrite Hnew.
  - rewrite (re_sub_from_lit _ _ _ _ _ Em) in Hsub.
    destruct (sub_from (Some c) s) as [t'|] eqn:Et; [|discriminate].
    cbn [mbind result_bind] in Hsub. apply Ok_inj in Hsub. subst t.
    change (c :: s) with ([c] ++ s) in Hno. apply no_utm_app_r in Hno.
    rewrite (re_sub_from_lit _ _ _ _ _ (no_match_kept _ _ _ _ Em Et Hno)).
    now rewrite (IH s _ t' ltac:(lia) Hno Et).
Qed.

End twice_blocks.

Lemma universal_newlines_no_cr_aux (k : nat) (s : str) :
  (length s <= k)%nat -> has_char 13 (universal_newlines s) = false.
Proof.
  revert s. induction k as [|k IH]; intros s Hlen.
  { destruct s; [reflexivity | simpl in Hlen; lia]. }
  destruct s as [|c s]; [reflexivity|]. simpl in Hlen.
  cbn [universal_newlines]. destruct (N.eqb_spec c 13) as [-> | Hc].
  - rewrite has_char_cons. cbn [orb N.eqb Pos.eqb].
    destruct s as [|d s]; [reflexivity|]. simpl in Hlen.
    destruct (d =? 10); apply IH; simpl; lia.
  - rewrite has_char_cons. replace (13 =? c) with false
      by (symmetry; apply N.eqb_neq; congruence).
    apply IH. lia.
Qed.

Lemma universal_newlines_no_cr (s : str) :
  has_char 13 (universal_newlines s) = false.
Proof. exact (universal_newlines_no_cr_aux (length s) s (le_n _)). Qed.

Lemma has_char_slice c (s : str) :
  has_char c s = false -> has_char c (slice_1_m1 s) = false.
Proof.
  intros H. unfold slice_1_m1. destruct s as [|x s]; [reflexivity|].
  cbn [tail]. rewrite has_char_cons in H. apply orb_false_iff in H as [_ H].
  induction s as [|y t _] using rev_ind; [reflexivity|].
  rewrite removelast_last. rewrite has_char_app in H.
  now apply orb_false_iff in H as [H _].
Qed.

Lemma has_char_normalize c (a : str) :
  has_char c a = false -> has_char c (normalize_to_brace_attrs a) = false.
Proof.
  intros H. unfold normalize_to_brace_attrs.
  assert (Hi : has_char c (str_strip (slice_1_m1 (str_strip a))) = false)
    by now apply has_char_str_strip, has_char_slice, has_char_str_strip.
  destruct (startswith _ _); [|exact Hi].
  now apply has_char_str_strip, has_char_drop.
Qed.

Section twice_file.
Context {U : Unicode}.

Lemma has_char_new_block c (m : http_link) :
  has_char c (default [] (hl_attrs m)) = false ->
  has_char c (py "{ target=_blank}") = false ->
  has_char c (new_block m) = false.
Proof.
  intros Ha Hc. unfold new_block.
  destruct (should_skip_external _); [exact Ha|].
  assert (Hb : has_char c (py "{target=_blank}") = false).
  { apply has_char_false_iff. apply has_char_false_iff in Hc.
    intros Hin. apply Hc. revert Hin. vm_compute. tauto. }
  destruct (hl_attrs m) as [[|a0 a]|]; try exact Hb.
  change (default [] (Some ?v)) with v in Ha.
  destruct (attrs_already_have_target_blank _); [exact Ha|].
  pose proof (has_char_normalize c _ Ha) as Hn.
  unfold marked_block. destruct (normalize_to_brace_attrs (a0 :: a)) as [|i0 i].
  - apply has_char_false_iff. apply has_char_false_iff in Hc.
    intros Hin. apply Hc. revert Hin. vm_compute. tauto.
  - rewrite !has_char_app, Hn.
    assert (H1 : has_char c (py "{ ") = false).
    { apply has_char_false_iff. apply has_char_false_iff in Hc.
      intros Hin. apply Hc. revert Hin. vm_compute. tauto. }
    assert (H2 : has_char c (py " target=_blank }") = false).
    { apply has_char_false_iff. apply has_char_false_iff in Hc.
      intros Hin. apply Hc. revert Hin. vm_compute. tauto. }
    now rewrite H1, H2.
Qed.

(** The pass brings in no character but those of the marker block. *)
Lemma sub_from_chars (k : nat) c (s : str) q (t : str) :
  (length s <= k)%nat ->
  contains (py "utm_source=chatgpt.com") s = false ->
  has_char c s = false -> has_char c (py "{ target=_blank}") = false ->
  sub_from q s = Ok t -> has_char c t = false.
Proof.
  revert s q t. induction k as [|k IH]; intros s q t Hlen Hno Hs Hc Hsub.
  { destruct s; [|simpl in Hlen; lia].
    rewrite re_sub_from_nil in Hsub. apply Ok_inj in Hsub. now subst t. }
  destruct s as [|x s].
  { rewrite re_sub_from_nil in Hsub. apply Ok_inj in Hsub. now subst t. }
  simpl in Hlen.
  destruct (match_http_link q (x :: s)) as [[m n]|] eqn:Em.
  - destruct (sub_from_match _ _ _ _ Em (no_utm_url _ _ _ _ Em Hno))
      as (rest & Heq & _ & Hstep).
    rewrite Hstep in Hsub. clear Hstep.
    destruct (sub_from _ rest) as [t1|] eqn:Et1; [|discriminate].
    cbn [mbind result_bind] in Hsub. apply Ok_inj in Hsub. subst t.
    rewrite Heq, !has_char_app in Hs.
    apply orb_false_iff in Hs as [Hlink Hs].
    apply orb_false_iff in Hs as [Hattrs Hrest].
    rewrite !has_char_app, Hlink, (has_char_new_block _ _ Hattrs Hc).
    apply (IH rest (Some (ch ")")) t1); try assumption.
    + apply (f_equal length) in Heq. rewrite !length_app in Heq. simpl in Heq.
      unfold link_text in Heq. rewrite !length_app in Heq.
      change (length (py "[")) with 1%nat in Heq. lia.
    + rewrite Heq in Hno. now apply no_utm_app_r, no_utm_app_r in Hno.
  - rewrite (re_sub_from_lit _ _ _ _ _ Em) in Hsub.
    destruct (sub_from (Some x) s) as [t'|] eqn:Et; [|discriminate].
    cbn [mbind result_bind] in Hsub. apply Ok_inj in Hsub. subst t.
    rewrite has_char_cons in *. apply orb_false_iff in Hs as [Hx Hs].
    rewrite Hx. apply (IH s (Some x) t'); try assumption; [lia|].
    change (x :: s) with ([x] ++ s) in Hno. now apply no_utm_app_r in Hno.
Qed.

Lemma read_text_print (w : world) (line : str) (p : Path) :
  read_text (print w line) p = read_text w p.
Proof. reflexivity. Qed.

(** X13. Running the first pass twice. On a text without the text of the
    tracking parameter, what the substitution returns is left as it is by
    the substitution; so a second run of
    [append_target_blank_to_http_links] on a file the first run handled
    writes nothing, says that no change is needed and returns False. *)
Theorem first_pass_twice (content : str) :
  contains (py "utm_source=chatgpt.com") content = false ->
  (forall updated,
      re_sub match_http_link add_target_blank content = Ok updated ->
      re_sub match_http_link add_target_blank updated = Ok updated) /\
  (forall w file_path w1 changed,
      read_text w file_path = Ok content ->
      append_target_blank_to_http_links w file_path = (w1, Ok changed) ->
      append_target_blank_to_http_links w1 file_path
      = (print w1 (py "No changes needed in " ++ path_str file_path),
         Ok false)).
Proof.
  intros Hno.
  assert (Htwice : forall updated,
             re_sub match_http_link add_target_blank content = Ok updated ->
             re_sub match_http_link add_target_blank updated = Ok updated).
  { intros updated. rewrite !re_sub_from_start.
    apply (sub_from_twice (length content)); [lia | exact Hno]. }
  split; [exact Htwice|].
  intros w file_path w1 changed Hread Hrun.
  destruct (append_target_blank_run w file_path content Hread)
    as (q & Hq & Hne & Hrun').
  rewrite Hrun' in Hrun. clear Hrun'.
  destruct (re_sub match_http_link add_target_blank content)
    as [updated|e] eqn:Esub.
  2:{ apply (f_equal snd) in Hrun. discriminate. }
  assert (Hfixed : forall w2,
             read_text w2 file_path = Ok updated ->
             append_target_blank_to_http_links w2 file_path
             = (print w2 (py "No changes needed in " ++ path_str file_path),
                Ok false)).
  { intros w2 Hread2.
    destruct (append_target_blank_run w2 file_path updated Hread2)
      as (q2 & _ & _ & ->).
    rewrite (Htwice updated eq_refl).
    replace (str_eqb updated updated) with true
      by (symmetry; now apply str_eqb_true).
    reflexivity. }
  destruct (str_eqb updated content) eqn:Esame.
  - apply str_eqb_true in Esame. subst updated.
    apply (f_equal fst) in Hrun. cbn [fst] in Hrun. subst w1.
    apply Hfixed. now rewrite read_text_print.
  - apply (f_equal fst) in Hrun. cbn [fst] in Hrun. subst w1.
    destruct (read_text_Ok _ _ _ Hread) as (q' & c & Hq' & _ & _ & Hn & Hc).
    assert (q' = q) by congruence. subst q'.
    apply Hfixed. apply (read_text_after_write w file_path q c); try assumption.
    rewrite re_sub_from_start in Esub.
    apply (sub_from_chars (length content) 13 content None updated);
      [lia | exact Hno | | reflexivity | exact Esub].
    rewrite Hc. apply universal_newlines_no_cr.
Qed.

End twice_file.

Lemma first_pass_twice_witness :
  re_sub match_http_link (add_target_blank (U := ascii_tables))
    (py "[b](http://b.org/x.png){ [c](http://c.org){target=_blank}")
  = Ok (py "[b](http://b.org/x.png){ [c](http://c.org){target=_blank}").
Proof.
  destruct (first_pass_twice (U := ascii_tables)
              (py "[b](http://b.org/x.png){ [c](http://c.org)") eq_refl)
    as [Htwice _].
  apply Htwice. reflexivity.
Defined.

(** ** The ignore list *)

Lemma splitlines_chars_aux (n : nat) (s : str) :
  (length s <= n)%nat ->
  forall l x, In l (splitlines s) -> In x l -> In x s.
Proof.
  revert s. induction n as [|n IH]; intros s Hlen l x.
  - destruct s; [intros [] | simpl in Hlen; lia].
  - destruct s as [|c s]; [intros []|]. simpl in Hlen.
    cbn [splitlines]. destruct (c =? 13) eqn:E13.
    + intros [<- | Hl] Hx; [destruct Hx|]. right.
      destruct s as [|d s]; [destruct Hl|].
      destruct (d =? 10).
      * right. apply (IH s ltac:(simpl in *; lia) l x Hl Hx).
      * apply (IH (d :: s) ltac:(simpl in *; lia) l x Hl Hx).
    + destruct (is_linebreak c).
      * intros [<- | Hl] Hx; [destruct Hx|]. right.
        apply (IH s ltac:(lia) l x Hl Hx).
      * pose proof (IH s ltac:(lia)) as Hs.
        destruct (splitlines s) as [|l0 ls].
        -- intros [<- | []] [<- | []]. now left.
        -- intros [<- | Hl] Hx.
           ++ destruct Hx as [<- | Hx]; [now left|]. right.
              apply (Hs l0 x); [now left | exact Hx].
           ++ right. apply (Hs l x); [now right | exact Hx].
Qed.

Lemma splitlines_chars (s l : str) x : In l (splitlines s) -> In x l -> In x s.
Proof. apply (splitlines_chars_aux (length s)). lia. Qed.

Lemma blank_lines (content line : str) :
  forallb isspace content = true -> In line (splitlines content) ->
  str_strip line = [].
Proof.
  intros Hall Hline. apply str_strip_blank. apply forallb_forall.
  intros x Hx. rewrite forallb_forall in Hall. apply Hall.
  exact (splitlines_chars _ _ _ Hline Hx).
Qed.

Section ignore_list.
Context {U : Unicode}.

(** X14. The text [sort_lycheeignore_file] computes ends with one
    newline, and what stands before it has no blank at its end. From a
    file of blanks only, the empty file among them, the text is a single
    newline: the function writes it over an empty file and returns True. *)
Theorem ignore_list_text_shape (content : str) :
  (exists body, out_text content = body ++ [10] /\ str_rstrip body = body) /\
  (forallb isspace content = true -> out_text content = [10]) /\
  (forall w path q,
      resolve w path = Some q -> q <> [] -> fs w !! q = Some (File []) ->
      sort_lycheeignore_file w path
      = (print (set_fs w (<[q := File [10]]> (fs w)))
               (py "Sorted " ++ path_str path), Ok true)).
Proof.
  split; [|split].
  - unfold out_text. destruct (collect (splitlines content)) as [comments entries].
    eexists. split; [reflexivity|]. apply rstrip_of_idem.
  - intros Hall. rewrite out_text_render.
    rewrite !filter_none; [reflexivity | |].
    + intros line Hline. unfold is_entry_line.
      now rewrite (blank_lines content line Hall Hline).
    + intros line Hline. unfold is_comment_line.
      now rewrite (blank_lines content line Hall Hline).
  - intros w path q Hq Hne Hfile.
    assert (Hread : read_text w path = Ok []).
    { unfold read_text. rewrite Hq. unfold node_at.
      destruct q; [congruence|]. now rewrite Hfile. }
    destruct (sort_lycheeignore_file_run w path [] Hread) as (q' & Hq' & _ & ->).
    assert (q' = q) by congruence. subst q'. reflexivity.
Qed.


End ignore_list.

(** ** The files of the site *)

Lemma listing_by_name_lists : lists_entries listing_by_name.
Proof.
  intros names d n. cbn [scandir listing_by_name]. unfold names_in.
  rewrite <- list_elem_of_In, list_elem_of_omap. split.
  - intros (k & Hk & Hf). apply elem_of_elements in Hk.
    destruct (bool_decide _) eqn:Ed; [|discriminate].
    apply bool_decide_eq_true in Ed as [Htake Hlen].
    destruct (last k) as [x|] eqn:El; [|discriminate].
    destruct (entry_name x) eqn:En; [|discriminate].
    injection Hf as ->.
    assert (Hk' : k = d ++ [n]).
    { rewrite <- (take_drop (length d) k), Htake. f_equal.
      assert (Hd : length (drop (length d) k) = 1%nat)
        by (rewrite length_drop; lia).
      destruct (drop (length d) k) as [|y [|z l]] eqn:Edrop;
        try (simpl in Hd; lia).
      rewrite <- (take_drop (length d) k), Edrop, last_snoc in El.
      congruence. }
    subst k. now split.
  - intros [Hin Hn]. exists (d ++ [n]). split; [now apply elem_of_elements|].
    rewrite bool_decide_eq_true_2.
    + now rewrite last_snoc, Hn.
    + rewrite take_app_length, length_app. simpl. split; [reflexivity | lia].
Qed.

Lemma depth_bound (t : gmap (list str) node) k v :
  t !! k = Some v -> (length k <= depth t)%nat.
Proof.
  intros Hk. apply elem_of_map_to_list in Hk. unfold depth.
  induction (map_to_list t) as [|[k' v'] l IH]; [inversion Hk|].
  cbn [foldr fst]. apply elem_of_cons in Hk as [[= <- <-] | Hk].
  - lia.
  - specialize (IH Hk). lia.
Qed.

Lemma is_dir_lookup t k : k <> [] -> is_dir t k = true -> t !! k = Some Dir.
Proof.
  unfold is_dir, node_at. destruct k as [|x k]; [congruence|]. intros _.
  destruct (t !! (x :: k)) as [[c|]|]; congruence.
Qed.

Lemma entry_name_not_up n : entry_name n = true -> n <> py "..".
Proof.
  unfold entry_name. intros H. apply andb_true_iff in H as [_ H].
  apply negb_true_iff in H. now apply str_eqb_false.
Qed.

Lemma walk_app t cur (a b : list str) :
  walk t cur (a ++ b) = match walk t cur a with
                        | Some c => walk t c b
                        | None => None
                        end.
Proof.
  revert cur. induction a as [|x a IH]; intros cur; [reflexivity|].
  cbn [app walk]. destruct (is_dir t cur); [|reflexivity].
  destruct (str_eqb x (py "..")); apply IH.
Qed.

Lemma walk_dirs_along t cur rel :
  dirs_along t cur rel = true -> walk t cur rel = Some (cur ++ rel).
Proof.
  revert cur. induction rel as [|n rel IH]; intros cur Hd.
  - cbn. now rewrite app_nil_r.
  - cbn [dirs_along] in Hd. apply andb_true_iff in Hd as [Hd Hrel].
    apply andb_true_iff in Hd as [Hcur Hn].
    rewrite (walk_into _ _ _ _ Hcur (entry_name_not_up _ Hn)).
    rewrite (IH _ Hrel). now rewrite <- app_assoc.
Qed.

Lemma dirs_along_app t cur (a b : list str) :
  dirs_along t cur (a ++ b)
  = dirs_along t cur a && dirs_along t (cur ++ a) b.
Proof.
  revert cur. induction a as [|n a IH]; intros cur.
  - cbn. now rewrite app_nil_r.
  - cbn [app dirs_along]. rewrite IH, <- app_assoc. cbn [app].
    now rewrite !andb_assoc.
Qed.

Lemma relative_to_parts_child (root : Path) (rel : list str) :
  relative_to_parts (make_child root rel) root = Ok rel.
Proof.
  unfold relative_to_parts, make_child. cbn [p_root p_parts].
  destruct (p_root root) as [|c rt] eqn:Er.
  - destruct (p_parts root) as [|x ps] eqn:Ep; [reflexivity|].
    rewrite take_app_length, drop_app_length.
    cbn [length]. now rewrite bool_decide_eq_true_2.
  - change ([] :: (c :: rt) :: p_parts root ++ rel)
      with (([] :: (c :: rt) :: p_parts root) ++ rel).
    rewrite take_app_length, drop_app_length.
    cbn [length]. now rewrite bool_decide_eq_true_2.
Qed.

Lemma first_occurrences_In (yielded l : list Path) p :
  In p (first_occurrences yielded l) <-> In p l /\ p ∉ yielded.
Proof.
  revert yielded. induction l as [|x l IH]; intros yielded; cbn.
  - tauto.
  - destruct (bool_decide (x ∈ yielded)) eqn:Ex.
    + apply bool_decide_eq_true in Ex. rewrite IH. split.
      * intros [H1 H2]. auto.
      * intros [[-> | H1] H2]; [contradiction | auto].
    + apply bool_decide_eq_false in Ex. cbn. rewrite IH. split.
      * intros [<- | [H1 H2]]; [auto|]. split; [auto|].
        intros H. apply H2. now right.
      * intros [[-> | H1] H2]; [now left|].
        destruct (decide (x = p)) as [-> | Hne]; [now left|]. right.
        split; [exact H1|]. intros H. apply elem_of_cons in H as [H | H];
          [congruence | contradiction].
Qed.

Lemma first_occurrences_NoDup (yielded l : list Path) :
  List.NoDup (first_occurrences yielded l).
Proof.
  revert yielded. induction l as [|x l IH]; intros yielded; cbn.
  - constructor.
  - destruct (bool_decide (x ∈ yielded)); [apply IH|].
    constructor; [|apply IH]. rewrite first_occurrences_In.
    intros [_ H]. apply H. now left.
Qed.

Lemma dirs_along_last t cur (rel : list str) :
  dirs_along t cur rel = true -> rel <> [] ->
  is_dir t cur = true.
Proof.
  destruct rel as [|n rel]; [congruence|]. cbn [dirs_along]. intros H _.
  apply andb_true_iff in H as [H _]. now apply andb_true_iff in H as [H _].
Qed.

Section listing.
Context {L : Scandir}.
Hypothesis listed : lists_entries L.

(** The directories [_iterate_directories] visits. *)
Lemma iterate_directories_In (fuel : nat) t (r base x : list str) :
  is_dir t (r ++ base) = true ->
  In x (iterate_directories fuel t r base) <->
  exists ext,
    x = base ++ ext /\ (length ext <= fuel)%nat /\
    dirs_along t (r ++ base) ext = true /\
    is_dir t (r ++ base ++ ext) = true.
Proof.
  revert base x. induction fuel as [|fuel IH]; intros base x Hbase.
  - cbn. split.
    + intros [<- | []]. exists []. rewrite !app_nil_r.
      split; [reflexivity|]. split; [reflexivity|]. now split.
    + intros (ext & -> & Hlen & _). destruct ext; [|simpl in Hlen; lia].
      left. now rewrite app_nil_r.
  - cbn [iterate_directories]. split.
    + intros [<- | Hin].
      * exists []. rewrite !app_nil_r. split; [reflexivity|].
        split; [simpl; lia|]. now split.
      * apply in_flat_map in Hin as (n & Hn & Hin).
        apply listed in Hn as [Hdom Hname].
        destruct (is_dir t (r ++ base ++ [n])) eqn:Ed; [|destruct Hin].
        apply IH in Hin as (ext & -> & Hlen & Hext & Hdir);
          [|exact Ed].
        exists (n :: ext). rewrite <- !app_assoc in *. cbn [app] in *.
        split; [reflexivity|]. split; [simpl; lia|].
        split; [|exact Hdir]. cbn [dirs_along].
        rewrite Hbase, Hname. cbn [andb]. rewrite <- app_assoc. exact Hext.
    + intros (ext & -> & Hlen & Hext & Hdir).
      destruct ext as [|n ext]; [left; now rewrite app_nil_r|]. right.
      cbn [dirs_along] in Hext. apply andb_true_iff in Hext as [Hn Hext].
      apply andb_true_iff in Hn as [_ Hn]. rewrite <- app_assoc in Hext.
      assert (Hd : is_dir t (r ++ base ++ [n]) = true).
      { destruct ext as [|n2 ext]; [exact Hdir|].
        apply (dirs_along_last _ _ _ Hext). discriminate. }
      apply in_flat_map. exists n. split.
      * apply listed. split; [|exact Hn]. apply elem_of_dom.
        exists Dir. rewrite <- app_assoc. apply is_dir_lookup; [|exact Hd].
        destruct r, base; discriminate.
      * rewrite Hd. apply IH; [exact Hd|]. exists ext.
        rewrite <- !app_assoc. cbn [app]. split; [reflexivity|].
        split; [simpl in Hlen; lia|]. split; [exact Hext | exact Hdir].
Qed.

(** What [rglob] yields: the entries of the directories below the root,
    the root among them, each once. *)
Lemma rglob_In (w : world) (root : Path) (r : list str) (p : Path) :
  resolve w root = Some r ->
  In p (rglob w root) <->
  exists rel,
    p = make_child root rel /\ rel <> [] /\
    dirs_along (fs w) r rel = true /\ is_Some (fs w !! (r ++ rel)).
Proof.
  intros Hr. unfold rglob. rewrite Hr.
  destruct (is_dir (fs w) r) eqn:Edir.
  - rewrite first_occurrences_In, in_flat_map. split.
    + intros [(rel & Hrel & Hp) _].
      apply in_map_iff in Hp as (n & <- & Hn).
      apply listed in Hn as [Hdom Hname].
      apply (iterate_directories_In _ _ r [] rel) in Hrel
        as (ext & -> & _ & Hext & Hd); [|now rewrite app_nil_r].
      cbn [app] in *. rewrite app_nil_r in Hext.
      exists (ext ++ [n]). split; [reflexivity|].
      split; [destruct ext; discriminate|]. split.
      * rewrite dirs_along_app, Hext. cbn [andb dirs_along].
        now rewrite Hd, Hname.
      * apply elem_of_dom in Hdom. now rewrite app_assoc.
    + intros (rel & -> & Hne & Hrel & Hnode).
      destruct (exists_last Hne) as (ext & n & ->).
      rewrite dirs_along_app in Hrel. apply andb_true_iff in Hrel as [Hext Hn].
      cbn [dirs_along] in Hn. rewrite andb_true_r in Hn.
      apply andb_true_iff in Hn as [Hd Hname].
      split; [|apply not_elem_of_nil].
      exists ext. split.
      * apply (iterate_directories_In _ _ r [] ext); [now rewrite app_nil_r|].
        exists ext. split; [reflexivity|]. rewrite app_nil_r.
        split; [|now split].
        destruct ext as [|x ext]; [simpl; lia|].
        apply is_dir_lookup, depth_bound in Hd; [|destruct r; discriminate].
        rewrite length_app in Hd. lia.
      * apply in_map_iff. exists n. split; [reflexivity|].
        apply listed. split; [|exact Hname]. apply elem_of_dom.
        now rewrite <- app_assoc.
  - split; [intros []|]. intros (rel & -> & Hne & Hrel & _).
    destruct rel as [|n rel]; [congruence|]. cbn [dirs_along] in Hrel.
    rewrite Edir in Hrel. discriminate.
Qed.

End listing.

Lemma for_each_filtered {A} (f : A -> result (option A)) (keep : A -> bool)
    (l : list A) :
  (forall a, In a l -> f a = Ok (if keep a then Some a else None)) ->
  (found ← for_each f l; Ok (omap id (found : list (option A))))
  = Ok (List.filter keep l).
Proof.
  induction l as [|a l IH]; intros Hf; [reflexivity|].
  cbn [for_each]. rewrite (Hf a (or_introl eq_refl)).
  cbn [mbind result_bind].
  assert (Hl : forall x, In x l -> f x = Ok (if keep x then Some x else None))
    by (intros x Hx; apply Hf; now right).
  specialize (IH Hl). destruct (for_each f l) as [found|e]; [|discriminate].
  cbn [mbind result_bind] in *. apply Ok_inj in IH.
  cbn [List.filter]. destruct (keep a); cbn; now rewrite IH.
Qed.

Lemma is_file_child (w : world) (root : Path) (r rel : list str) :
  resolve w root = Some r -> dirs_along (fs w) r rel = true -> rel <> [] ->
  is_file w (make_child root rel)
  = match fs w !! (r ++ rel) with
    | Some (File _) => true
    | _ => false
    end.
Proof.
  intros Hr Hrel Hne. unfold is_file, resolve, make_child in *.
  cbn [p_root p_parts]. rewrite walk_app, Hr, (walk_dirs_along _ _ _ Hrel).
  unfold node_at. destruct (r ++ rel) eqn:E; [|reflexivity].
  apply app_eq_nil in E as [_ E]. congruence.
Qed.

Lemma make_child_inj (root : Path) (a b : list str) :
  make_child root a = make_child root b -> a = b.
Proof.
  unfold make_child. intros [= H]. now apply app_inv_head in H.
Qed.

Section content_files.
Context {L : Scandir}.
Hypothesis listed : lists_entries L.

(** The files [iter_content_files] yields are the files [rglob] yields
    that pass its three tests; no turn of its loop raises. *)
Lemma iter_content_files_filter (w : world) (root : Path) (r : list str) :
  resolve w root = Some r ->
  iter_content_files w root
  = Ok (List.filter
          (fun p => is_file w p
                    && bool_decide (path_suffix p ∈ [py ".md"; py ".qmd"])
                    && negb (length (p_parts p) - length (p_parts root)
                             =? 1)%nat)
          (rglob w root)).
Proof.
  intros Hr. unfold iter_content_files. apply for_each_filtered.
  intros p Hp. apply (rglob_In listed _ _ _ _ Hr) in Hp
    as (rel & -> & Hne & Hrel & Hnode).
  unfold content_file. rewrite relative_to_parts_child.
  cbn [mbind result_bind make_child p_parts]. rewrite length_app.
  replace (length (p_parts root) + length rel - length (p_parts root))%nat
    with (length rel) by lia.
  destruct (is_file w _); [|reflexivity].
  destruct (bool_decide _); [|reflexivity]. cbn [negb andb].
  now destruct (length rel =? 1)%nat.
Qed.

(** The files [iter_content_files] yields. *)
Lemma iter_content_files_In (w : world) (root : Path) (r : list str)
    (files : list Path) (p : Path) :
  resolve w root = Some r ->
  iter_content_files w root = Ok files ->
  In p files <->
  exists rel content,
    p = make_child root rel /\ (2 <= length rel)%nat /\
    dirs_along (fs w) r rel = true /\
    fs w !! (r ++ rel) = Some (File content) /\
    (path_suffix p = py ".md" \/ path_suffix p = py ".qmd").
Proof.
  intros Hr Hfiles. rewrite (iter_content_files_filter w root r Hr) in Hfiles.
  apply Ok_inj in Hfiles. subst files.
  rewrite filter_In, (rglob_In listed _ _ _ _ Hr). split.
  - intros [(rel & -> & Hne & Hrel & Hnode) Hkeep].
    apply andb_true_iff in Hkeep as [Hkeep Hlen].
    apply andb_true_iff in Hkeep as [Hfile Hsfx].
    rewrite (is_file_child _ _ _ _ Hr Hrel Hne) in Hfile.
    destruct (fs w !! (r ++ rel)) as [[content|]|] eqn:Ef; try discriminate.
    exists rel, content. split; [reflexivity|].
    cbn [make_child p_parts] in Hlen. rewrite length_app in Hlen.
    apply negb_true_iff, Nat.eqb_neq in Hlen.
    split; [destruct rel; [congruence | simpl in *; lia]|].
    split; [exact Hrel|]. split; [exact Ef|].
    apply bool_decide_eq_true in Hsfx.
    apply elem_of_cons in Hsfx as [Hsfx | Hsfx]; [now left|].
    apply list_elem_of_singleton in Hsfx. now right.
  - intros (rel & content & -> & Hlen & Hrel & Hf & Hsfx).
    assert (Hne : rel <> []) by (destruct rel; [simpl in Hlen; lia | discriminate]).
    split; [exists rel; rewrite Hf; eauto|].
    rewrite (is_file_child _ _ _ _ Hr Hrel Hne), Hf. cbn [andb].
    apply andb_true_iff. split.
    + apply bool_decide_eq_true. destruct Hsfx as [-> | ->];
        [now left | right; now left].
    + cbn [make_child p_parts]. rewrite length_app.
      apply negb_true_iff, Nat.eqb_neq. lia.
Qed.

Lemma rglob_NoDup (w : world) (root : Path) : List.NoDup (rglob w root).
Proof.
  unfold rglob. destruct (resolve w root) as [r|]; [|constructor].
  destruct (is_dir (fs w) r); [apply first_occurrences_NoDup | constructor].
Qed.


End content_files.


(** ** What [main] touches *)












Section passes.
Context {U : Unicode}.





End passes.



Section whole.
Context {U : Unicode} {L : Scandir}.
Hypothesis listed : lists_entries L.
Variable repo : option str.
Variable server : str.




End whole.


(** ** The files in the report *)

Lemma relative_to_posix_child (root : Path) (rel : list str) :
  exists text, relative_to_posix (make_child root rel) root = Ok text.
Proof.
  unfold relative_to_posix, make_child. cbn [p_root p_parts].
  destruct (p_root root) as [|c rt] eqn:Er.
  - destruct (p_parts root) as [|x ps] eqn:Ep; [now eexists|].
    rewrite take_app_length. cbn [length].
    rewrite bool_decide_eq_true_2 by reflexivity. now eexists.
  - change ([] :: (c :: rt) :: p_parts root ++ rel)
      with (([] :: (c :: rt) :: p_parts root) ++ rel).
    rewrite take_app_length. cbn [length].
    rewrite bool_decide_eq_true_2 by reflexivity. now eexists.
Qed.

Section dict.
Context {U : Unicode} {L : Scandir}.
Hypothesis listed : lists_entries L.
Variable repo : option str.
Variable server : str.

Lemma collect_broken_In (w : world) (root : Path) (files : list Path)
    (broken : list (Path * list (str * list Path))) f items :
  collect_broken w root files = Ok broken ->
  In (f, items) broken <->
  In f files /\ items <> [] /\ check_internal_links w f root = Ok items.
Proof.
  unfold collect_broken. intros H.
  destruct (for_each _ files) as [found|] eqn:Efound; [|discriminate].
  cbn [mbind result_bind] in H. apply Ok_inj in H. subst broken.
  rewrite <- list_elem_of_In, list_elem_of_omap. split.
  - intros (o & Ho & Hid). cbn in Hid. subst o.
    apply list_elem_of_In in Ho.
    destruct (for_each_In_r _ _ _ _ Efound Ho) as (fp & Hfp & Hb).
    destruct (check_internal_links w fp root) as [b|] eqn:Ec; [|discriminate].
    cbn [mbind result_bind] in Hb. destruct b as [|b0 b]; [discriminate|].
    apply Ok_inj in Hb.
    assert (f = fp /\ items = b0 :: b) as [-> ->] by (split; congruence).
    split; [exact Hfp|]. split; [discriminate|exact Ec].
  - intros (Hf & Hne & Hc).
    destruct (for_each_In_l _ _ _ _ Efound Hf) as (o & Ho & Hb).
    rewrite Hc in Hb. cbn [mbind result_bind] in Hb.
    destruct items as [|i0 items]; [congruence|]. apply Ok_inj in Hb.
    exists o. split; [now apply list_elem_of_In|]. now subst o.
Qed.

Lemma found_keys (w : world) (root : Path) (files : list Path)
    (found : list (option (Path * list (str * list Path)))) :
  Forall2 (fun fp o =>
             (b ← check_internal_links w fp root;
              Ok (match b with
                  | [] => None
                  | _ => Some (fp, b)
                  end)) = Ok o) files found ->
  forall f, In f (map fst (omap id found)) -> In f files.
Proof.
  induction 1 as [|fp o files found Hfp _ IH]; [now intros f []|].
  intros f Hf.
  destruct (check_internal_links w fp root) as [b|]; [|discriminate].
  cbn [mbind result_bind] in Hfp. apply Ok_inj in Hfp. subst o.
  destruct b as [|b0 b]; [right; now apply IH|].
  destruct Hf as [<- | Hf]; [now left | right; now apply IH].
Qed.

Lemma collect_broken_files (w : world) (root : Path) (files : list Path)
    (broken : list (Path * list (str * list Path))) :
  collect_broken w root files = Ok broken ->
  List.NoDup files -> List.NoDup (map fst broken).
Proof.
  unfold collect_broken. intros H Hnd.
  destruct (for_each _ files) as [found|] eqn:Efound; [|discriminate].
  cbn [mbind result_bind] in H. apply Ok_inj in H. subst broken.
  apply for_each_Forall2 in Efound.
  induction Efound as [|fp o files found Hfp Hrest IH]; [constructor|].
  apply NoDup_cons_iff in Hnd as [Hnot Hnd]. specialize (IH Hnd).
  pose proof (found_keys w root files found Hrest) as Hkeys.
  destruct (check_internal_links w fp root) as [b|]; [|discriminate].
  cbn [mbind result_bind] in Hfp. apply Ok_inj in Hfp. subst o.
  destruct b as [|b0 b]; [exact IH|].
  change (List.NoDup (fp :: map fst (omap id found))).
  constructor; [|exact IH]. intros Hin. apply Hnot. now apply Hkeys.
Qed.

(** X18. The dict [main] hands to the report. Its keys are files
    [iter_content_files] yielded, each once, each with the non-empty list
    [check_internal_links] returned for it, and each under the root: so the
    report, when its file can be written, is written in full and
    [write_broken_links_report] returns normally. *)
Theorem report_of_main_never_fails (w : world) (root : Path) (r : list str)
    (files : list Path) (broken : list (Path * list (str * list Path))) :
  resolve w root = Some r ->
  iter_content_files w root = Ok files ->
  collect_broken w root files = Ok broken ->
  (forall f items,
      In (f, items) broken <->
      In f files /\ items <> [] /\
      check_internal_links w f root = Ok items) /\
  List.NoDup (map fst broken) /\
  (forall f items, In (f, items) broken ->
                   exists rel, relative_to_posix f root = Ok rel) /\
  (forall w2 q,
      broken <> [] ->
      resolve w2 report_path = Some q -> is_dir (fs w2) q = false ->
      snd (write_broken_links_report repo server w2 broken root) = Ok tt).
Proof.
  intros Hr Hfiles Hbroken.
  assert (Hunder : forall f items, In (f, items) broken ->
                     exists rel, relative_to_posix f root = Ok rel).
  { intros f items Hin.
    apply (collect_broken_In _ _ _ _ _ _ Hbroken) in Hin as (Hf & _).
    apply (iter_content_files_In listed w root r files f Hr Hfiles) in Hf
      as (rel & _ & -> & _).
    apply relative_to_posix_child. }
  split; [intros f items; exact (collect_broken_In _ _ _ _ _ _ Hbroken)|].
  split.
  { apply (collect_broken_files _ _ _ _ Hbroken).
    rewrite (iter_content_files_filter listed w root r Hr) in Hfiles.
    apply Ok_inj in Hfiles. subst files.
    apply List.NoDup_filter, rglob_NoDup. }
  split; [exact Hunder|].
  intros w2 q Hne Hq Hdir. unfold write_broken_links_report.
  destruct broken as [|b broken]; [congruence|].
  set (groups := sorted (fun x => path_str (fst x)) (b :: broken)).
  pose proof (report_text_spec repo server root groups) as Hspec.
  destruct (report_text repo server root groups) as [text [e|]].
  - exfalso. destruct Hspec as (_ & f & items & Hf & Hraise).
    assert (Hin : In (f, items) (b :: broken)).
    { revert Hf. apply Permutation_in. apply sorted_perm. }
    destruct (Hunder f items Hin) as [rel Hrel]. congruence.
  - unfold write_text. now rewrite Hq, Hdir.
Qed.

End dict.

Lemma report_of_main_never_fails_witness :
  snd (write_broken_links_report None (py "https://github.com") small_site
         [(parse_path (py "/site/docs/a.md"),
           [(py "missing",
             candidates_for_quarto_source (parse_path (py "/site/docs/a.md"))
               (py "missing") (path_cwd small_site))])]
         (path_cwd small_site)) = Ok tt.
Proof.
  destruct (report_of_main_never_fails (U := ascii_tables)
              listing_by_name_lists None (py "https://github.com")
              small_site (path_cwd small_site) [py "site"]
              [parse_path (py "/site/docs/b.qmd");
               parse_path (py "/site/docs/a.md")]
              [(parse_path (py "/site/docs/a.md"),
                [(py "missing",
                  candidates_for_quarto_source
                    (parse_path (py "/site/docs/a.md")) (py "missing")
                    (path_cwd small_site))])])
    as (_ & _ & _ & Hok).
  - reflexivity.
  - vm_compute. reflexivity.
  - vm_compute. reflexivity.
  - apply (Hok small_site [py "site"; py "broken_links.md"]).
    + discriminate.
    + reflexivity.
    + reflexivity.
Defined.
